(** * DominantColors: recursive principal-axis colour quantisation

    A shallow embedding of [src/cpp/main.cpp] (the Objective-C++ category
    carries the same functions verbatim) and the properties of its
    specification.

    Modelling conventions.
    - [uchar] and [int] values are [Z]; the narrowing conversion to [uchar]
      is written out as [uchar_cast] (reduction modulo 256).
    - A [cv::Mat] image is its row-major sequence of elements: the nested
      [y]/[x] loops of the source scan that sequence front to back, and the
      image and the class buffer are walked in lock step.
    - [double] arithmetic is kept abstract in a class [Scalar]; the matrix
      operators of OpenCV act entry by entry.  The theorems of the generic
      part hold for every arithmetic.  The instance [dbl] (exact rationals
      completed with the IEEE special values) is used to run the code on
      concrete inputs.
    - [cv::eigen] belongs to OpenCV, not to this repository: it is a
      parameter [eigen] of the development.
    - A [t_color_node*] into the tree owned by [root] is the path from the
      root to that node, kept with the node it points to; writing through
      the pointer is [update_at].
    - A [while] loop over a queue of nodes takes one unit of fuel per round
      and is started with as much fuel as there are nodes, which is what
      it needs: more fuel changes nothing and every node is met (lemmas
      [leaves_loop_fuel], [next_classid_loop_fuel], [max_eigen_loop_fuel],
      [leaves_loop_perm], [next_classid_loop_spec]).  The [for] loop of
      the driver is left on its condition ([split_loop_exit]).
    - The files written are the images handed to [cv::imwrite]: the
      quantised image, the class-id view and the palette strip.  The strip
      is drawn by coordinates and is kept as the list of its rows;
      [cv::rectangle] with [CV_FILLED] paints the pixels of the image that
      lie in the rectangle.
    - [cv::imread], [atoi] and the conversion of a [UIImage] are not code
      of this repository: the entry points take what these return. *)

From Stdlib Require Import ZArith QArith Qround List Lia Lqa Bool Permutation
  Sorted.
Import ListNotations.
Open Scope Z_scope.

(** ** Scalars *)

Class Scalar (R : Type) : Type := {
  r_zero : R;                 (* 0.0 *)
  r_one : R;                  (* the step of [pixcount++] *)
  r_minus_one : R;            (* -1, the initial [max_eigen] *)
  r_255 : R;                  (* 255.0f *)
  r_of_uchar : Z -> R;        (* promotion of a channel value *)
  r_add : R -> R -> R;
  r_sub : R -> R -> R;
  r_mul : R -> R -> R;
  r_div : R -> R -> R;
  r_gtb : R -> R -> bool;     (* a > b *)
  r_leb : R -> R -> bool;     (* a <= b *)
  r_to_uchar : R -> Z         (* conversion of a double to uchar *)
}.

Definition uchar_cast (z : Z) : Z := z mod 256.

(** ** 3-vectors and 3x3 matrices of scalars *)

Record vec3 (R : Type) : Type := mk_vec3 { x0 : R; x1 : R; x2 : R }.
Record mat33 (R : Type) : Type :=
  mk_mat33 { row0 : vec3 R; row1 : vec3 R; row2 : vec3 R }.
Arguments mk_vec3 {R} _ _ _.
Arguments x0 {R} _.
Arguments x1 {R} _.
Arguments x2 {R} _.
Arguments mk_mat33 {R} _ _ _.
Arguments row0 {R} _.
Arguments row1 {R} _.
Arguments row2 {R} _.

(** [cv::Vec3b]: three channel bytes. *)
Record Vec3b : Type := mk_Vec3b { c0 : Z; c1 : Z; c2 : Z }.

Section LinearAlgebra.
Context {R : Type} {SR : Scalar R}.

Definition vmap2 (f : R -> R -> R) (a b : vec3 R) : vec3 R :=
  mk_vec3 (f (x0 a) (x0 b)) (f (x1 a) (x1 b)) (f (x2 a) (x2 b)).
Definition mmap2 (f : R -> R -> R) (a b : mat33 R) : mat33 R :=
  mk_mat33 (vmap2 f (row0 a) (row0 b)) (vmap2 f (row1 a) (row1 b))
           (vmap2 f (row2 a) (row2 b)).
Definition vmap (f : R -> R) (a : vec3 R) : vec3 R :=
  mk_vec3 (f (x0 a)) (f (x1 a)) (f (x2 a)).
Definition mmap (f : R -> R) (a : mat33 R) : mat33 R :=
  mk_mat33 (vmap f (row0 a)) (vmap f (row1 a)) (vmap f (row2 a)).

(* cv::Mat(3, 1, CV_64FC1, cv::Scalar(0)) and its 3x3 sibling *)
Definition vzero : vec3 R := mk_vec3 r_zero r_zero r_zero.
Definition mzero : mat33 R := mk_mat33 vzero vzero vzero.

Definition vadd : vec3 R -> vec3 R -> vec3 R := vmap2 r_add.
Definition madd : mat33 R -> mat33 R -> mat33 R := mmap2 r_add.
Definition msub : mat33 R -> mat33 R -> mat33 R := mmap2 r_sub.
(* m / s for a double s *)
Definition vdiv (a : vec3 R) (s : R) : vec3 R := vmap (fun x => r_div x s) a.
Definition mdiv (a : mat33 R) (s : R) : mat33 R := mmap (fun x => r_div x s) a.
(* a * b.t() for 3x1 matrices a, b *)
Definition outer (a b : vec3 R) : mat33 R :=
  mk_mat33 (vmap (r_mul (x0 a)) b) (vmap (r_mul (x1 a)) b) (vmap (r_mul (x2 a)) b).
(* the 1x1 product of a 1x3 row with a 3x1 column *)
Definition dot (a b : vec3 R) : R :=
  r_add (r_add (r_mul (x0 a) (x0 b)) (r_mul (x1 a) (x1 b))) (r_mul (x2 a) (x2 b)).

(* scaled.at<double>(k) = color[k]/255.0f *)
Definition scaled_color (color : Vec3b) : vec3 R :=
  mk_vec3 (r_div (r_of_uchar (c0 color)) r_255)
          (r_div (r_of_uchar (c1 color)) r_255)
          (r_div (r_of_uchar (c2 color)) r_255).

(* cv::Vec3b(m(0) * 255.0f, m(1) * 255.0f, m(2) * 255.0f) *)
Definition to_Vec3b (m : vec3 R) : Vec3b :=
  mk_Vec3b (r_to_uchar (r_mul (x0 m) r_255))
           (r_to_uchar (r_mul (x1 m) r_255))
           (r_to_uchar (r_mul (x2 m) r_255)).
End LinearAlgebra.

(** ** The class tree *)

Unset Elimination Schemes.
Inductive t_color_node (R : Type) : Type :=
  mk_node {
    mean : vec3 R;
    covariance : mat33 R;
    classid : Z;
    left : option (t_color_node R);
    right : option (t_color_node R)
  }.
Set Elimination Schemes.
Arguments mk_node {R} _ _ _ _ _.
Arguments mean {R} _.
Arguments covariance {R} _.
Arguments classid {R} _.
Arguments left {R} _.
Arguments right {R} _.

Inductive dir : Type := L | R_.
Abbreviation path := (list dir).

Section Tree.
Context {R : Type}.

Fixpoint size (n : t_color_node R) : nat :=
  match n with
  | mk_node _ _ _ l r =>
      S (match l with Some a => size a | None => 0 end
         + match r with Some b => size b | None => 0 end)
  end.

Definition child (n : t_color_node R) (d : dir) : option (t_color_node R) :=
  match d with L => left n | R_ => right n end.

(** Following a pointer chain from the node [n]. *)
Fixpoint lookup (n : t_color_node R) (p : path) {struct p}
  : option (t_color_node R) :=
  match p with
  | [] => Some n
  | d :: p' => match child n d with Some c => lookup c p' | None => None end
  end.

(** Writing through a pointer: the node at [p] is replaced by [f] of it. *)
Fixpoint update_at (n : t_color_node R) (p : path)
         (f : t_color_node R -> t_color_node R) {struct p} : t_color_node R :=
  match p with
  | [] => f n
  | L :: p' =>
      match n with
      | mk_node m c i (Some a) r => mk_node m c i (Some (update_at a p' f)) r
      | _ => n
      end
  | R_ :: p' =>
      match n with
      | mk_node m c i l (Some b) => mk_node m c i l (Some (update_at b p' f))
      | _ => n
      end
  end.

(** A pointer into the tree below [root], with the node it points to. *)
Definition valid_ptr (root : t_color_node R) (pn : path * t_color_node R) : Prop :=
  lookup root (fst pn) = Some (snd pn).

(** What a node stores about its class. *)
Definition stats (n : t_color_node R) : vec3 R * mat33 R * Z :=
  (mean n, covariance n, classid n).

(** Structural induction through the optional children. *)
Definition opt_all (P : t_color_node R -> Prop) (o : option (t_color_node R)) : Prop :=
  match o with Some a => P a | None => True end.

Section node_induction_sec.
Variable P : t_color_node R -> Prop.
Hypothesis step :
  forall m c i l r, opt_all P l -> opt_all P r -> P (mk_node m c i l r).

Fixpoint node_ind (n : t_color_node R) : P n :=
  match n with
  | mk_node m c i l r =>
      step m c i l r
           (match l return opt_all P l with
            | Some a => node_ind a | None => I end)
           (match r return opt_all P r with
            | Some b => node_ind b | None => I end)
  end.
End node_induction_sec.

(** The test of the traversals: a node without both children is a leaf. *)
Definition is_leaf (n : t_color_node R) : bool :=
  match left n, right n with Some _, Some _ => false | _, _ => true end.

(** The leaves, left to right. *)
Fixpoint leaves_dfs (n : t_color_node R) : list (t_color_node R) :=
  match n with
  | mk_node _ _ _ (Some l) (Some r) => leaves_dfs l ++ leaves_dfs r
  | _ => [n]
  end.

(** The class ids of all the nodes. *)
Fixpoint ids (n : t_color_node R) : list Z :=
  match n with
  | mk_node _ _ i l r =>
      i :: match l with Some a => ids a | None => [] end
        ++ match r with Some b => ids b | None => [] end
  end.

(** No node has a single child. *)
Fixpoint wf (n : t_color_node R) : Prop :=
  match n with
  | mk_node _ _ _ None None => True
  | mk_node _ _ _ (Some l) (Some r) => wf l /\ wf r
  | _ => False
  end.

(** The number of nodes waiting in or below a queue. *)
Definition fsize (q : list (t_color_node R)) : nat := list_sum (map size q).
End Tree.

(** ** The algorithm *)

Section Algorithm.
Context {R : Type} {SR : Scalar R}.

(** [cv::eigen(cov, eigenvalues, eigenvectors)]: the eigenvalues in
    descending order and the eigenvectors as the rows of a matrix. *)
Variable eigen : mat33 R -> vec3 R * mat33 R.

#[local] Abbreviation node := (t_color_node R).

(** *** get_next_classid *)

(* one round of [while(queue.size() > 0)] per unit of fuel *)
Fixpoint next_classid_loop (fuel : nat) (queue : list node) (maxid : Z) : Z :=
  match fuel, queue with
  | S fuel', current :: rest =>
      let maxid' := if classid current >? maxid then classid current else maxid in
      let queue1 := match left current with
                    | Some l => rest ++ [l] | None => rest end in
      let queue2 := match right current with
                    | Some r => queue1 ++ [r] | None => queue1 end in
      next_classid_loop fuel' queue2 maxid'
  | _, _ => maxid
  end.

Definition get_next_classid (root : node) : Z :=
  next_classid_loop (size root) [root] 0 + 1.

(** *** get_class_mean_cov *)

Definition mean_cov_step (id : Z) (acc : vec3 R * mat33 R * R)
           (px : Vec3b * Z) : vec3 R * mat33 R * R :=
  let '(mean, cov, pixcount) := acc in
  if negb (snd px =? id) then acc
  else
    let scaled := scaled_color (fst px) in
    (vadd mean scaled, madd cov (outer scaled scaled), r_add pixcount r_one).

Definition get_class_mean_cov (img : list Vec3b) (classes : list Z)
           (n : node) : node :=
  let '(mean, cov, pixcount) :=
    fold_left (mean_cov_step (classid n)) (combine img classes)
              (vzero, mzero, r_zero) in
  (* complete the covariance: mean is still the summation here *)
  let cov := msub cov (mdiv (outer mean mean) pixcount) in
  let mean := vdiv mean pixcount in
  mk_node mean cov (classid n) (left n) (right n).

(** *** get_max_eigenvalue_node *)

(* The queue holds node pointers: a path together with the node found
   there.  The last component counts the calls of [cv::eigen]. *)
Fixpoint max_eigen_loop (fuel : nat) (queue : list (path * node))
         (max_eigen : R) (ret : path * node) (calls : nat)
  : path * node * nat :=
  match fuel, queue with
  | S fuel', (p, n) :: rest =>
      match left n, right n with
      | Some l, Some r =>
          max_eigen_loop fuel' (rest ++ [(p ++ [L], l); (p ++ [R_], r)])
                         max_eigen ret calls
      | _, _ =>
          let '(eigenvalues, _) := eigen (covariance n) in
          let val := x0 eigenvalues in
          if r_gtb val max_eigen
          then max_eigen_loop fuel' rest val (p, n) (S calls)
          else max_eigen_loop fuel' rest max_eigen ret (S calls)
      end
  | _, _ => (ret, calls)
  end.

Definition max_eigenvalue_search (current : node) : path * node * nat :=
  match left current, right current with
  | None, None => (([], current), O)
  | _, _ =>
      max_eigen_loop (size current) [([], current)] r_minus_one
                     ([], current) O
  end.

Definition get_max_eigenvalue_node (current : node) : path * node :=
  fst (max_eigenvalue_search current).

(** *** get_leaves, get_dominant_colors, get_quantized_image *)

Fixpoint leaves_loop (fuel : nat) (queue : list node)
         (leaf_nodes : list node) : list node :=
  match fuel, queue with
  | S fuel', current :: rest =>
      match left current, right current with
      | Some l, Some r => leaves_loop fuel' (rest ++ [l; r]) leaf_nodes
      | _, _ => leaves_loop fuel' rest (leaf_nodes ++ [current])
      end
  | _, _ => leaf_nodes
  end.

Definition get_leaves (root : node) : list node :=
  leaves_loop (size root) [root] [].

Definition get_dominant_colors (root : node) : list Vec3b :=
  map (fun leaf => to_Vec3b (mean leaf)) (get_leaves root).

Definition black : Vec3b := mk_Vec3b 0 0 0.

Definition quantized_pixel (leaves : list node) (pixel_class : Z) : Vec3b :=
  fold_left (fun px leaf =>
               if classid leaf =? pixel_class then to_Vec3b (mean leaf) else px)
            leaves black.

Definition get_quantized_image (classes : list Z) (root : node) : list Vec3b :=
  let leaves := get_leaves root in
  map (quantized_pixel leaves) classes.

(** The leaves in the order in which the traversals meet them, as
    pointers; [get_max_eigenvalue_node] folds [pick_step] over them. *)
Fixpoint leaf_ptrs_loop (fuel : nat) (queue acc : list (path * node))
  : list (path * node) :=
  match fuel, queue with
  | S fuel', (p, n) :: rest =>
      match left n, right n with
      | Some l, Some r =>
          leaf_ptrs_loop fuel' (rest ++ [(p ++ [L], l); (p ++ [R_], r)]) acc
      | _, _ => leaf_ptrs_loop fuel' rest (acc ++ [(p, n)])
      end
  | _, _ => acc
  end.

Definition leaf_ptrs (root : node) : list (path * node) :=
  leaf_ptrs_loop (size root) [([], root)] [].

Definition top_eigenvalue (n : node) : R := x0 (fst (eigen (covariance n))).

Definition pick_step (st : R * (path * node) * nat) (pn : path * node)
  : R * (path * node) * nat :=
  let '(max_eigen, ret, calls) := st in
  if r_gtb (top_eigenvalue (snd pn)) max_eigen
  then (top_eigenvalue (snd pn), pn, S calls)
  else (max_eigen, ret, S calls).

(** *** partition_class *)

(* [new t_color_node()]: null children; the statistics are not meaningful
   until the estimator has run. *)
Definition new_node (id : Z) : node := mk_node vzero mzero id None None.

Fixpoint relabel (eig : vec3 R) (comparison_value : R)
         (classid newidleft newidright : Z)
         (img : list Vec3b) (classes : list Z) : list Z :=
  match img, classes with
  | color :: img', c :: classes' =>
      (if negb (c =? classid) then c
       else if r_leb (dot eig (scaled_color color)) comparison_value
            then newidleft else newidright)
        :: relabel eig comparison_value classid newidleft newidright img' classes'
  | _, _ => classes
  end.

(* [nextid] is the [uchar] parameter: the caller's int has been narrowed. *)
Definition partition_class (img : list Vec3b) (classes : list Z)
           (nextid : Z) (n : node) : list Z * node :=
  let newidleft := nextid in
  let newidright := uchar_cast (nextid + 1) in
  let '(_, eigenvectors) := eigen (covariance n) in
  let eig := row0 eigenvectors in
  let comparison_value := dot eig (mean n) in
  let n' := mk_node (mean n) (covariance n) (classid n)
                    (Some (new_node newidleft)) (Some (new_node newidright)) in
  (relabel eig comparison_value (classid n) newidleft newidright img classes, n').

(** *** find_dominant_colors *)

Record state : Type := mk_state {
  st_img : list Vec3b;      (* img *)
  st_classes : list Z;      (* classes *)
  st_root : node            (* the tree below root *)
}.

(* cv::Mat(height, width, CV_8UC1, cv::Scalar(1)); a root with class id 1
   and null children; get_class_mean_cov(img, classes, root) *)
Definition initial_state (img : list Vec3b) : state :=
  let classes := map (fun _ => 1) img in
  mk_state img classes (get_class_mean_cov img classes (new_node 1)).

(* the body of the splitting loop *)
Definition split_step (s : state) : state :=
  let img := st_img s in
  let root := st_root s in
  let '(next, next_node) := get_max_eigenvalue_node root in
  let '(classes, split) :=
    partition_class img (st_classes s)
                    (uchar_cast (get_next_classid root)) next_node in
  let root := update_at root next (fun _ => split) in
  let root := update_at root (next ++ [L]) (get_class_mean_cov img classes) in
  let root := update_at root (next ++ [R_]) (get_class_mean_cov img classes) in
  mk_state img classes root.

(* for(int i = 0; i < count-1; ++i); [count] is an [int] above INT_MIN
   (for INT_MIN the subtraction overflows and the source has no defined
   behaviour): the properties of counts below 1 carry that bound *)
Fixpoint split_loop (fuel : nat) (i count : Z) (s : state) : Z * state :=
  match fuel with
  | O => (i, s)
  | S fuel' =>
      if i <? count - 1 then split_loop fuel' (i + 1) count (split_step s)
      else (i, s)
  end.

(* the loop counter on exit, with the buffers and the tree *)
Definition run (img : list Vec3b) (count : Z) : Z * state :=
  split_loop (Z.to_nat (count - 1)) 0 count (initial_state img).

Definition find_dominant_colors (img : list Vec3b) (count : Z) : list Vec3b :=
  get_dominant_colors (st_root (snd (run img count))).

(* ./quantized.png *)
Definition quantized_output (img : list Vec3b) (count : Z) : list Vec3b :=
  let s := snd (run img count) in
  get_quantized_image (st_classes s) (st_root s).

(** *** Notions used to state the properties *)

(** The normalised colours of the pixels of class [id], in scan order. *)
Definition class_pixels (img : list Vec3b) (classes : list Z) (id : Z)
  : list (vec3 R) :=
  map (fun px => scaled_color (fst px))
      (filter (fun px => snd px =? id) (combine img classes)).

Definition vsum (l : list (vec3 R)) : vec3 R := fold_left vadd l vzero.

Definition outer_sum (l : list (vec3 R)) : mat33 R :=
  fold_left (fun acc x => madd acc (outer x x)) l mzero.

(* a [double] counter stepped once per pixel *)
Definition pixel_count (l : list (vec3 R)) : R :=
  fold_left (fun acc _ => r_add acc r_one) l r_zero.

(** The covariance in the words of the specification:
    [(sumOuterProduct / pixelCount) - mean * mean^t]. *)
Definition canonical_covariance (l : list (vec3 R)) : mat33 R :=
  let mean := vdiv (vsum l) (pixel_count l) in
  msub (mdiv (outer_sum l) (pixel_count l)) (outer mean mean).

(** A matrix equal to its transpose, which is what [cv::eigen] takes. *)
Definition symmetric (m : mat33 R) : Prop :=
  x1 (row0 m) = x0 (row1 m) /\ x2 (row0 m) = x0 (row2 m)
  /\ x2 (row1 m) = x1 (row2 m).

(** The mean colour in the words of the specification, written with the
    operations of the arithmetic alone.  Over a list of pixels, in scan
    order: the values of a channel, each divided by 255, are summed; the
    sum is divided by the number of the pixels, counted in steps of one;
    the quotient, multiplied by 255, is converted to a byte. *)
Definition channel_total (f : Vec3b -> Z) (px : list Vec3b) : R :=
  fold_left (fun acc c => r_add acc (r_div (r_of_uchar (f c)) r_255)) px r_zero.

Definition counted (px : list Vec3b) : R :=
  fold_left (fun acc _ => r_add acc r_one) px r_zero.

Definition denormalised_mean (f : Vec3b -> Z) (px : list Vec3b) : Z :=
  r_to_uchar (r_mul (r_div (channel_total f px) (counted px)) r_255).

Definition mean_colour (px : list Vec3b) : Vec3b :=
  mk_Vec3b (denormalised_mean c0 px) (denormalised_mean c1 px)
           (denormalised_mean c2 px).

(** The pixels of the image that carry the class id [id], in scan order. *)
Definition class_members (img : list Vec3b) (classes : list Z) (id : Z)
  : list Vec3b :=
  map fst (filter (fun px => snd px =? id) (combine img classes)).

(** The principal axis of a node, the threshold on it, and the id written
    for a pixel of the class being split. *)
Definition axis (n : node) : vec3 R := row0 (snd (eigen (covariance n))).
Definition threshold (n : node) : R := dot (axis n) (mean n).
Definition side (eig : vec3 R) (thr : R) (newidleft newidright : Z)
           (color : Vec3b) : Z :=
  if r_leb (dot eig (scaled_color color)) thr then newidleft else newidright.

(** The state after [k] rounds of the splitting loop. *)
Fixpoint steps (k : nat) (s : state) : state :=
  match k with O => s | S k' => steps k' (split_step s) end.

(** The node handed to [partition_class] is a leaf, now and in each of
    the next [k] rounds. *)
Definition picks_leaf (s : state) : bool :=
  is_leaf (snd (get_max_eigenvalue_node (st_root s))).

Fixpoint picks_leaves (k : nat) (s : state) : bool :=
  match k with
  | O => true
  | S k' => picks_leaf s && picks_leaves k' (split_step s)
  end.

(** The eigen-solver reports a top eigenvalue above -1 for the covariance
    of every class of the image that owns a pixel. *)
Definition spread_above_minus_one (img : list Vec3b) : Prop :=
  forall (classes : list Z) (id : Z),
    length classes = length img -> In id classes ->
    r_gtb (top_eigenvalue (get_class_mean_cov img classes (new_node id)))
          r_minus_one = true.

(** Each leaf holds the statistics of its class in the buffer as it is
    now, and no two leaves share an id. *)
Definition leaf_stats_current (s : state) : Prop :=
  forall leaf,
    In leaf (leaves_dfs (st_root s)) ->
    leaf = get_class_mean_cov (st_img s) (st_classes s) (new_node (classid leaf)).

Definition leaf_ids_distinct (s : state) : Prop :=
  NoDup (map classid (leaves_dfs (st_root s))).

(** The statistics of [n] are those of a class that owns a pixel, in some
    class buffer over the image. *)
Definition owns_pixel (img : list Vec3b) (n : node) : Prop :=
  exists (classes : list Z) (id : Z),
    length classes = length img /\ In id classes
    /\ covariance n = covariance (get_class_mean_cov img classes (new_node id)).

(** Every id in the class buffer is the id of a leaf with such statistics. *)
Definition buffer_in_live_leaves (s : state) : Prop :=
  forall c, In c (st_classes s) ->
            exists leaf, In leaf (leaves_dfs (st_root s))
                         /\ classid leaf = c /\ owns_pixel (st_img s) leaf.

(** Every id in the class buffer is the id of a leaf. *)
Definition buffer_in_leaves (s : state) : Prop :=
  forall c, In c (st_classes s) ->
            exists leaf, In leaf (leaves_dfs (st_root s)) /\ classid leaf = c.
End Algorithm.

(** *** main *)

(* the range of [int]: [count - 1] is an [int] subtraction, defined for a
   count above INT_MIN *)
Definition INT_MIN : Z := -2147483648.
Definition INT_MAX : Z := 2147483647.

(* the check of the count read from the command line: [true] when
   find_dominant_colors is called *)
Definition count_accepted (count : Z) : bool :=
  negb ((count <=? 0) || (count >? 255)).

(** *** get_viewable_image *)

Definition max_color_count : Z := 18.

Definition palette : list Vec3b :=
  [ mk_Vec3b 0 0 0;       mk_Vec3b 255 0 0;     mk_Vec3b 0 255 0;
    mk_Vec3b 0 0 255;     mk_Vec3b 255 255 0;   mk_Vec3b 0 255 255;
    mk_Vec3b 255 0 255;   mk_Vec3b 128 128 128; mk_Vec3b 128 255 128;
    mk_Vec3b 32 32 32;    mk_Vec3b 255 128 128; mk_Vec3b 128 128 255;
    mk_Vec3b 255 255 255; mk_Vec3b 32 128 128;  mk_Vec3b 128 32 128;
    mk_Vec3b 128 128 32;  mk_Vec3b 128 32 32;   mk_Vec3b 32 128 32 ].

(* One round of the inner loop: [ret] grows by the pixel at [x], which keeps
   the value cv::Scalar(0, 0, 0) it was created with when the round is cut
   short; [printed] counts the calls of printf. *)
Definition viewable_step (acc : list Vec3b * nat) (color : Z) : list Vec3b * nat :=
  let '(ret, printed) := acc in
  if color >=? max_color_count then (ret ++ [black], S printed)
  else (ret ++ [nth (Z.to_nat color) palette black], printed).

Definition get_viewable_image (classes : list Z) : list Vec3b * nat :=
  fold_left viewable_step classes ([], O).

(* ./classification.png *)
Definition viewable_output {R : Type} {SR : Scalar R}
           (eigen : mat33 R -> vec3 R * mat33 R)
           (img : list Vec3b) (count : Z) : list Vec3b :=
  fst (get_viewable_image (st_classes (snd (run eigen img count)))).

(** *** get_dominant_palette *)

Definition tile_size : Z := 64.

(* The strip is drawn by coordinates: it is kept as the list of its rows.
   [blank rows cols] is cv::Mat(rows, cols, CV_8UC3, cv::Scalar(0)). *)
Definition blank (rows cols : Z) : list (list Vec3b) :=
  repeat (repeat black (Z.to_nat cols)) (Z.to_nat rows).

(* the elements of a list with their indices, counted from [i] *)
Fixpoint indexed {A : Type} (i : Z) (l : list A) : list (Z * A) :=
  match l with
  | [] => []
  | a :: l' => (i, a) :: indexed (i + 1) l'
  end.

(* cv::rectangle(img, cv::Rect(x, y, width, height), color, CV_FILLED): the
   pixels of the image that lie inside the rectangle take the colour *)
Definition rectangle (img : list (list Vec3b)) (x y width height : Z)
           (color : Vec3b) : list (list Vec3b) :=
  map (fun rw =>
         map (fun cp =>
                if (x <=? fst cp) && (fst cp <? x + width)
                   && (y <=? fst rw) && (fst rw <? y + height)
                then color else snd cp)
             (indexed 0 (snd rw)))
      (indexed 0 img).

Definition get_dominant_palette (colors : list Vec3b) : list (list Vec3b) :=
  let ret := blank tile_size (tile_size * Z.of_nat (length colors)) in
  fold_left (fun ret ic =>
               rectangle ret (fst ic * tile_size) 0 tile_size tile_size
                         (mk_Vec3b (c0 (snd ic)) (c1 (snd ic)) (c2 (snd ic))))
            (indexed 0 colors) ret.

(* the pixel in row [r] and column [c] of an image kept as its rows *)
Definition pixel_at (img : list (list Vec3b)) (r c : nat) : option Vec3b :=
  match nth_error img r with
  | Some row => nth_error row c
  | None => None
  end.

(* ./palette.png *)
Definition palette_output {R : Type} {SR : Scalar R}
           (eigen : mat33 R -> vec3 R * mat33 R)
           (img : list Vec3b) (count : Z) : list (list Vec3b) :=
  get_dominant_palette (find_dominant_colors eigen img count).

(** *** main, from the command line to the files *)

(* what find_dominant_colors writes: ./classification.png, ./quantized.png
   and ./palette.png *)
Record files : Type := mk_files {
  classification_png : list Vec3b;
  quantized_png : list Vec3b;
  palette_png : list (list Vec3b)
}.

(* [matImage] is what cv::imread(argv[1]) returns and [count] what
   atoi(argv[2]) returns; a cv::Mat without elements has no data.  The
   result is the exit code with the files written, if any. *)
Definition main {R : Type} {SR : Scalar R}
           (eigen : mat33 R -> vec3 R * mat33 R)
           (argc : Z) (matImage : list Vec3b) (count : Z) : Z * option files :=
  if argc <? 3 then (0, None)
  else if match matImage with [] => true | _ :: _ => false end then (1, None)
  else if (count <=? 0) || (count >? 255) then (2, None)
  else (0, Some (mk_files (viewable_output eigen matImage count)
                          (quantized_output eigen matImage count)
                          (palette_output eigen matImage count))).

(** *** The category UIImage (getDominantColors) *)

Module UIImage.
Section Category.
Context {R : Type} {SR : Scalar R}.
Variable eigen : mat33 R -> vec3 R * mat33 R.

(* [UIColor colorWithRed:green:blue:alpha:] *)
Record UIColor : Type := colorWithRed { red : R; green : R; blue : R; alpha : R }.

(* the splitting loop is the one of main.cpp; the leaves are then packaged
   as UIColors, the means being left in the range 0..1 *)
Definition find_dominant_colors (img : list Vec3b) (count : Z) : list UIColor :=
  let leaves := get_leaves (st_root (snd (run eigen img count))) in
  map (fun leaf =>
         colorWithRed (x0 (mean leaf)) (x1 (mean leaf)) (x2 (mean leaf)) r_one)
      leaves.

(* [cvMat] is what convertUIImageToCVMat returns; [None] is nil *)
Definition getDominantColors (cvMat : list Vec3b) (numberOfColors : Z)
  : option (list UIColor) :=
  if (numberOfColors <=? 0) || (numberOfColors >? 255) then None
  else if match cvMat with [] => true | _ :: _ => false end then None
  else Some (find_dominant_colors cvMat numberOfColors).
End Category.
End UIImage.

(** ** An executable arithmetic

    Exact rationals, kept in lowest terms, completed with the IEEE special
    values: a division by zero yields an infinity or a NaN as it does for a
    [double], and every comparison with a NaN is false.  Rounding is not
    modelled: the source divides a channel by 255 in [float] and OpenCV
    divides a matrix by a number by multiplying with its reciprocal, so
    this arithmetic agrees with the code where the values met are exact in
    [double] (as in the closed examples below) and stands for no more
    than that. *)

Inductive dbl : Type := Fin (q : Q) | PInf | NInf | NaN.

Local Open Scope Q_scope.

Definition q_sign (q : Q) : Z := Z.sgn (Qnum q).

Definition dbl_opp (a : dbl) : dbl :=
  match a with
  | Fin q => Fin (Qred (- q)) | PInf => NInf | NInf => PInf | NaN => NaN
  end.

Definition dbl_add (a b : dbl) : dbl :=
  match a, b with
  | NaN, _ | _, NaN => NaN
  | Fin p, Fin q => Fin (Qred (p + q))
  | PInf, NInf | NInf, PInf => NaN
  | PInf, _ | _, PInf => PInf
  | NInf, _ | _, NInf => NInf
  end.

Definition dbl_sub (a b : dbl) : dbl := dbl_add a (dbl_opp b).

(* an infinity of the sign of [z]; NaN when [z] is zero *)
Definition dbl_inf (z : Z) : dbl :=
  match z with Z0 => NaN | Zpos _ => PInf | Zneg _ => NInf end.

Definition dbl_sgn (a : dbl) : Z :=
  match a with Fin q => q_sign q | PInf => 1%Z | NInf => (-1)%Z | NaN => 0%Z end.

Definition dbl_mul (a b : dbl) : dbl :=
  match a, b with
  | NaN, _ | _, NaN => NaN
  | Fin p, Fin q => Fin (Qred (p * q))
  | _, _ => dbl_inf (dbl_sgn a * dbl_sgn b)%Z
  end.

Definition dbl_div (a b : dbl) : dbl :=
  match a, b with
  | NaN, _ | _, NaN => NaN
  | Fin p, Fin q =>
      if Qeq_bool q 0 then dbl_inf (q_sign p) else Fin (Qred (p / q))
  | Fin _, _ => Fin 0
  | _, Fin q => dbl_inf (dbl_sgn a * (if Qeq_bool q 0 then 1 else q_sign q))%Z
  | _, _ => NaN
  end.

Definition dbl_gtb (a b : dbl) : bool :=
  match a, b with
  | NaN, _ | _, NaN => false
  | Fin p, Fin q => match p ?= q with Gt => true | _ => false end
  | PInf, PInf => false
  | PInf, _ => true
  | _, NInf => match a with NInf => false | _ => true end
  | _, _ => false
  end.

Definition dbl_leb (a b : dbl) : bool :=
  match a, b with
  | NaN, _ | _, NaN => false
  | _, _ => negb (dbl_gtb a b)
  end.

(* truncation towards zero, then the low byte *)
Definition dbl_to_uchar (a : dbl) : Z :=
  match a with
  | Fin q => uchar_cast (Z.quot (Qnum q) (Zpos (Qden q)))
  | _ => 0%Z
  end.

#[export] Instance dbl_Scalar : Scalar dbl := {
  r_zero := Fin 0;
  r_one := Fin 1;
  r_minus_one := Fin (-1);
  r_255 := Fin 255;
  r_of_uchar := fun z => Fin (inject_Z z);
  r_add := dbl_add;
  r_sub := dbl_sub;
  r_mul := dbl_mul;
  r_div := dbl_div;
  r_gtb := dbl_gtb;
  r_leb := dbl_leb;
  r_to_uchar := dbl_to_uchar
}.

(** Jacobi's method leaves a diagonal matrix as it is: the eigenvalues are
    the diagonal entries and the eigenvectors the unit vectors, which are
    then sorted by descending eigenvalue (the selection sort that closes the
    method).  [eigen_diag] does just that; it is an exact eigen-solver on
    diagonal matrices and stands in for [cv::eigen] in the closed examples,
    whose covariance matrices are diagonal or entirely NaN. *)
Definition eigen_diag (m : mat33 dbl) : vec3 dbl * mat33 dbl :=
  let lt (a b : dbl * vec3 dbl) := dbl_gtb (fst b) (fst a) in
  let w0 := (x0 (row0 m), mk_vec3 (Fin 1) (Fin 0) (Fin 0)) in
  let w1 := (x1 (row1 m), mk_vec3 (Fin 0) (Fin 1) (Fin 0)) in
  let w2 := (x2 (row2 m), mk_vec3 (Fin 0) (Fin 0) (Fin 1)) in
  (* k = 0: the first greatest entry is swapped to the front *)
  let wm := if lt w0 w1 then w1 else w0 in
  let '(a, b, c) :=
    if lt wm w2 then (w2, w1, w0)
    else if lt w0 w1 then (w1, w0, w2) else (w0, w1, w2) in
  (* k = 1 *)
  let '(b, c) := if lt b c then (c, b) else (b, c) in
  (mk_vec3 (fst a) (fst b) (fst c), mk_mat33 (snd a) (snd b) (snd c)).

Local Close Scope Q_scope.

(** The finite values, and the rational such a value stands for. *)
Definition is_fin (a : dbl) : Prop :=
  match a with Fin _ => True | _ => False end.

Definition dbl_val (a : dbl) : Q :=
  match a with Fin q => q | _ => 0%Q end.

Definition fin_vec (v : vec3 dbl) : Prop :=
  is_fin (x0 v) /\ is_fin (x1 v) /\ is_fin (x2 v).

Definition fin_mat (m : mat33 dbl) : Prop :=
  fin_vec (row0 m) /\ fin_vec (row1 m) /\ fin_vec (row2 m).

Definition qsum (l : list Q) : Q := fold_right Qplus 0%Q l.

Definition qsumsq (l : list Q) : Q :=
  fold_right (fun x acc => (x * x + acc)%Q) 0%Q l.

(** What is asked of an eigen-solver in exact arithmetic: the top
    eigenvalue it reports for a matrix of finite entries is not below the
    first diagonal entry (the top eigenvalue of a symmetric matrix is not
    below any of its diagonal entries). *)
Definition dominates_diagonal (eigen : mat33 dbl -> vec3 dbl * mat33 dbl) : Prop :=
  forall m : mat33 dbl,
    fin_mat m -> dbl_leb (x0 (row0 m)) (x0 (fst (eigen m))) = true.

(* every finite value of the context is opened *)
Ltac fin_destruct :=
  repeat match goal with
         | H : is_fin ?a |- _ =>
             is_var a; destruct a; cbn [is_fin] in H; [clear H|contradiction..]
         end.

(** ** Inputs of the closed examples *)

(* one black and one white pixel *)
Definition img_bw : list Vec3b := [mk_Vec3b 0 0 0; mk_Vec3b 255 255 255].

(* a single pixel *)
Definition img_one : list Vec3b := [mk_Vec3b 10 0 0].

(* four pixels that differ in the first channel only, so that every
   covariance met is diagonal *)
Definition img_four : list Vec3b :=
  [mk_Vec3b 10 0 0; mk_Vec3b 20 0 0; mk_Vec3b 200 0 0; mk_Vec3b 250 0 0].

(* an image without pixels *)
Definition img_empty : list Vec3b := [].


(** * Properties *)

(** ** Trees and queues *)

Section TreeFacts.
Context {R : Type}.
#[local] Abbreviation node := (t_color_node R).

Lemma size_pos (n : node) : (0 < size n)%nat.
Proof. destruct n; simpl; lia. Qed.

Lemma fsize_app (q q' : list node) : fsize (q ++ q') = (fsize q + fsize q')%nat.
Proof. unfold fsize. now rewrite map_app, list_sum_app. Qed.

Lemma fsize_zero (q : list node) : (fsize q <= 0)%nat -> q = [].
Proof.
  destruct q as [|n q]; [reflexivity|].
  unfold fsize; simpl. pose proof (size_pos n). lia.
Qed.

Lemma lookup_app (p q : path) :
  forall n : node,
    lookup n (p ++ q)
    = match lookup n p with Some m => lookup m q | None => None end.
Proof.
  induction p as [|d p IH]; intro n; simpl; [reflexivity|].
  destruct (child n d); auto.
Qed.

Lemma lookup_update_at (p : path) (f : node -> node) :
  forall n m : node,
    lookup n p = Some m -> lookup (update_at n p f) p = Some (f m).
Proof.
  induction p as [|d p IH]; intros n m H; simpl in *.
  - now inversion H.
  - destruct n as [mu c i [a|] [b|]], d; simpl in *;
      try discriminate; now apply IH.
Qed.

(** Two writes, the second below the first, are one write. *)
Lemma update_at_below (p q : path) (f g : node -> node) :
  forall n : node,
    update_at (update_at n p f) (p ++ q) g
    = update_at n p (fun m => update_at (f m) q g).
Proof.
  induction p as [|d p IH]; intro n; simpl; [reflexivity|].
  destruct n as [mu c i [a|] [b|]], d; simpl; try reflexivity;
    now rewrite IH.
Qed.

Lemma wf_update_at (p : path) (f : node -> node) :
  forall n m : node,
    wf n -> lookup n p = Some m -> wf (f m) -> wf (update_at n p f).
Proof.
  induction p as [|d p IH]; intros n m Hn H Hf; simpl in *.
  - now inversion H; subst.
  - destruct n as [mu c i [a|] [b|]], d; simpl in *;
      try discriminate; try contradiction;
      destruct Hn as [Ha Hb]; split; eauto.
Qed.

(** Replacing a subtree exchanges its leaves. *)
Lemma leaves_update_at (p : path) (f : node -> node) :
  forall n m : node,
    wf n -> lookup n p = Some m ->
    Permutation (leaves_dfs (update_at n p f) ++ leaves_dfs m)
                (leaves_dfs n ++ leaves_dfs (f m)).
Proof.
  induction p as [|d p IH]; intros n m Hn H; simpl in H.
  - inversion H; subst. simpl. apply Permutation_app_comm.
  - destruct n as [mu c i [a|] [b|]], d; simpl in *;
      try discriminate; try contradiction; destruct Hn as [Ha Hb].
    + specialize (IH a m Ha H).
      rewrite <- !app_assoc.
      rewrite (Permutation_app_comm (leaves_dfs b) (leaves_dfs m)).
      rewrite (Permutation_app_comm (leaves_dfs b) (leaves_dfs (f m))).
      rewrite !app_assoc. now apply Permutation_app_tail.
    + specialize (IH b m Hb H).
      rewrite <- !app_assoc. now apply Permutation_app_head.
Qed.

Lemma ids_update_at (p : path) (f : node -> node) :
  forall (n m : node) (x : Z),
    lookup n p = Some m ->
    In x (ids (update_at n p f)) -> In x (ids n) \/ In x (ids (f m)).
Proof.
  induction p as [|d p IH]; intros n m x H Hx; simpl in H.
  - inversion H; subst. now right.
  - destruct n as [mu c i [a|] [b|]], d; simpl in *;
      try discriminate; rewrite ?in_app_iff in *;
      repeat match goal with
             | H : _ \/ _ |- _ => destruct H
             end; auto;
      match goal with
      | H : In x (ids (update_at _ _ _)) |- _ =>
          destruct (IH _ _ _ ltac:(eassumption) H); auto
      end.
Qed.

Lemma ids_update_at_new (p : path) (f : node -> node) :
  forall (n m : node) (x : Z),
    lookup n p = Some m ->
    In x (ids (f m)) -> In x (ids (update_at n p f)).
Proof.
  induction p as [|d p IH]; intros n m x H Hx; simpl in H.
  - inversion H; subst. assumption.
  - destruct n as [mu c i [a|] [b|]], d; simpl in *;
      try discriminate; rewrite ?in_app_iff; eauto.
Qed.

Lemma is_leaf_leaves_dfs (n : node) : is_leaf n = true -> leaves_dfs n = [n].
Proof. destruct n as [mu c i [a|] [b|]]; simpl; now try discriminate. Qed.

Lemma leaves_dfs_is_leaf (n : node) :
  forall x, In x (leaves_dfs n) -> is_leaf x = true.
Proof.
  induction n as [mu c i l r IHl IHr] using node_ind; intros x Hx.
  destruct l as [a|], r as [b|]; simpl in *;
    try (destruct Hx as [<-|[]]; reflexivity).
  apply in_app_iff in Hx. destruct Hx; auto.
Qed.

Lemma lookup_ids (p : path) :
  forall n m : node, lookup n p = Some m -> incl (ids m) (ids n).
Proof.
  induction p as [|d p IH]; intros n m H; simpl in H.
  - inversion H; subst. apply incl_refl.
  - destruct n as [mu c i [a|] [b|]], d; simpl in *; try discriminate;
      intros x Hx; right; rewrite ?in_app_iff; specialize (IH _ _ H x Hx); auto.
Qed.

Lemma classid_in_ids (n : node) : In (classid n) (ids n).
Proof. destruct n; simpl; auto. Qed.

(** The leaves of a subtree written into the tree are leaves of the tree;
    the leaves outside the subtree it replaces stay. *)
Lemma leaves_update_at_new (p : path) (f : node -> node) :
  forall (n m x : node),
    wf n -> lookup n p = Some m ->
    In x (leaves_dfs (f m)) -> In x (leaves_dfs (update_at n p f)).
Proof.
  induction p as [|d p IH]; intros n m x Hn H Hx; simpl in H.
  - inversion H; subst. assumption.
  - destruct n as [mu c i [a|] [b|]], d; simpl in *;
      try discriminate; try contradiction;
      destruct Hn as [Ha Hb]; apply in_app_iff; eauto.
Qed.

Lemma leaves_update_at_old (p : path) (f : node -> node) :
  forall (n m x : node),
    wf n -> lookup n p = Some m ->
    In x (leaves_dfs n) -> ~ In x (leaves_dfs m) ->
    In x (leaves_dfs (update_at n p f)).
Proof.
  induction p as [|d p IH]; intros n m x Hn H Hx Hm; simpl in H.
  - inversion H; subst. contradiction.
  - destruct n as [mu c i [a|] [b|]], d; simpl in *;
      try discriminate; try contradiction;
      destruct Hn as [Ha Hb]; apply in_app_iff in Hx; apply in_app_iff;
      destruct Hx; eauto.
Qed.

Lemma classid_update_at (p : path) (f : node -> node) :
  forall n m : node,
    lookup n p = Some m -> classid (f m) = classid m ->
    classid (update_at n p f) = classid n.
Proof.
  destruct p as [|d p]; intros n m H Hf; simpl in H.
  - inversion H; subst. assumption.
  - destruct n as [mu c i [a|] [b|]], d; simpl in *; try discriminate; reflexivity.
Qed.

(** A write that keeps the statistics of the node it replaces changes the
    tree only strictly below that node. *)
Lemma lookup_update_at_stats (p : path) (f : node -> node) :
  forall (n m : node) (q : path),
    lookup n p = Some m -> stats (f m) = stats m ->
    (forall d t, q <> p ++ d :: t) ->
    option_map stats (lookup (update_at n p f) q) = option_map stats (lookup n q).
Proof.
  induction p as [|d p IH]; intros n m q H Hf Hq; simpl in H.
  - inversion H; subst. destruct q as [|d t]; [|now destruct (Hq d t)].
    simpl. now rewrite Hf.
  - destruct q as [|d' q]; [destruct n as [mu c i [a|] [b|]], d; reflexivity|].
    assert (Hq' : d' = d -> forall d0 t, q <> p ++ d0 :: t).
    { intros -> d0 t E. apply (Hq d0 t). simpl. now rewrite E. }
    destruct n as [mu c i [a|] [b|]], d, d'; simpl in *;
      try discriminate; try reflexivity; eapply IH; eauto.
Qed.

Lemma leaves_ids (n : node) : incl (map classid (leaves_dfs n)) (ids n).
Proof.
  induction n as [mu c i l r IHl IHr] using node_ind.
  destruct l as [a|], r as [b|]; simpl in *;
    try (intros x [<-|[]]; now left).
  rewrite map_app. intros x Hx. right.
  apply in_app_iff in Hx. apply in_app_iff. destruct Hx; auto.
Qed.
End TreeFacts.

(** ** The traversals *)

Section Traversals.
Context {R : Type}.
#[local] Abbreviation node := (t_color_node R).

(** [get_leaves]: the fuel handed to the loop is enough, and the result
    is the list of leaves up to order. *)
Lemma leaves_loop_perm (fuel : nat) :
  forall (q acc : list node),
    (fsize q <= fuel)%nat ->
    Permutation (leaves_loop fuel q acc) (acc ++ flat_map leaves_dfs q).
Proof.
  induction fuel as [|fuel IH]; intros q acc Hq.
  - rewrite (fsize_zero q Hq). simpl. now rewrite app_nil_r.
  - destruct q as [|n rest]; [simpl; now rewrite app_nil_r|].
    destruct n as [m c i [l|] [r|]]; simpl;
      try (etransitivity;
           [apply IH; unfold fsize in *; simpl in *; lia
           |rewrite <- app_assoc; reflexivity]).
    etransitivity.
    + apply IH. rewrite fsize_app. unfold fsize in *; simpl in *; lia.
    + rewrite flat_map_app. simpl. rewrite app_nil_r.
      apply Permutation_app_head, Permutation_app_comm.
Qed.

Lemma leaves_loop_fuel (fuel : nat) :
  forall (fuel' : nat) (q acc : list node),
    (fsize q <= fuel)%nat -> (fsize q <= fuel')%nat ->
    leaves_loop fuel q acc = leaves_loop fuel' q acc.
Proof.
  induction fuel as [|fuel IH]; intros fuel' q acc Hq Hq'.
  - rewrite (fsize_zero q Hq). now destruct fuel'.
  - destruct q as [|n rest]; [now destruct fuel'|].
    destruct fuel' as [|fuel'].
    { apply fsize_zero in Hq'. discriminate. }
    destruct n as [m c i [l|] [r|]]; simpl;
      apply IH; try rewrite fsize_app; unfold fsize in *; simpl in *; lia.
Qed.

Lemma get_leaves_perm (root : node) :
  Permutation (get_leaves root) (leaves_dfs root).
Proof.
  unfold get_leaves.
  rewrite (leaves_loop_perm (size root) [root] []).
  - simpl. now rewrite app_nil_r.
  - unfold fsize; simpl; lia.
Qed.

(** [get_next_classid]: the loop returns the greatest id met, and it meets
    every node. *)
Lemma next_classid_loop_spec (fuel : nat) :
  forall (q : list node) (m : Z),
    (fsize q <= fuel)%nat ->
    m <= next_classid_loop fuel q m
    /\ (forall x, In x (flat_map ids q) -> x <= next_classid_loop fuel q m)
    /\ (next_classid_loop fuel q m = m
        \/ In (next_classid_loop fuel q m) (flat_map ids q)).
Proof.
  induction fuel as [|fuel IH]; intros q m Hq.
  - rewrite (fsize_zero q Hq). simpl. intuition lia.
  - destruct q as [|n rest].
    { simpl. intuition lia. }
    destruct n as [mu c i l r].
    cbn [next_classid_loop classid left right].
    set (m' := if i >? m then i else m).
    set (q' := match r with
               | Some b => (match l with Some a => rest ++ [a] | None => rest end) ++ [b]
               | None => match l with Some a => rest ++ [a] | None => rest end
               end).
    assert (Hm' : m <= m' /\ i <= m' /\ (m' = m \/ m' = i)).
    { unfold m'. destruct (Z.gtb_spec i m); lia. }
    assert (Hids : forall x, In x (flat_map ids (mk_node mu c i l r :: rest))
                             <-> x = i \/ In x (flat_map ids q')).
    { intro x. unfold q'. simpl.
      destruct l as [a|], r as [b|];
        repeat (rewrite ?flat_map_app, ?in_app_iff; simpl);
        rewrite ?app_nil_r; intuition auto. }
    assert (Hq' : (fsize q' <= fuel)%nat).
    { unfold q'. destruct l as [a|], r as [b|];
        rewrite ?fsize_app; unfold fsize in *; simpl in *; lia. }
    destruct (IH q' m' Hq') as (H1 & H2 & H3).
    split; [lia|]. split.
    + intros x Hx. apply Hids in Hx. destruct Hx as [->|Hx]; [lia|auto].
    + destruct H3 as [H3|H3].
      * rewrite H3. destruct Hm' as (_ & _ & [->| ->]); [now left|].
        right. apply Hids. now left.
      * right. apply Hids. now right.
Qed.

Lemma get_next_classid_spec (root : node) :
  0 <= get_next_classid root - 1
  /\ (forall x, In x (ids root) -> x <= get_next_classid root - 1)
  /\ (get_next_classid root - 1 = 0 \/ In (get_next_classid root - 1) (ids root)).
Proof.
  unfold get_next_classid.
  destruct (next_classid_loop_spec (size root) [root] 0) as (H1 & H2 & H3).
  { unfold fsize; simpl; lia. }
  simpl in H2, H3. rewrite app_nil_r in H2, H3.
  replace (next_classid_loop (size root) [root] 0 + 1 - 1)
    with (next_classid_loop (size root) [root] 0) by lia.
  auto.
Qed.

Lemma next_classid_loop_fuel (fuel : nat) :
  forall (fuel' : nat) (q : list node) (m : Z),
    (fsize q <= fuel)%nat -> (fsize q <= fuel')%nat ->
    next_classid_loop fuel q m = next_classid_loop fuel' q m.
Proof.
  induction fuel as [|fuel IH]; intros fuel' q m Hq Hq'.
  - rewrite (fsize_zero q Hq). now destruct fuel'.
  - destruct q as [|n rest]; [now destruct fuel'|].
    destruct fuel' as [|fuel'].
    { apply fsize_zero in Hq'. discriminate. }
    destruct n as [mu c i [a|] [b|]]; cbn [next_classid_loop classid left right];
      apply IH; rewrite ?fsize_app; unfold fsize in *; simpl in *; lia.
Qed.

(** The value of [get_next_classid] when the greatest id is known. *)
Lemma get_next_classid_max (root : node) (M : Z) :
  0 <= M -> In M (ids root) -> (forall x, In x (ids root) -> x <= M) ->
  get_next_classid root = M + 1.
Proof.
  intros HM Hin Hle.
  destruct (get_next_classid_spec root) as (H1 & H2 & H3).
  specialize (H2 M Hin).
  destruct H3 as [H3|H3]; [lia|]. specialize (Hle _ H3). lia.
Qed.

(** *** The leaves as pointers *)

Lemma leaf_ptrs_loop_acc (fuel : nat) :
  forall q acc : list (path * node),
    leaf_ptrs_loop fuel q acc = acc ++ leaf_ptrs_loop fuel q [].
Proof.
  induction fuel as [|fuel IH]; intros q acc.
  - simpl. now rewrite app_nil_r.
  - destruct q as [|[p n] rest]; simpl; [now rewrite app_nil_r|].
    destruct (left n), (right n); auto;
      rewrite IH, (IH rest [(p, n)]); now rewrite app_assoc.
Qed.

Lemma leaf_ptrs_loop_snd (fuel : nat) :
  forall q acc : list (path * node),
    map snd (leaf_ptrs_loop fuel q acc)
    = leaves_loop fuel (map snd q) (map snd acc).
Proof.
  induction fuel as [|fuel IH]; intros q acc; [reflexivity|].
  destruct q as [|[p n] rest]; simpl; [reflexivity|].
  destruct (left n), (right n); rewrite IH, map_app; reflexivity.
Qed.

Lemma leaf_ptrs_snd (root : node) :
  map snd (leaf_ptrs root) = get_leaves root.
Proof. apply leaf_ptrs_loop_snd. Qed.

Lemma leaf_ptrs_loop_valid (root : node) (fuel : nat) :
  forall q acc : list (path * node),
    Forall (valid_ptr root) q -> Forall (valid_ptr root) acc ->
    Forall (valid_ptr root) (leaf_ptrs_loop fuel q acc).
Proof.
  induction fuel as [|fuel IH]; intros q acc Hq Hacc; [assumption|].
  destruct q as [|[p n] rest]; simpl; [assumption|].
  inversion Hq as [|? ? Hpn Hrest]; subst. unfold valid_ptr in Hpn; simpl in Hpn.
  destruct (left n) as [l|] eqn:El, (right n) as [r|] eqn:Er;
    try (apply IH; [assumption|apply Forall_app; split; auto]).
  apply IH; [|assumption].
  apply Forall_app; split; [assumption|].
  repeat constructor; unfold valid_ptr; simpl;
    rewrite lookup_app, Hpn; simpl; now rewrite ?El, ?Er.
Qed.

Lemma leaf_ptrs_valid (root : node) : Forall (valid_ptr root) (leaf_ptrs root).
Proof.
  apply leaf_ptrs_loop_valid; repeat constructor.
Qed.

Lemma leaf_ptrs_is_leaf (root : node) :
  Forall (fun pn => is_leaf (snd pn) = true) (leaf_ptrs root).
Proof.
  apply Forall_forall. intros [p n] Hin.
  apply (in_map snd) in Hin. rewrite leaf_ptrs_snd in Hin. simpl in Hin.
  apply (Permutation_in _ (get_leaves_perm root)) in Hin.
  eapply leaves_dfs_is_leaf; eauto.
Qed.

End Traversals.

(** ** The search for the leaf to split *)

Section Search.
Context {R : Type} {SR : Scalar R}.
Variable eigen : mat33 R -> vec3 R * mat33 R.
#[local] Abbreviation node := (t_color_node R).

(** *** [get_max_eigenvalue_node] as a fold over the leaves *)

Lemma max_eigen_loop_fold (fuel : nat) :
  forall (q : list (path * node)) (max_eigen : R) (ret : path * node)
         (calls : nat),
    max_eigen_loop eigen fuel q max_eigen ret calls
    = (let st := fold_left (pick_step eigen) (leaf_ptrs_loop fuel q [])
                           (max_eigen, ret, calls) in
       (snd (fst st), snd st)).
Proof.
  induction fuel as [|fuel IH]; intros q mx ret calls; [reflexivity|].
  destruct q as [|[p n] rest]; [reflexivity|].
  cbn [max_eigen_loop leaf_ptrs_loop].
  destruct (left n) as [l|], (right n) as [r|]; try apply IH;
    rewrite leaf_ptrs_loop_acc; cbn [app fold_left pick_step snd];
    unfold top_eigenvalue; destruct (eigen (covariance n)) as [ev evec];
    cbn [fst]; destruct (r_gtb (x0 ev) mx); apply IH.
Qed.

Lemma max_eigen_loop_fuel (fuel : nat) :
  forall (fuel' : nat) (q : list (path * node)) (max_eigen : R)
         (ret : path * node) (calls : nat),
    (fsize (map snd q) <= fuel)%nat -> (fsize (map snd q) <= fuel')%nat ->
    max_eigen_loop eigen fuel q max_eigen ret calls
    = max_eigen_loop eigen fuel' q max_eigen ret calls.
Proof.
  induction fuel as [|fuel IH]; intros fuel' q mx ret calls Hq Hq'.
  - destruct q; [now destruct fuel'|].
    apply fsize_zero in Hq. discriminate.
  - destruct q as [|[p n] rest]; [now destruct fuel'|].
    destruct fuel' as [|fuel'].
    { apply fsize_zero in Hq'. discriminate. }
    cbn [max_eigen_loop].
    destruct n as [mu c i [a|] [b|]]; cbn [left right covariance];
      try destruct (eigen c) as [ev evec];
      try destruct (r_gtb (x0 ev) mx);
      apply IH; rewrite ?map_app, ?fsize_app; unfold fsize in *; simpl in *; lia.
Qed.

#[local] Abbreviation top := (top_eigenvalue eigen).

Lemma fold_pick_calls (l : list (path * node)) :
  forall st, snd (fold_left (pick_step eigen) l st) = (snd st + length l)%nat.
Proof.
  induction l as [|x l IH]; intros [[mx ret] calls]; simpl; [lia|].
  rewrite IH. destruct (r_gtb (top (snd x)) mx); simpl; lia.
Qed.

(** Either no leaf beats the initial bound and the initial pointer comes
    back, or the pointer returned is one of the leaves. *)
Lemma fold_pick_cases (l : list (path * node)) :
  forall (mx : R) (ret : path * node) (calls : nat),
    let st := fold_left (pick_step eigen) l (mx, ret, calls) in
    (snd (fst st) = ret /\ fst (fst st) = mx
     /\ Forall (fun pn => r_gtb (top (snd pn)) mx = false) l)
    \/ (In (snd (fst st)) l
        /\ fst (fst st) = top (snd (snd (fst st)))
        /\ Exists (fun pn => r_gtb (top (snd pn)) mx = true) l).
Proof.
  induction l as [|x l IH]; intros mx ret calls; simpl.
  - left. repeat split; constructor.
  - destruct (r_gtb (top (snd x)) mx) eqn:Hx.
    + right.
      destruct (IH (top (snd x)) x (S calls)) as [(H1 & H2 & H3)|(H1 & H2 & H3)].
      * rewrite H1, H2. repeat split; auto.
      * repeat split; auto.
    + destruct (IH mx ret (S calls)) as [(H1 & H2 & H3)|(H1 & H2 & H3)].
      * left. repeat split; auto.
      * right. repeat split; auto.
Qed.

Section Order.
(** What the search needs of [>]: a strict order (as [>] on doubles is,
    NaN included). *)
Hypothesis gtb_irrefl : forall a : R, r_gtb a a = false.
Hypothesis gtb_trans :
  forall a b c : R, r_gtb a b = true -> r_gtb b c = true -> r_gtb a c = true.

Lemma fold_pick_max (l : list (path * node)) :
  forall (mx : R) (ret : path * node) (calls : nat),
    let st := fold_left (pick_step eigen) l (mx, ret, calls) in
    (fst (fst st) = mx \/ r_gtb (fst (fst st)) mx = true)
    /\ Forall (fun pn => r_gtb (top (snd pn)) (fst (fst st)) = false) l.
Proof.
  induction l as [|x l IH]; intros mx ret calls; simpl.
  - split; [now left|constructor].
  - destruct (r_gtb (top (snd x)) mx) eqn:Hx.
    + destruct (IH (top (snd x)) x (S calls)) as [[H1|H1] H2].
      * split; [right; now rewrite H1|].
        constructor; [rewrite H1; apply gtb_irrefl|assumption].
      * split; [right; eapply gtb_trans; eauto|].
        constructor; [|assumption].
        apply not_true_is_false. intro E.
        pose proof (gtb_trans _ _ _ E H1) as F.
        rewrite gtb_irrefl in F. discriminate.
    + destruct (IH mx ret (S calls)) as [[H1|H1] H2].
      * split; [now left|]. constructor; [now rewrite H1|assumption].
      * split; [now right|]. constructor; [|assumption].
        apply not_true_is_false. intro E.
        pose proof (gtb_trans _ _ _ E H1) as F.
        rewrite Hx in F. discriminate.
Qed.
End Order.

(** *** [get_max_eigenvalue_node] *)

Lemma search_no_children (root : node) :
  left root = None -> right root = None ->
  max_eigenvalue_search eigen root = (([], root), O).
Proof. unfold max_eigenvalue_search. now intros -> ->. Qed.

Lemma search_children (root : node) :
  left root <> None \/ right root <> None ->
  max_eigenvalue_search eigen root
  = (let st := fold_left (pick_step eigen) (leaf_ptrs root)
                         (r_minus_one, ([], root), O) in
     (snd (fst st), snd st)).
Proof.
  intro H. unfold max_eigenvalue_search, leaf_ptrs.
  destruct (left root), (right root); try apply max_eigen_loop_fold.
  destruct H; congruence.
Qed.

(** The pointer returned is the root or one of the leaves. *)
Lemma get_max_eigenvalue_node_cases (root : node) :
  get_max_eigenvalue_node eigen root = ([], root)
  \/ In (get_max_eigenvalue_node eigen root) (leaf_ptrs root).
Proof.
  unfold get_max_eigenvalue_node.
  destruct (left root) as [l|] eqn:El.
  2: destruct (right root) as [r|] eqn:Er.
  3: { rewrite search_no_children by assumption. now left. }
  all: rewrite search_children
      by (first [left; rewrite El; discriminate|right; rewrite Er; discriminate]);
    cbn [fst];
    destruct (fold_pick_cases (leaf_ptrs root) r_minus_one ([], root) O)
      as [(H & _)|(H & _)]; auto.
Qed.

(** The pointer returned always points into the tree. *)
Lemma get_max_eigenvalue_node_valid (root : node) :
  valid_ptr root (get_max_eigenvalue_node eigen root).
Proof.
  destruct (get_max_eigenvalue_node_cases root) as [-> |H]; [reflexivity|].
  exact (proj1 (Forall_forall _ _) (leaf_ptrs_valid root) _ H).
Qed.

(** The search on any tree.  A root without children is returned at once,
    no eigen-decomposition being made.  Otherwise every leaf is
    decomposed once; when the top eigenvalue of some leaf exceeds -1 the
    node returned is a leaf whose top eigenvalue no leaf exceeds, and
    when none does the root itself comes back. *)
Theorem get_max_eigenvalue_node_spec (root : node) :
  (forall a : R, r_gtb a a = false) ->
  (forall a b c : R, r_gtb a b = true -> r_gtb b c = true -> r_gtb a c = true) ->
  (left root = None -> right root = None ->
   max_eigenvalue_search eigen root = (([], root), O))
  /\ (left root <> None \/ right root <> None ->
      snd (max_eigenvalue_search eigen root) = length (get_leaves root)
      /\ (Exists (fun leaf => r_gtb (top leaf) r_minus_one = true) (get_leaves root) ->
          In (snd (get_max_eigenvalue_node eigen root)) (get_leaves root)
          /\ valid_ptr root (get_max_eigenvalue_node eigen root)
          /\ Forall (fun leaf =>
                       r_gtb (top leaf)
                             (top (snd (get_max_eigenvalue_node eigen root)))
                       = false)
                    (get_leaves root))
      /\ (Forall (fun leaf => r_gtb (top leaf) r_minus_one = false) (get_leaves root) ->
          get_max_eigenvalue_node eigen root = ([], root))).
Proof.
  intros Hirr Htrans. split; [apply search_no_children|].
  intro Hch. unfold get_max_eigenvalue_node.
  rewrite (search_children root Hch). cbn [fst snd].
  pose proof (fold_pick_cases (leaf_ptrs root) r_minus_one ([], root) O) as Hc.
  pose proof (fold_pick_max Hirr Htrans (leaf_ptrs root) r_minus_one ([], root) O)
    as [_ Hmax].
  pose proof (fold_pick_calls (leaf_ptrs root) (r_minus_one, ([], root), O)) as Hn.
  cbv zeta in Hc, Hmax.
  split; [|split].
  - rewrite Hn. cbn [snd]. now rewrite <- leaf_ptrs_snd, length_map.
  - intro Hex.
    destruct Hc as [(_ & _ & Hall)|(Hin & Htop & _)].
    + exfalso. rewrite <- leaf_ptrs_snd in Hex.
      apply Exists_exists in Hex. destruct Hex as (x & Hx & Hgt).
      apply in_map_iff in Hx. destruct Hx as (pn & <- & Hpn).
      rewrite (proj1 (Forall_forall _ _) Hall pn Hpn) in Hgt. discriminate.
    + split; [rewrite <- leaf_ptrs_snd; now apply in_map|].
      split; [exact (proj1 (Forall_forall _ _) (leaf_ptrs_valid root) _ Hin)|].
      rewrite <- leaf_ptrs_snd, Forall_map, <- Htop. exact Hmax.
  - intro Hall.
    destruct Hc as [(Hret & _)|(_ & _ & Hex)]; [assumption|].
    exfalso. apply Exists_exists in Hex. destruct Hex as (pn & Hpn & Hgt).
    rewrite <- leaf_ptrs_snd, Forall_map in Hall.
    rewrite (proj1 (Forall_forall _ _) Hall pn Hpn) in Hgt. discriminate.
Qed.

(** The node returned is a leaf as soon as the top eigenvalue of some leaf
    exceeds -1. *)
Lemma get_max_eigenvalue_node_is_leaf (root : node) :
  Exists (fun leaf => r_gtb (top leaf) r_minus_one = true) (get_leaves root) ->
  is_leaf (snd (get_max_eigenvalue_node eigen root)) = true.
Proof.
  intro Hex. unfold get_max_eigenvalue_node.
  destruct (left root) as [l|] eqn:El.
  2: destruct (right root) as [r|] eqn:Er.
  3: { rewrite search_no_children by assumption. cbn [fst snd].
       unfold is_leaf. now rewrite El. }
  all: rewrite search_children
      by (first [left; rewrite El; discriminate|right; rewrite Er; discriminate]);
    cbn [fst];
    destruct (fold_pick_cases (leaf_ptrs root) r_minus_one ([], root) O)
      as [(_ & _ & Hall)|(Hin & _)];
    [exfalso; rewrite <- leaf_ptrs_snd in Hex;
     apply Exists_exists in Hex; destruct Hex as (x & Hx & Hgt);
     apply in_map_iff in Hx; destruct Hx as (pn & <- & Hpn);
     rewrite (proj1 (Forall_forall _ _) Hall pn Hpn) in Hgt; discriminate
    |exact (proj1 (Forall_forall _ _) (leaf_ptrs_is_leaf root) _ Hin)].
Qed.
End Search.

(** ** The estimator *)

Section Estimator.
Context {R : Type} {SR : Scalar R}.
#[local] Abbreviation node := (t_color_node R).

Lemma mean_cov_fold (id : Z) (l : list (Vec3b * Z)) :
  forall (m : vec3 R) (c : mat33 R) (k : R),
    let px := map (fun p => scaled_color (fst p))
                  (filter (fun p => snd p =? id) l) in
    fold_left (mean_cov_step id) l (m, c, k)
    = (fold_left vadd px m,
       fold_left (fun acc x => madd acc (outer x x)) px c,
       fold_left (fun acc _ => r_add acc r_one) px k).
Proof.
  induction l as [|[color cl] l IH]; intros m c k; simpl; [reflexivity|].
  destruct (cl =? id); simpl; apply IH.
Qed.

(** What the estimator returns, with the sums named. *)
Lemma get_class_mean_cov_eq (img : list Vec3b) (classes : list Z) (n : node) :
  let px := class_pixels img classes (classid n) in
  get_class_mean_cov img classes n
  = mk_node (vdiv (vsum px) (pixel_count px))
            (msub (outer_sum px)
                  (mdiv (outer (vsum px) (vsum px)) (pixel_count px)))
            (classid n) (left n) (right n).
Proof.
  unfold get_class_mean_cov, class_pixels, vsum, outer_sum, pixel_count.
  now rewrite mean_cov_fold.
Qed.

Lemma get_class_mean_cov_fields (img : list Vec3b) (classes : list Z) (n : node) :
  classid (get_class_mean_cov img classes n) = classid n
  /\ left (get_class_mean_cov img classes n) = left n
  /\ right (get_class_mean_cov img classes n) = right n.
Proof. now rewrite get_class_mean_cov_eq. Qed.

(** In the initial buffer every pixel belongs to class 1. *)
Lemma class_pixels_initial (img : list Vec3b) :
  class_pixels (R := R) img (map (fun _ => 1) img) 1 = map scaled_color img.
Proof.
  unfold class_pixels. induction img as [|c img IH]; simpl; [reflexivity|].
  now rewrite IH.
Qed.
(** The sums of the estimator, channel by channel. *)
Lemma channel_totals (l : list Vec3b) :
  forall v : vec3 R,
    fold_left vadd (map scaled_color l) v
    = mk_vec3
        (fold_left (fun acc c => r_add acc (r_div (r_of_uchar (c0 c)) r_255)) l (x0 v))
        (fold_left (fun acc c => r_add acc (r_div (r_of_uchar (c1 c)) r_255)) l (x1 v))
        (fold_left (fun acc c => r_add acc (r_div (r_of_uchar (c2 c)) r_255)) l (x2 v)).
Proof.
  induction l as [|c l IH]; intro v; cbn [map fold_left]; [now destruct v|].
  rewrite IH. reflexivity.
Qed.

Lemma counted_map (f : Vec3b -> vec3 R) (l : list Vec3b) :
  forall a : R,
    fold_left (fun acc _ => r_add acc r_one) (map f l) a
    = fold_left (fun acc _ => r_add acc r_one) l a.
Proof.
  induction l as [|c l IH]; intro a; cbn [map fold_left]; [reflexivity|apply IH].
Qed.

(** The colour made of the mean of a list of pixels is their mean colour
    as the specification words it. *)
Lemma mean_colour_eq (px : list Vec3b) :
  to_Vec3b (vdiv (vsum (map scaled_color px)) (pixel_count (map scaled_color px)))
  = mean_colour px.
Proof.
  unfold vsum, pixel_count. rewrite channel_totals, counted_map. reflexivity.
Qed.

Lemma class_pixels_members (img : list Vec3b) (classes : list Z) (id : Z) :
  class_pixels (R := R) img classes id
  = map scaled_color (class_members img classes id).
Proof. unfold class_pixels, class_members. now rewrite map_map. Qed.

(** C1, as the code has it: the mean stored is [sum / pixelCount] over
    exactly the pixels of the node's class, and the covariance stored is
    [sumOuterProduct - (sum * sum^t) / pixelCount]: the sum, not the mean,
    enters the outer product, and that product alone is divided by the
    pixel count.  The node is otherwise left as it was. *)
Theorem get_class_mean_cov_spec (img : list Vec3b) (classes : list Z) (n : node) :
  mean (get_class_mean_cov img classes n)
  = vdiv (vsum (class_pixels img classes (classid n)))
         (pixel_count (class_pixels img classes (classid n)))
  /\ covariance (get_class_mean_cov img classes n)
     = msub (outer_sum (class_pixels img classes (classid n)))
            (mdiv (outer (vsum (class_pixels img classes (classid n)))
                         (vsum (class_pixels img classes (classid n))))
                  (pixel_count (class_pixels img classes (classid n))))
  /\ classid (get_class_mean_cov img classes n) = classid n
  /\ left (get_class_mean_cov img classes n) = left n
  /\ right (get_class_mean_cov img classes n) = right n.
Proof.
  rewrite get_class_mean_cov_eq. repeat split.
Qed.
End Estimator.

(** ** The splitter *)

Section Splitter.
Context {R : Type} {SR : Scalar R}.
Variable eigen : mat33 R -> vec3 R * mat33 R.
#[local] Abbreviation node := (t_color_node R).

Section Relabel.
Variables (eig : vec3 R) (thr : R) (cid a b : Z).
#[local] Abbreviation relabel' := (relabel eig thr cid a b).

#[local] Abbreviation side := (side eig thr a b).

Lemma relabel_length (img : list Vec3b) :
  forall classes, length (relabel' img classes) = length classes.
Proof.
  induction img as [|color img IH]; intros [|c classes]; simpl; auto.
Qed.

Lemma relabel_nth_other (img : list Vec3b) :
  forall classes i c,
    nth_error classes i = Some c -> c <> cid ->
    nth_error (relabel' img classes) i = Some c.
Proof.
  induction img as [|color img IH]; intros [|c' classes] [|i] c H Hc;
    simpl in *; try discriminate; auto.
  inversion H; subst. destruct (Z.eqb_spec c cid); [contradiction|reflexivity].
Qed.

Lemma relabel_nth_class (img : list Vec3b) :
  forall classes i color,
    nth_error img i = Some color -> nth_error classes i = Some cid ->
    nth_error (relabel' img classes) i = Some (side color).
Proof.
  induction img as [|color' img IH]; intros [|c' classes] [|i] color Hi H;
    simpl in *; try discriminate; auto.
  inversion H; inversion Hi; subst. now rewrite Z.eqb_refl.
Qed.

Lemma relabel_in (img : list Vec3b) :
  forall classes x,
    In x (relabel' img classes) -> (In x classes /\ x <> cid) \/ x = a \/ x = b
                                   \/ (In x classes /\ (length img < length classes)%nat).
Proof.
  induction img as [|color img IH]; intros [|c classes] x Hx; simpl in *;
    try contradiction.
  - right; right; right. split; [assumption|lia].
  - destruct Hx as [Hx|Hx].
    + destruct (Z.eqb_spec c cid); simpl in Hx.
      * unfold side in *. destruct (r_leb _ _); auto.
      * left. subst. auto.
    + destruct (IH _ _ Hx) as [[H1 H2]|[H|[H|[H1 H2]]]]; auto.
      right; right; right. split; [auto|lia].
Qed.

Lemma relabel_in_other (img : list Vec3b) :
  forall classes x,
    In x classes -> x <> cid -> In x (relabel' img classes).
Proof.
  intros classes x Hx Hc.
  destruct (In_nth_error _ _ Hx) as [i Hi].
  eapply nth_error_In, relabel_nth_other; eauto.
Qed.

(** With ids that differ from the parent's, nothing keeps the parent's. *)
Lemma relabel_not_in (img : list Vec3b) (classes : list Z) :
  (length classes <= length img)%nat -> a <> cid -> b <> cid ->
  ~ In cid (relabel' img classes).
Proof.
  intros Hlen Ha Hb Hin.
  destruct (relabel_in _ _ _ Hin) as [[_ H]|[H|[H|[_ H]]]];
    try congruence; lia.
Qed.

(** With fresh ids, the two children share out the parent's pixels. *)
Lemma relabel_count (img : list Vec3b) :
  forall classes,
    (length classes <= length img)%nat ->
    a <> b -> a <> cid -> b <> cid -> ~ In a classes -> ~ In b classes ->
    (count_occ Z.eq_dec (relabel' img classes) a
     + count_occ Z.eq_dec (relabel' img classes) b
     = count_occ Z.eq_dec classes cid)%nat.
Proof.
  induction img as [|color img IH]; intros [|c classes] Hlen Hab Ha Hb Hna Hnb;
    simpl in *; try lia.
  assert (IH' := IH classes ltac:(lia) Hab Ha Hb
                    ltac:(tauto) ltac:(tauto)).
  destruct (Z.eqb_spec c cid) as [->|Hc]; simpl.
  - unfold side. destruct (r_leb _ _);
      repeat destruct (Z.eq_dec _ _); try congruence; lia.
  - repeat destruct (Z.eq_dec _ _); try congruence; try lia;
      subst; tauto.
Qed.
End Relabel.

(** What [partition_class] returns, with the eigenvector and the threshold
    named. *)
#[local] Abbreviation axis := (axis eigen).
#[local] Abbreviation threshold := (threshold eigen).

Lemma partition_class_eq (img : list Vec3b) (classes : list Z) (nextid : Z)
      (n : node) :
  partition_class eigen img classes nextid n
  = (relabel (axis n) (threshold n) (classid n) nextid
             (uchar_cast (nextid + 1)) img classes,
     mk_node (mean n) (covariance n) (classid n)
             (Some (new_node nextid))
             (Some (new_node (uchar_cast (nextid + 1))))).
Proof.
  unfold partition_class, threshold, axis.
  now destruct (eigen (covariance n)).
Qed.

(** The pixels of a class that is neither split nor created stay its
    pixels. *)
Lemma class_pixels_relabel (eig : vec3 R) (thr : R) (cid a b y : Z)
      (img : list Vec3b) :
  forall classes,
    y <> cid -> y <> a -> y <> b ->
    class_pixels (R := R) img (relabel eig thr cid a b img classes) y
    = class_pixels img classes y.
Proof.
  unfold class_pixels.
  induction img as [|color img IH]; intros [|c classes] Hc Ha Hb;
    try reflexivity.
  cbn [relabel combine filter snd fst].
  destruct (Z.eqb_spec c cid) as [->|Hne]; cbn [negb].
  - destruct (Z.eqb_spec cid y); [congruence|].
    destruct (r_leb _ _);
      [destruct (Z.eqb_spec a y)|destruct (Z.eqb_spec b y)];
      try congruence; now apply IH.
  - destruct (c =? y); cbn [map]; now rewrite IH.
Qed.
End Splitter.

(** ** The driver *)

Section Driver.
Context {R : Type} {SR : Scalar R}.
Variable eigen : mat33 R -> vec3 R * mat33 R.
#[local] Abbreviation node := (t_color_node R).
#[local] Abbreviation pick := (get_max_eigenvalue_node eigen).
#[local] Abbreviation estimate := (@get_class_mean_cov R SR).

(** One round of the loop, with its three writes into the tree put
    together. *)
Lemma split_step_eq (s : state) :
  let n := snd (pick (st_root s)) in
  let a := uchar_cast (get_next_classid (st_root s)) in
  let b := uchar_cast (a + 1) in
  let classes' := relabel (axis eigen n) (threshold eigen n) (classid n) a b
                          (st_img s) (st_classes s) in
  split_step eigen s
  = mk_state (st_img s) classes'
      (update_at (st_root s) (fst (pick (st_root s)))
         (fun _ => mk_node (mean n) (covariance n) (classid n)
                     (Some (estimate (st_img s) classes' (new_node a)))
                     (Some (estimate (st_img s) classes' (new_node b))))).
Proof.
  unfold split_step. destruct (pick (st_root s)) as [p n].
  rewrite partition_class_eq. cbn [fst snd]. now rewrite !update_at_below.
Qed.

Lemma split_step_img (s : state) : st_img (split_step eigen s) = st_img s.
Proof. now rewrite split_step_eq. Qed.

Lemma split_step_length (s : state) :
  length (st_classes (split_step eigen s)) = length (st_classes s).
Proof. rewrite split_step_eq. apply relabel_length. Qed.

Lemma steps_img (k : nat) :
  forall s, st_img (steps eigen k s) = st_img s.
Proof.
  induction k as [|k IH]; intro s; simpl; [reflexivity|].
  now rewrite IH, split_step_img.
Qed.

Lemma steps_length (k : nat) :
  forall s, length (st_classes (steps eigen k s)) = length (st_classes s).
Proof.
  induction k as [|k IH]; intro s; simpl; [reflexivity|].
  now rewrite IH, split_step_length.
Qed.

Lemma steps_succ (k : nat) :
  forall s, steps eigen (S k) s = split_step eigen (steps eigen k s).
Proof. induction k as [|k IH]; intro s; [reflexivity|]. simpl in *. apply IH. Qed.

Lemma picks_leaves_succ (k : nat) :
  forall s, picks_leaves eigen (S k) s
            = picks_leaves eigen k s && picks_leaf eigen (steps eigen k s).
Proof.
  induction k as [|k IH]; intro s.
  - simpl. now rewrite andb_true_r.
  - change (picks_leaves eigen (S (S k)) s)
      with (picks_leaf eigen s && picks_leaves eigen (S k) (split_step eigen s)).
    rewrite IH. simpl. now rewrite andb_assoc.
Qed.

(** The loop runs [count - 1] rounds and leaves on its condition. *)
Lemma split_loop_steps (fuel : nat) :
  forall (i count : Z) (s : state),
    i + Z.of_nat fuel <= count - 1 ->
    split_loop eigen fuel i count s = (i + Z.of_nat fuel, steps eigen fuel s).
Proof.
  induction fuel as [|fuel IH]; intros i count s H.
  - simpl. f_equal. lia.
  - cbn [split_loop steps].
    destruct (Z.ltb_spec i (count - 1)); [|lia].
    rewrite IH by lia. f_equal. lia.
Qed.

Lemma run_steps (img : list Vec3b) (count : Z) :
  run eigen img count
  = (Z.max 0 (count - 1), steps eigen (Z.to_nat (count - 1)) (initial_state img)).
Proof.
  unfold run. destruct (Z.le_gt_cases 1 count).
  - rewrite split_loop_steps by lia. f_equal. lia.
  - replace (Z.to_nat (count - 1)) with O by lia. simpl. f_equal. lia.
Qed.

(** The loop is left on its condition, not for want of fuel: any fuel
    that covers the rounds still to make gives the same result. *)
Lemma split_loop_exit (fuel : nat) :
  forall (i count : Z) (s : state),
    count - 1 - i <= Z.of_nat fuel ->
    split_loop eigen fuel i count s
    = (Z.max i (count - 1), steps eigen (Z.to_nat (count - 1 - i)) s).
Proof.
  induction fuel as [|fuel IH]; intros i count s H.
  - cbn [split_loop]. replace (Z.to_nat (count - 1 - i)) with O by lia.
    cbn [steps]. f_equal. lia.
  - cbn [split_loop]. destruct (Z.ltb_spec i (count - 1)).
    + rewrite IH by lia.
      replace (Z.to_nat (count - 1 - i)) with (S (Z.to_nat (count - 1 - (i + 1))))
        by lia.
      cbn [steps]. f_equal. lia.
    + replace (Z.to_nat (count - 1 - i)) with O by lia.
      cbn [steps]. f_equal. lia.
Qed.

(** *** The shape of the tree *)

Lemma wf_estimate_new (img : list Vec3b) (classes : list Z) (id : Z) :
  wf (estimate img classes (new_node id)).
Proof. rewrite get_class_mean_cov_eq. exact I. Qed.

Lemma is_leaf_estimate_new (img : list Vec3b) (classes : list Z) (id : Z) :
  is_leaf (estimate img classes (new_node id)) = true.
Proof. now rewrite get_class_mean_cov_eq. Qed.

Lemma wf_initial (img : list Vec3b) : wf (st_root (initial_state img)).
Proof. apply wf_estimate_new. Qed.

Lemma wf_split_step (s : state) :
  wf (st_root s) -> wf (st_root (split_step eigen s)).
Proof.
  intro H. rewrite split_step_eq. cbn [st_root].
  eapply wf_update_at; [assumption|apply get_max_eigenvalue_node_valid|].
  split; apply wf_estimate_new.
Qed.

Lemma wf_steps (k : nat) :
  forall s, wf (st_root s) -> wf (st_root (steps eigen k s)).
Proof.
  induction k as [|k IH]; intros s H; [assumption|].
  simpl. apply IH. now apply wf_split_step.
Qed.

(** A split of a leaf adds one leaf. *)
Lemma leaves_split_step (s : state) :
  wf (st_root s) -> picks_leaf eigen s = true ->
  length (leaves_dfs (st_root (split_step eigen s)))
  = S (length (leaves_dfs (st_root s))).
Proof.
  intros Hwf Hleaf. rewrite split_step_eq. cbn [st_root].
  pose proof (get_max_eigenvalue_node_valid eigen (st_root s)) as Hv.
  match goal with
  | |- context [update_at _ _ ?f] =>
      pose proof (Permutation_length
                    (leaves_update_at (fst (pick (st_root s))) f _ _ Hwf Hv)) as E
  end.
  rewrite !length_app in E.
  rewrite (is_leaf_leaves_dfs _ Hleaf) in E.
  cbn [leaves_dfs] in E. rewrite length_app in E.
  rewrite !(is_leaf_leaves_dfs _ (is_leaf_estimate_new _ _ _)) in E.
  simpl in E. lia.
Qed.

Lemma leaves_steps (k : nat) :
  forall s,
    wf (st_root s) -> picks_leaves eigen k s = true ->
    length (leaves_dfs (st_root (steps eigen k s)))
    = (length (leaves_dfs (st_root s)) + k)%nat.
Proof.
  induction k as [|k IH]; intros s Hwf Hp; simpl in *; [lia|].
  apply andb_prop in Hp. destruct Hp as [Hp1 Hp2].
  rewrite IH by (auto using wf_split_step).
  rewrite leaves_split_step by assumption. lia.
Qed.

(** The leaves after a run that always splits a leaf. *)
Lemma leaves_run (img : list Vec3b) (count : Z) :
  1 <= count ->
  picks_leaves eigen (Z.to_nat (count - 1)) (initial_state img) = true ->
  length (get_leaves (st_root (snd (run eigen img count)))) = Z.to_nat count.
Proof.
  intros Hc Hp. rewrite run_steps. cbn [snd].
  rewrite (Permutation_length (get_leaves_perm _)).
  rewrite leaves_steps by (auto using wf_initial).
  unfold initial_state. cbn [st_root].
  rewrite (is_leaf_leaves_dfs _ (is_leaf_estimate_new _ _ _)).
  simpl. lia.
Qed.

(** *** The buffer and the leaves *)

Lemma initial_length (img : list Vec3b) :
  length (st_classes (initial_state (R := R) img)) = length (st_img (initial_state (R := R) img)).
Proof. unfold initial_state. cbn. apply length_map. Qed.

Lemma buffer_in_leaves_step (s : state) :
  wf (st_root s) -> picks_leaf eigen s = true ->
  length (st_classes s) = length (st_img s) ->
  buffer_in_leaves s -> buffer_in_leaves (split_step eigen s).
Proof.
  intros Hwf Hleaf Hlen Hinv c Hc.
  pose proof (get_max_eigenvalue_node_valid eigen (st_root s)) as Hv.
  rewrite split_step_eq in Hc |- *. cbn [st_classes st_root] in *.
  set (n := snd (pick (st_root s))) in *.
  assert (Hnew : forall x id,
             x = estimate (st_img s)
                   (relabel (axis eigen n) (threshold eigen n) (classid n)
                      (uchar_cast (get_next_classid (st_root s)))
                      (uchar_cast (uchar_cast (get_next_classid (st_root s)) + 1))
                      (st_img s) (st_classes s)) (new_node id) ->
             is_leaf x = true /\ classid x = id).
  { intros x id ->. now rewrite get_class_mean_cov_eq. }
  apply relabel_in in Hc.
  destruct Hc as [[Hc Hne]|[Hc|[Hc|[_ Hc]]]]; [| | |lia].
  - destruct (Hinv c Hc) as (leaf & Hin & Hid).
    exists leaf. split; [|assumption].
    eapply leaves_update_at_old; eauto.
    rewrite (is_leaf_leaves_dfs _ Hleaf). intros [E|[]].
    apply Hne. rewrite <- Hid, <- E. reflexivity.
  - eexists. split.
    + eapply leaves_update_at_new; eauto.
      cbn [leaves_dfs]. apply in_app_iff. left.
      rewrite is_leaf_leaves_dfs by (eapply Hnew; reflexivity). now left.
    + rewrite Hc. eapply Hnew; reflexivity.
  - eexists. split.
    + eapply leaves_update_at_new; eauto.
      cbn [leaves_dfs]. apply in_app_iff. right.
      rewrite is_leaf_leaves_dfs by (eapply Hnew; reflexivity). now left.
    + rewrite Hc. eapply Hnew; reflexivity.
Qed.

Lemma buffer_in_leaves_initial (img : list Vec3b) :
  buffer_in_leaves (initial_state (R := R) img).
Proof.
  intros c Hc. unfold initial_state in *. cbn [st_classes st_root] in *.
  apply in_map_iff in Hc. destruct Hc as (_ & <- & _).
  eexists. split.
  - rewrite is_leaf_leaves_dfs by apply is_leaf_estimate_new. now left.
  - now rewrite get_class_mean_cov_eq.
Qed.

Lemma buffer_in_leaves_steps (k : nat) :
  forall s,
    wf (st_root s) -> length (st_classes s) = length (st_img s) ->
    picks_leaves eigen k s = true ->
    buffer_in_leaves s -> buffer_in_leaves (steps eigen k s).
Proof.
  induction k as [|k IH]; intros s Hwf Hlen Hp Hinv; [assumption|].
  simpl in *. apply andb_prop in Hp. destruct Hp as [Hp1 Hp2].
  apply IH; auto using wf_split_step, buffer_in_leaves_step.
  now rewrite split_step_length, split_step_img.
Qed.

(** At every point of a run that always splits a leaf, each id present in
    the buffer is the class id of a current leaf. *)
Lemma buffer_ids_of_leaf_splits (img : list Vec3b) (k : nat) (c : Z) :
  picks_leaves eigen k (initial_state img) = true ->
  In c (st_classes (steps eigen k (initial_state img))) ->
  exists leaf,
    In leaf (get_leaves (st_root (steps eigen k (initial_state img))))
    /\ classid leaf = c.
Proof.
  intros Hp Hc.
  destruct (buffer_in_leaves_steps k (initial_state img)
              (wf_initial img) (initial_length img) Hp
              (buffer_in_leaves_initial img) c Hc) as (leaf & Hin & Hid).
  exists leaf. split; [|assumption].
  eapply Permutation_in; [symmetry; apply get_leaves_perm|assumption].
Qed.

(** *** The ids handed out *)

Lemma ids_estimate_new (img : list Vec3b) (classes : list Z) (id : Z) :
  ids (estimate img classes (new_node id)) = [id].
Proof. now rewrite get_class_mean_cov_eq. Qed.

Lemma uchar_cast_small (z : Z) : 0 <= z <= 255 -> uchar_cast z = z.
Proof. intro H. unfold uchar_cast. apply Z.mod_small. lia. Qed.

Lemma picked_classid_in_ids (s : state) :
  In (classid (snd (pick (st_root s)))) (ids (st_root s)).
Proof.
  eapply lookup_ids; [apply get_max_eigenvalue_node_valid|apply classid_in_ids].
Qed.

(** While the greatest id [M] leaves room for two more in a byte, a round
    adds the ids [M + 1] and [M + 2] to the tree. *)
Lemma ids_split_step (s : state) (M : Z) :
  0 <= M -> M + 2 <= 255 ->
  In M (ids (st_root s)) -> (forall x, In x (ids (st_root s)) -> x <= M) ->
  In (M + 2) (ids (st_root (split_step eigen s)))
  /\ (forall x, In x (ids (st_root (split_step eigen s))) -> x <= M + 2).
Proof.
  intros H0 H255 Hin Hle.
  pose proof (get_max_eigenvalue_node_valid eigen (st_root s)) as Hv.
  pose proof (picked_classid_in_ids s) as Hn.
  rewrite split_step_eq. cbn [st_root].
  rewrite (get_next_classid_max _ M H0 Hin Hle).
  rewrite (uchar_cast_small (M + 1)) by lia.
  rewrite (uchar_cast_small (M + 1 + 1)) by lia.
  split.
  - eapply ids_update_at_new; [exact Hv|].
    cbn [ids]. rewrite !ids_estimate_new. simpl. right; right; left. lia.
  - intros x Hx. eapply ids_update_at in Hx; [|exact Hv].
    cbn [ids] in Hx. rewrite !ids_estimate_new in Hx. simpl in Hx.
    destruct Hx as [Hx|[Hx|[Hx|[Hx|[]]]]]; try lia.
    + specialize (Hle _ Hx). lia.
    + rewrite <- Hx. specialize (Hle _ Hn). lia.
Qed.

Lemma ids_steps (img : list Vec3b) (k : nat) :
  (k <= 127)%nat ->
  In (2 * Z.of_nat k + 1) (ids (st_root (steps eigen k (initial_state img))))
  /\ (forall x, In x (ids (st_root (steps eigen k (initial_state img))))
                -> x <= 2 * Z.of_nat k + 1).
Proof.
  induction k as [|k IH]; intro Hk.
  - simpl. unfold initial_state. cbn [st_root]. rewrite ids_estimate_new.
    simpl. split; [now left|]. intros x [<-|[]]. lia.
  - rewrite steps_succ. destruct (IH ltac:(lia)) as [H1 H2].
    replace (2 * Z.of_nat (S k) + 1) with (2 * Z.of_nat k + 1 + 2) by lia.
    apply ids_split_step; auto; lia.
Qed.

(** Through the first 128 rounds the ids come in increasing pairs. *)
Lemma next_classid_steps (img : list Vec3b) (k : nat) :
  (k <= 127)%nat ->
  get_next_classid (st_root (steps eigen k (initial_state img)))
  = 2 * Z.of_nat k + 2.
Proof.
  intro Hk. destruct (ids_steps img k Hk) as [H1 H2].
  rewrite (get_next_classid_max _ (2 * Z.of_nat k + 1)); auto; lia.
Qed.

Lemma root_classid_steps (img : list Vec3b) (k : nat) :
  classid (st_root (steps eigen k (initial_state img))) = 1.
Proof.
  induction k as [|k IH].
  - simpl. unfold initial_state. cbn [st_root]. now rewrite get_class_mean_cov_eq.
  - rewrite steps_succ, split_step_eq. cbn [st_root].
    erewrite classid_update_at;
      [exact IH|apply get_max_eigenvalue_node_valid|reflexivity].
Qed.

(** The children that a round hangs below the node it picked. *)
Lemma split_step_children (s : state) :
  exists l r,
    lookup (st_root (split_step eigen s)) (fst (pick (st_root s)))
    = Some (mk_node (mean (snd (pick (st_root s))))
                    (covariance (snd (pick (st_root s))))
                    (classid (snd (pick (st_root s)))) (Some l) (Some r))
    /\ is_leaf l = true /\ is_leaf r = true
    /\ classid l = uchar_cast (get_next_classid (st_root s))
    /\ classid r = uchar_cast (uchar_cast (get_next_classid (st_root s)) + 1).
Proof.
  pose proof (get_max_eigenvalue_node_valid eigen (st_root s)) as Hv.
  rewrite split_step_eq. cbn [st_root].
  do 2 eexists. split; [|split; [|split; [|split]]].
  - erewrite lookup_update_at; [reflexivity|exact Hv].
  - apply is_leaf_estimate_new.
  - apply is_leaf_estimate_new.
  - now rewrite get_class_mean_cov_eq.
  - now rewrite get_class_mean_cov_eq.
Qed.

(** The buffer holds no id above the greatest id of the tree. *)
Lemma classes_split_step (s : state) (M : Z) :
  0 <= M -> M + 2 <= 255 ->
  In M (ids (st_root s)) -> (forall x, In x (ids (st_root s)) -> x <= M) ->
  (forall c, In c (st_classes s) -> c <= M) ->
  forall c, In c (st_classes (split_step eigen s)) -> c <= M + 2.
Proof.
  intros H0 H255 Hin Hle Hcl c Hc.
  rewrite split_step_eq in Hc. cbn [st_classes] in Hc.
  rewrite (get_next_classid_max _ M H0 Hin Hle) in Hc.
  rewrite (uchar_cast_small (M + 1)) in Hc by lia.
  rewrite (uchar_cast_small (M + 1 + 1)) in Hc by lia.
  apply relabel_in in Hc.
  destruct Hc as [[Hc _]|[Hc|[Hc|[Hc _]]]]; try lia;
    specialize (Hcl _ Hc); lia.
Qed.

Lemma classes_steps (img : list Vec3b) (k : nat) :
  (k <= 127)%nat ->
  forall c, In c (st_classes (steps eigen k (initial_state img)))
            -> c <= 2 * Z.of_nat k + 1.
Proof.
  induction k as [|k IH]; intros Hk c Hc.
  - simpl in Hc. unfold initial_state in Hc. cbn [st_classes] in Hc.
    apply in_map_iff in Hc. destruct Hc as (_ & <- & _). lia.
  - rewrite steps_succ in Hc. destruct (ids_steps img k ltac:(lia)) as [H1 H2].
    replace (2 * Z.of_nat (S k) + 1) with (2 * Z.of_nat k + 1 + 2) by lia.
    eapply classes_split_step; eauto; try lia. intros; apply IH; auto; lia.
Qed.

(** X23: the first 127 splits of a run, those of a count of 128 at most,
    do what a split is specified to do: the pixels of the class go left or
    right by their projection (ties left), none keeps the parent's id, and
    the two children share out the parent's pixels. *)
Lemma split_step_partitions (img : list Vec3b) (k : nat) :
  (k <= 126)%nat ->
  let s := steps eigen k (initial_state img) in
  let n := snd (pick (st_root s)) in
  let a := 2 * Z.of_nat k + 2 in
  let b := 2 * Z.of_nat k + 3 in
  (forall i color,
      nth_error img i = Some color ->
      nth_error (st_classes s) i = Some (classid n) ->
      nth_error (st_classes (split_step eigen s)) i
      = Some (side (axis eigen n) (threshold eigen n) a b color))
  /\ ~ In (classid n) (st_classes (split_step eigen s))
  /\ (count_occ Z.eq_dec (st_classes (split_step eigen s)) a
      + count_occ Z.eq_dec (st_classes (split_step eigen s)) b
      = count_occ Z.eq_dec (st_classes s) (classid n))%nat
  /\ exists l r,
      lookup (st_root (split_step eigen s)) (fst (pick (st_root s)))
      = Some (mk_node (mean n) (covariance n) (classid n) (Some l) (Some r))
      /\ classid l = a /\ classid r = b.
Proof.
  intros Hk s n a b.
  assert (Hnext : get_next_classid (st_root s) = a).
  { unfold s, a. now rewrite next_classid_steps by lia. }
  assert (Hn : classid n <= 2 * Z.of_nat k + 1).
  { apply (proj2 (ids_steps img k ltac:(lia))). apply picked_classid_in_ids. }
  assert (Hcl : forall c, In c (st_classes s) -> c <= 2 * Z.of_nat k + 1).
  { apply classes_steps. lia. }
  assert (Hlen : length (st_classes s) = length (st_img s)).
  { unfold s. rewrite steps_length, steps_img. apply initial_length. }
  assert (Himg : st_img s = img) by (unfold s; now rewrite steps_img).
  assert (Ha : uchar_cast a = a) by (apply uchar_cast_small; unfold a; lia).
  assert (Hb : uchar_cast (a + 1) = b)
    by (rewrite uchar_cast_small; unfold a, b; lia).
  destruct (split_step_children s) as (l & r & H1 & _ & _ & H2 & H3).
  rewrite Hnext, Ha in H2. rewrite Hnext, Ha, Hb in H3. rewrite Himg in Hlen.
  refine (conj _ (conj _ (conj _ _)));
    [| | |exists l, r; split; [exact H1|split; assumption]];
    rewrite split_step_eq; cbn [st_classes]; fold n;
    rewrite Hnext, Ha, Hb, Himg.
  - intros i color Hi Hc. now apply relabel_nth_class.
  - apply relabel_not_in; unfold a, b; lia.
  - apply relabel_count; unfold a, b; try lia;
      intro Hin; specialize (Hcl _ Hin); lia.
Qed.

(** C2, at the failing input.  A count of 129 passes the check of [main]
    and makes 128 rounds.  Whatever the image, the tree before the 128th
    round holds the ids 1 (the root) and 255, [get_next_classid] answers
    256, which the [uchar] parameter of [partition_class] narrows to 0, and
    the round gives the two new children the ids 0 and 1. *)
Theorem classid_wraps_at_round_128 (img : list Vec3b) :
  count_accepted 129 = true
  /\ snd (run eigen img 129)
     = split_step eigen (steps eigen 127 (initial_state img))
  /\ get_next_classid (st_root (steps eigen 127 (initial_state img))) = 256
  /\ uchar_cast 256 = 0
  /\ classid (st_root (steps eigen 127 (initial_state img))) = 1
  /\ In 255 (ids (st_root (steps eigen 127 (initial_state img))))
  /\ exists l r n',
      lookup (st_root (snd (run eigen img 129)))
             (fst (pick (st_root (steps eigen 127 (initial_state img)))))
      = Some n'
      /\ left n' = Some l /\ right n' = Some r
      /\ classid l = 0 /\ classid r = 1.
Proof.
  set (s := steps eigen 127 (initial_state img)).
  assert (Hrun : snd (run eigen img 129) = split_step eigen s).
  { rewrite run_steps. cbn [snd].
    change (Z.to_nat (129 - 1)) with 128%nat. apply steps_succ. }
  assert (Hnext : get_next_classid (st_root s) = 256).
  { unfold s. now rewrite next_classid_steps by lia. }
  split; [reflexivity|]. split; [exact Hrun|]. split; [exact Hnext|].
  split; [reflexivity|]. split; [apply root_classid_steps|].
  split; [exact (proj1 (ids_steps img 127 ltac:(lia)))|].
  destruct (split_step_children s) as (l & r & H1 & _ & _ & H2 & H3).
  rewrite Hnext in H2, H3. rewrite Hrun.
  exists l, r. eexists. split; [exact H1|]. repeat split; assumption.
Qed.

(** *** What a split leaves alone *)

(** C6: a split writes neither the image nor any buffer entry of another
    class; the node it splits keeps its class id, mean and covariance and
    gains two leaves as children, and every node that is not one of these
    two children keeps its statistics. *)
Theorem split_step_frame (s : state) :
  let p := fst (pick (st_root s)) in
  let n := snd (pick (st_root s)) in
  let s' := split_step eigen s in
  st_img s' = st_img s
  /\ length (st_classes s') = length (st_classes s)
  /\ (forall i c, nth_error (st_classes s) i = Some c -> c <> classid n ->
                  nth_error (st_classes s') i = Some c)
  /\ (exists l r,
         lookup (st_root s') p
         = Some (mk_node (mean n) (covariance n) (classid n) (Some l) (Some r))
         /\ is_leaf l = true /\ is_leaf r = true)
  /\ (forall q, (forall d t, q <> p ++ d :: t) ->
                option_map stats (lookup (st_root s') q)
                = option_map stats (lookup (st_root s) q)).
Proof.
  intros p n s'.
  split; [apply split_step_img|]. split; [apply split_step_length|].
  split; [|split].
  - intros i c Hi Hc. unfold s'. rewrite split_step_eq. cbn [st_classes].
    now apply relabel_nth_other.
  - destruct (split_step_children s) as (l & r & H & Hl & Hr & _).
    exists l, r. auto.
  - intros q Hq. unfold s'. rewrite split_step_eq. cbn [st_root].
    eapply lookup_update_at_stats;
      [apply get_max_eigenvalue_node_valid|reflexivity|exact Hq].
Qed.

(** *** A single colour *)

Lemma get_leaves_leaf (n : node) : is_leaf n = true -> get_leaves n = [n].
Proof.
  intro H. unfold get_leaves. destruct n as [mu c i [a|] [b|]];
    try discriminate; simpl; try reflexivity;
    match goal with |- context [leaves_loop ?k] => now destruct k end.
Qed.

(** The colour returned for a count of 1. *)
Lemma single_color (img : list Vec3b) :
  find_dominant_colors eigen img 1
  = [to_Vec3b (vdiv (vsum (map scaled_color img))
                    (pixel_count (map scaled_color img)))].
Proof.
  unfold find_dominant_colors, get_dominant_colors.
  change (snd (run eigen img 1)) with (initial_state (R := R) img).
  unfold initial_state. cbn [st_root].
  rewrite get_leaves_leaf by apply is_leaf_estimate_new.
  rewrite get_class_mean_cov_eq. cbn [map mean classid new_node].
  now rewrite class_pixels_initial.
Qed.


(** *** Why the node picked is a leaf *)

Lemma live_initial (img : list Vec3b) :
  buffer_in_live_leaves (initial_state (R := R) img).
Proof.
  intros c Hc. unfold initial_state in *. cbn [st_classes st_root st_img] in *.
  assert (E : c = 1) by (apply in_map_iff in Hc; now destruct Hc as (_ & <- & _)).
  subst c. eexists. split; [|split].
  - rewrite is_leaf_leaves_dfs by apply is_leaf_estimate_new. now left.
  - now rewrite get_class_mean_cov_eq.
  - exists (map (fun _ => 1) img), 1.
    split; [apply length_map|]. split; [exact Hc|].
    now rewrite !get_class_mean_cov_eq.
Qed.

(** With a pixel in the image, a leaf whose statistics are those of a class
    that owns a pixel makes the search return a leaf. *)
Lemma live_picks_leaf (s : state) :
  st_img s <> [] -> length (st_classes s) = length (st_img s) ->
  spread_above_minus_one eigen (st_img s) ->
  buffer_in_live_leaves s -> picks_leaf eigen s = true.
Proof.
  intros Himg Hlen Hspread Hlive.
  apply get_max_eigenvalue_node_is_leaf.
  destruct (st_classes s) as [|c classes] eqn:Ecl.
  { destruct (st_img s); [contradiction|discriminate]. }
  destruct (Hlive c) as (leaf & Hin & _ & cl & id & Hl & Hid & Hcov);
    [rewrite Ecl; now left|].
  apply Exists_exists. exists leaf. split.
  - eapply Permutation_in; [symmetry; apply get_leaves_perm|assumption].
  - unfold top_eigenvalue. rewrite Hcov. now apply Hspread.
Qed.

Lemma live_split_step (s : state) :
  wf (st_root s) -> picks_leaf eigen s = true ->
  length (st_classes s) = length (st_img s) ->
  buffer_in_live_leaves s -> buffer_in_live_leaves (split_step eigen s).
Proof.
  intros Hwf Hleaf Hlen Hinv c Hc.
  pose proof (get_max_eigenvalue_node_valid eigen (st_root s)) as Hv.
  rewrite split_step_eq in Hc |- *. cbn [st_classes st_root st_img] in *.
  set (n := snd (pick (st_root s))) in *.
  set (a := uchar_cast (get_next_classid (st_root s))) in *.
  set (b := uchar_cast (a + 1)) in *.
  set (classes' := relabel (axis eigen n) (threshold eigen n) (classid n) a b
                           (st_img s) (st_classes s)) in *.
  assert (Hnew : forall id,
             In id classes' ->
             is_leaf (estimate (st_img s) classes' (new_node id)) = true
             /\ classid (estimate (st_img s) classes' (new_node id)) = id
             /\ owns_pixel (st_img s) (estimate (st_img s) classes' (new_node id))).
  { intros id Hid. split; [apply is_leaf_estimate_new|].
    split; [now rewrite get_class_mean_cov_eq|].
    exists classes', id. split; [|split; [exact Hid|reflexivity]].
    unfold classes'. now rewrite relabel_length. }
  pose proof Hc as Hc'. apply relabel_in in Hc'.
  destruct Hc' as [[Hold Hne]|[->|[->|[_ Hbad]]]]; [| | |lia].
  - destruct (Hinv c Hold) as (leaf & Hin & Hid & Hown).
    exists leaf. split; [|split; assumption].
    eapply leaves_update_at_old; eauto.
    rewrite (is_leaf_leaves_dfs _ Hleaf). intros [E|[]].
    apply Hne. rewrite <- Hid, <- E. reflexivity.
  - destruct (Hnew a Hc) as (Hl & Hid & Hown).
    eexists. split; [|split; [exact Hid|exact Hown]].
    eapply leaves_update_at_new; eauto.
    cbn [leaves_dfs]. apply in_app_iff. left.
    rewrite (is_leaf_leaves_dfs _ Hl). now left.
  - destruct (Hnew b Hc) as (Hl & Hid & Hown).
    eexists. split; [|split; [exact Hid|exact Hown]].
    eapply leaves_update_at_new; eauto.
    cbn [leaves_dfs]. apply in_app_iff. right.
    rewrite (is_leaf_leaves_dfs _ Hl). now left.
Qed.

Lemma live_steps (k : nat) :
  forall s,
    wf (st_root s) -> length (st_classes s) = length (st_img s) ->
    st_img s <> [] -> spread_above_minus_one eigen (st_img s) ->
    buffer_in_live_leaves s ->
    picks_leaves eigen k s = true /\ buffer_in_live_leaves (steps eigen k s).
Proof.
  induction k as [|k IH]; intros s Hwf Hlen Himg Hspread Hlive; [now split|].
  pose proof (live_picks_leaf s Himg Hlen Hspread Hlive) as Hp.
  cbn [picks_leaves steps]. rewrite Hp.
  apply IH.
  - now apply wf_split_step.
  - now rewrite split_step_length, split_step_img.
  - now rewrite split_step_img.
  - now rewrite split_step_img.
  - now apply live_split_step.
Qed.

(** On an image with a pixel, when the eigen-solver reports a top eigenvalue
    above -1 for every class that owns a pixel, every round of every run
    hands a leaf to [partition_class]. *)
Lemma picks_leaves_spread (img : list Vec3b) (k : nat) :
  img <> [] -> spread_above_minus_one eigen img ->
  picks_leaves eigen k (initial_state img) = true.
Proof.
  intros Himg Hspread.
  apply (live_steps k (initial_state img));
    auto using wf_initial, initial_length, live_initial.
Qed.

(** C3, for an image with a pixel, as both entry points demand of the
    image they pass on, and an eigen-solver that reports a top eigenvalue
    above -1 for every class that owns a pixel: the loop makes exactly
    [count - 1] rounds, the tree then has [count] leaves, and one colour,
    the de-normalised mean of the leaf, is returned per leaf.  The loop is
    left on its condition: more fuel changes nothing. *)
Theorem find_dominant_colors_count (img : list Vec3b) (count : Z) :
  img <> [] -> spread_above_minus_one eigen img -> 1 <= count ->
  run eigen img count
  = (count - 1, steps eigen (Z.to_nat (count - 1)) (initial_state img))
  /\ length (get_leaves (st_root (snd (run eigen img count)))) = Z.to_nat count
  /\ find_dominant_colors eigen img count
     = map (fun leaf =>
              mk_Vec3b (r_to_uchar (r_mul (x0 (mean leaf)) r_255))
                       (r_to_uchar (r_mul (x1 (mean leaf)) r_255))
                       (r_to_uchar (r_mul (x2 (mean leaf)) r_255)))
           (get_leaves (st_root (snd (run eigen img count))))
  /\ length (find_dominant_colors eigen img count) = Z.to_nat count
  /\ (forall fuel, (Z.to_nat (count - 1) <= fuel)%nat ->
                   split_loop eigen fuel 0 count (initial_state img)
                   = run eigen img count).
Proof.
  intros Himg Hspread Hc.
  pose proof (picks_leaves_spread img (Z.to_nat (count - 1)) Himg Hspread) as Hp.
  split; [rewrite run_steps; f_equal; lia|].
  split; [now apply leaves_run|]. split; [reflexivity|]. split.
  - unfold find_dominant_colors, get_dominant_colors.
    rewrite length_map. now apply leaves_run.
  - intros fuel Hf. rewrite run_steps, split_loop_exit by lia.
    f_equal. f_equal. lia.
Qed.

(** C4, as the code has it: at every point of a run, each id present in
    the buffer is the class id of a current leaf (with an eigen-solver that
    reports a top eigenvalue above -1 for every class that owns a pixel).
    A leaf may own no pixel, so the converse is not claimed. *)
Theorem buffer_ids_are_leaf_ids (img : list Vec3b) (k : nat) (c : Z) :
  spread_above_minus_one eigen img ->
  In c (st_classes (steps eigen k (initial_state img))) ->
  exists leaf,
    In leaf (get_leaves (st_root (steps eigen k (initial_state img))))
    /\ classid leaf = c.
Proof.
  intros Hspread Hc.
  destruct img as [|px img].
  - exfalso.
    pose proof (steps_length k (initial_state (R := R) [])) as Hlen.
    destruct (st_classes (steps eigen k (initial_state []))); [contradiction|].
    discriminate Hlen.
  - apply buffer_ids_of_leaf_splits; [|assumption].
    apply picks_leaves_spread; [discriminate|assumption].
Qed.

(** *** The statistics of the leaves *)

Lemma estimate_relabel (eig : vec3 R) (thr : R) (cid a b y : Z)
      (img : list Vec3b) (classes : list Z) :
  y <> cid -> y <> a -> y <> b ->
  estimate img (relabel eig thr cid a b img classes) (new_node y)
  = estimate img classes (new_node y).
Proof.
  intros. rewrite !get_class_mean_cov_eq. cbn [classid new_node].
  now rewrite class_pixels_relabel.
Qed.

(** A split of a leaf with two ids above all those of the tree keeps the
    ids of the leaves distinct and their statistics up to date. *)
Lemma stats_split_step (s : state) (M : Z) :
  0 <= M -> M + 2 <= 255 ->
  In M (ids (st_root s)) -> (forall x, In x (ids (st_root s)) -> x <= M) ->
  wf (st_root s) -> picks_leaf eigen s = true ->
  leaf_ids_distinct s -> leaf_stats_current s ->
  leaf_ids_distinct (split_step eigen s) /\ leaf_stats_current (split_step eigen s).
Proof.
  intros H0 H255 Hin Hle Hwf Hleaf Hnd Hcur.
  pose proof (get_max_eigenvalue_node_valid eigen (st_root s)) as Hv.
  pose proof (picked_classid_in_ids s) as Hn.
  unfold leaf_ids_distinct, leaf_stats_current in *.
  rewrite split_step_eq. cbn [st_root st_classes st_img].
  rewrite (get_next_classid_max _ M H0 Hin Hle).
  rewrite (uchar_cast_small (M + 1)) by lia.
  rewrite (uchar_cast_small (M + 1 + 1)) by lia.
  set (n := snd (pick (st_root s))) in *.
  set (classes' := relabel (axis eigen n) (threshold eigen n) (classid n)
                           (M + 1) (M + 1 + 1) (st_img s) (st_classes s)).
  set (La := estimate (st_img s) classes' (new_node (M + 1))).
  set (Rb := estimate (st_img s) classes' (new_node (M + 1 + 1))).
  set (root' := update_at (st_root s) (fst (pick (st_root s))) _).
  assert (HLa : classid La = M + 1 /\ leaves_dfs La = [La]).
  { unfold La. split; [now rewrite get_class_mean_cov_eq|].
    apply is_leaf_leaves_dfs, is_leaf_estimate_new. }
  assert (HRb : classid Rb = M + 1 + 1 /\ leaves_dfs Rb = [Rb]).
  { unfold Rb. split; [now rewrite get_class_mean_cov_eq|].
    apply is_leaf_leaves_dfs, is_leaf_estimate_new. }
  assert (P : Permutation (leaves_dfs root' ++ [n]) (leaves_dfs (st_root s) ++ [La; Rb])).
  { unfold root'.
    match goal with
    | |- context [update_at _ _ ?f] =>
        pose proof (leaves_update_at (fst (pick (st_root s))) f _ _ Hwf Hv) as E
    end.
    fold n in E. rewrite (is_leaf_leaves_dfs n Hleaf) in E.
    cbn [leaves_dfs] in E. fold La Rb in E.
    now rewrite (proj2 HLa), (proj2 HRb) in E. }
  assert (Pm : Permutation (map classid (leaves_dfs root') ++ [classid n])
                           (map classid (leaves_dfs (st_root s)) ++ [M + 1; M + 1 + 1])).
  { apply (Permutation_map classid) in P. rewrite !map_app in P. simpl in P.
    now rewrite (proj1 HLa), (proj1 HRb) in P. }
  assert (Hold : forall x, In x (map classid (leaves_dfs (st_root s))) -> x <= M).
  { intros x Hx. apply Hle. now apply leaves_ids. }
  assert (Hnd' : NoDup (map classid (leaves_dfs root') ++ [classid n])).
  { apply (Permutation_NoDup (Permutation_sym Pm)).
    apply NoDup_app; [assumption| |].
    - constructor; [intros [E|[]]; lia|]. constructor; [intros []|constructor].
    - intros x Hx [E|[E|[]]]; specialize (Hold _ Hx); lia. }
  assert (Hcid : ~ In (classid n) (map classid (leaves_dfs root'))).
  { intro Hc.
    apply (Permutation_NoDup (Permutation_sym (Permutation_cons_append _ _))) in Hnd'.
    now inversion Hnd'. }
  split; [now apply NoDup_app_remove_r in Hnd'|].
  intros Y HY.
  assert (HY' : In Y (leaves_dfs (st_root s) ++ [La; Rb])).
  { apply (Permutation_in _ P). apply in_app_iff. now left. }
  apply in_app_iff in HY'. destruct HY' as [HY'|[<-|[<-|[]]]].
  - assert (Hy : classid Y <> classid n).
    { intro E. apply Hcid. rewrite <- E. now apply in_map. }
    assert (Hy' : classid Y <= M) by (apply Hold; now apply in_map).
    unfold classes'. rewrite estimate_relabel by lia. now apply Hcur.
  - now rewrite (proj1 HLa).
  - now rewrite (proj1 HRb).
Qed.

(** Through the first 127 rounds of such a run the leaves have distinct
    ids, and each one holds the mean and the covariance of its class in
    the buffer as it is then. *)
Lemma current_steps (img : list Vec3b) (k : nat) :
  img <> [] -> spread_above_minus_one eigen img -> (k <= 127)%nat ->
  leaf_ids_distinct (steps eigen k (initial_state img))
  /\ leaf_stats_current (steps eigen k (initial_state img)).
Proof.
  intros Himg Hspread. induction k as [|k IH]; intro Hk.
  - simpl. unfold leaf_ids_distinct, leaf_stats_current.
    unfold initial_state. cbn [st_root st_img st_classes].
    rewrite is_leaf_leaves_dfs by apply is_leaf_estimate_new.
    split; [repeat constructor; intros []|].
    intros leaf [<-|[]]. now rewrite !get_class_mean_cov_eq.
  - destruct (IH ltac:(lia)) as (Hnd & Hcur).
    pose proof (picks_leaves_spread img (S k) Himg Hspread) as Hp.
    rewrite picks_leaves_succ in Hp. apply andb_prop in Hp.
    rewrite steps_succ. destruct (ids_steps img k ltac:(lia)) as [H1 H2].
    eapply stats_split_step; eauto using wf_steps, wf_initial; try lia.
    apply Hp.
Qed.

(** For a count of up to 128, the mean held by each leaf at the end of the
    run, of which the colour returned is the de-normalisation, is the mean
    of the pixels that carry the id of the leaf in the final buffer. *)
Lemma leaves_hold_class_means (img : list Vec3b) (count : Z) :
  img <> [] -> spread_above_minus_one eigen img -> 1 <= count <= 128 ->
  Forall (fun leaf =>
            mean leaf
            = vdiv (vsum (class_pixels img (st_classes (snd (run eigen img count)))
                                       (classid leaf)))
                   (pixel_count (class_pixels img
                                              (st_classes (snd (run eigen img count)))
                                              (classid leaf))))
         (get_leaves (st_root (snd (run eigen img count)))).
Proof.
  intros Himg Hspread Hc. rewrite run_steps. cbn [snd].
  destruct (current_steps img (Z.to_nat (count - 1)) Himg Hspread ltac:(lia))
    as [_ Hcur].
  apply Forall_forall. intros leaf Hin.
  apply (Permutation_in _ (get_leaves_perm _)) in Hin.
  specialize (Hcur leaf Hin). rewrite steps_img in Hcur. cbn [st_img initial_state] in Hcur.
  rewrite Hcur at 1. now rewrite get_class_mean_cov_eq.
Qed.
End Driver.

(** ** The search on the trees of a run *)

Section SearchInRun.
Context {R : Type} {SR : Scalar R}.
Variable eigen : mat33 R -> vec3 R * mat33 R.
#[local] Abbreviation node := (t_color_node R).
#[local] Abbreviation pick := (get_max_eigenvalue_node eigen).
#[local] Abbreviation top := (top_eigenvalue eigen).

(* a write at or below a node with both children leaves it both children,
   when what is written has both *)
Lemma children_update_at (p : path) (f : node -> node) (n : node) :
  left n <> None -> right n <> None ->
  (forall m, left (f m) <> None /\ right (f m) <> None) ->
  left (update_at n p f) <> None /\ right (update_at n p f) <> None.
Proof.
  intros Hl Hr Hf. destruct p as [|d p]; [apply Hf|].
  destruct n as [mu c i [a|] [b|]], d; cbn in *;
    split; try discriminate; congruence.
Qed.

(** After a round the root has both children: the tree is no longer the
    single node. *)
Lemma root_children_steps (img : list Vec3b) (k : nat) :
  left (st_root (steps eigen (S k) (initial_state img))) <> None
  /\ right (st_root (steps eigen (S k) (initial_state img))) <> None.
Proof.
  induction k as [|k [IHl IHr]].
  - cbn [steps]. rewrite split_step_eq. cbn [st_root].
    unfold get_max_eigenvalue_node.
    rewrite search_no_children
      by (unfold initial_state; cbn [st_root]; now rewrite get_class_mean_cov_eq).
    cbn [fst snd update_at left right]. split; discriminate.
  - rewrite steps_succ, split_step_eq. cbn [st_root].
    apply children_update_at; try assumption.
    intros _. cbn [left right]. split; discriminate.
Qed.

(** On an image with a pixel some leaf of the tree has a top eigenvalue
    above -1, at every point of a run. *)
Lemma run_exists_leaf (img : list Vec3b) (k : nat) :
  img <> [] -> spread_above_minus_one eigen img ->
  Exists (fun leaf => r_gtb (top leaf) r_minus_one = true)
         (get_leaves (st_root (steps eigen k (initial_state img)))).
Proof.
  intros Himg Hspread.
  destruct (live_steps eigen k (initial_state img) (wf_initial img)
              (initial_length img) Himg Hspread (live_initial img)) as [_ Hlive].
  set (s := steps eigen k (initial_state img)) in *.
  assert (Hi : st_img s = img) by (unfold s; now rewrite steps_img).
  assert (Hlen : length (st_classes s) = length img).
  { unfold s. rewrite steps_length. unfold initial_state. cbn [st_classes].
    apply length_map. }
  destruct (st_classes s) as [|c classes] eqn:Ecl.
  { destruct img; [contradiction|discriminate]. }
  destruct (Hlive c) as (leaf & Hin & _ & cl & id & Hl & Hid & Hcov);
    [rewrite Ecl; now left|].
  apply Exists_exists. exists leaf. split.
  - eapply Permutation_in; [symmetry; apply get_leaves_perm|assumption].
  - unfold top_eigenvalue. rewrite Hcov. rewrite Hi in Hl, Hcov |- *.
    now apply Hspread.
Qed.

(** C7: on a tree that is a single node the search returns that node at
    once, without an eigen-decomposition.  On the larger trees it is
    applied to, those of a run after one round or more on an image with a
    pixel, it decomposes the covariance of every leaf once and returns a
    pointer into the tree to a leaf whose top eigenvalue no leaf exceeds.
    ([>] on the scalars is a strict order; the eigen-solver reports a top
    eigenvalue above -1 for every class that owns a pixel.) *)
Theorem get_max_eigenvalue_node_in_run
        (root0 : node) (img : list Vec3b) (k : nat) :
  (forall a : R, r_gtb a a = false) ->
  (forall a b c : R, r_gtb a b = true -> r_gtb b c = true -> r_gtb a c = true) ->
  img <> [] -> spread_above_minus_one eigen img ->
  (left root0 = None -> right root0 = None ->
   max_eigenvalue_search eigen root0 = (([], root0), O))
  /\ left (st_root (steps eigen (S k) (initial_state img))) <> None
  /\ right (st_root (steps eigen (S k) (initial_state img))) <> None
  /\ snd (max_eigenvalue_search eigen
            (st_root (steps eigen (S k) (initial_state img))))
     = length (get_leaves (st_root (steps eigen (S k) (initial_state img))))
  /\ In (snd (pick (st_root (steps eigen (S k) (initial_state img)))))
        (get_leaves (st_root (steps eigen (S k) (initial_state img))))
  /\ is_leaf (snd (pick (st_root (steps eigen (S k) (initial_state img))))) = true
  /\ lookup (st_root (steps eigen (S k) (initial_state img)))
            (fst (pick (st_root (steps eigen (S k) (initial_state img)))))
     = Some (snd (pick (st_root (steps eigen (S k) (initial_state img)))))
  /\ Forall (fun leaf =>
               r_gtb (top leaf)
                     (top (snd (pick (st_root (steps eigen (S k)
                                                     (initial_state img))))))
               = false)
            (get_leaves (st_root (steps eigen (S k) (initial_state img)))).
Proof.
  intros Hirr Htrans Himg Hspread.
  split; [apply search_no_children|].
  destruct (root_children_steps img k) as [Hl Hr].
  split; [exact Hl|]. split; [exact Hr|].
  pose proof (run_exists_leaf img (S k) Himg Hspread) as Hex.
  destruct (get_max_eigenvalue_node_spec eigen
              (st_root (steps eigen (S k) (initial_state img))) Hirr Htrans)
    as [_ H].
  destruct (H (or_introl Hl)) as (Hcalls & Hmax & _).
  destruct (Hmax Hex) as (Hin & Hv & Hall).
  split; [exact Hcalls|]. split; [exact Hin|]. split; [|split; [exact Hv|exact Hall]].
  now apply get_max_eigenvalue_node_is_leaf.
Qed.
End SearchInRun.

(** ** The class-id visualisation *)

Lemma viewable_fold (classes : list Z) :
  forall (ret : list Vec3b) (printed : nat),
    fold_left viewable_step classes (ret, printed)
    = (ret ++ map (fun color => if color >=? max_color_count then black
                                else nth (Z.to_nat color) palette black) classes,
       (printed + length (filter (fun color => color >=? max_color_count) classes))%nat).
Proof.
  induction classes as [|color classes IH]; intros ret printed; simpl.
  - rewrite app_nil_r. f_equal. lia.
  - destruct (color >=? max_color_count); rewrite IH, <- app_assoc; simpl;
      f_equal; lia.
Qed.

(** C9: an id of 18 or more costs one message and leaves the pixel at the
    value the image was created with; an id below 18 is painted from the
    palette; the image returned has one pixel per buffer entry. *)
Theorem get_viewable_image_spec (classes : list Z) :
  fst (get_viewable_image classes)
  = map (fun color => if color >=? 18 then mk_Vec3b 0 0 0
                      else nth (Z.to_nat color) palette (mk_Vec3b 0 0 0)) classes
  /\ length (fst (get_viewable_image classes)) = length classes
  /\ snd (get_viewable_image classes)
     = length (filter (fun color => color >=? 18) classes).
Proof.
  unfold get_viewable_image. rewrite viewable_fold. cbn [fst snd app].
  repeat split. now rewrite length_map.
Qed.

(** ** The executable arithmetic *)

Lemma dbl_gtb_irrefl (a : dbl) : dbl_gtb a a = false.
Proof.
  destruct a as [q| | |]; simpl; try reflexivity.
  now rewrite (proj1 (Qeq_alt q q) (Qeq_refl q)).
Qed.

Lemma dbl_gtb_trans (a b c : dbl) :
  dbl_gtb a b = true -> dbl_gtb b c = true -> dbl_gtb a c = true.
Proof.
  destruct a as [p| | |], b as [q| | |], c as [r| | |]; simpl;
    try discriminate; try reflexivity.
  destruct (Qcompare_spec p q) as [?|?|Hqp]; try discriminate.
  destruct (Qcompare_spec q r) as [?|?|Hrq]; try discriminate.
  intros _ _. now rewrite (proj1 (Qgt_alt p r) (Qlt_trans _ _ _ Hrq Hqp)).
Qed.

(** *** The estimator in exact arithmetic *)

Lemma Qeq_bool_false (q : Q) : ~ (q == 0)%Q -> Qeq_bool q 0 = false.
Proof.
  intro H. destruct (Qeq_bool q 0) eqn:E; [|reflexivity].
  apply Qeq_bool_iff in E. contradiction.
Qed.

Lemma is_fin_val (a : dbl) : is_fin a -> a = Fin (dbl_val a).
Proof. destruct a; simpl; intros []; reflexivity. Qed.

Lemma dbl_add_fin (a b : dbl) :
  is_fin a -> is_fin b ->
  is_fin (dbl_add a b) /\ (dbl_val (dbl_add a b) == dbl_val a + dbl_val b)%Q.
Proof.
  destruct a as [p| | |], b as [q| | |]; cbn [is_fin dbl_add dbl_val];
    intros Ha Hb; try contradiction.
  split; [exact I|apply Qred_correct].
Qed.

Lemma dbl_mul_fin (a b : dbl) :
  is_fin a -> is_fin b ->
  is_fin (dbl_mul a b) /\ (dbl_val (dbl_mul a b) == dbl_val a * dbl_val b)%Q.
Proof.
  destruct a as [p| | |], b as [q| | |]; cbn [is_fin dbl_mul dbl_val];
    intros Ha Hb; try contradiction.
  split; [exact I|apply Qred_correct].
Qed.

Lemma scaled_color_fin (color : Vec3b) : fin_vec (scaled_color (R := dbl) color).
Proof. repeat split. Qed.

Lemma vadd_fin (u v : vec3 dbl) : fin_vec u -> fin_vec v -> fin_vec (vadd u v).
Proof.
  intros (H0 & H1 & H2) (K0 & K1 & K2).
  repeat split; simpl; now apply dbl_add_fin.
Qed.

Lemma outer_fin (u v : vec3 dbl) : fin_vec u -> fin_vec v -> fin_mat (outer u v).
Proof.
  intros (H0 & H1 & H2) (K0 & K1 & K2).
  repeat split; simpl; now apply dbl_mul_fin.
Qed.

Lemma madd_fin (m k : mat33 dbl) : fin_mat m -> fin_mat k -> fin_mat (madd m k).
Proof.
  intros (H0 & H1 & H2) (K0 & K1 & K2).
  repeat split; simpl; apply dbl_add_fin;
    first [apply H0|apply H1|apply H2|apply K0|apply K1|apply K2].
Qed.

Lemma vsum_fold_fin (l : list (vec3 dbl)) :
  forall v, Forall fin_vec l -> fin_vec v -> fin_vec (fold_left vadd l v).
Proof.
  induction l as [|u l IH]; intros v Hl Hv; [assumption|].
  inversion Hl; subst. simpl. apply IH; [assumption|now apply vadd_fin].
Qed.

Lemma outer_sum_fold_fin (l : list (vec3 dbl)) :
  forall m, Forall fin_vec l -> fin_mat m ->
            fin_mat (fold_left (fun acc x => madd acc (outer x x)) l m).
Proof.
  induction l as [|u l IH]; intros m Hl Hm; [assumption|].
  inversion Hl; subst. simpl.
  apply IH; [assumption|]. apply madd_fin; [assumption|now apply outer_fin].
Qed.

(** The pixel counter holds the number of pixels. *)
Lemma pixel_count_fold (A : Type) (l : list A) :
  forall a : dbl,
    is_fin a ->
    is_fin (fold_left (fun acc _ => dbl_add acc (Fin 1)) l a)
    /\ (dbl_val (fold_left (fun acc _ => dbl_add acc (Fin 1)) l a)
        == dbl_val a + inject_Z (Z.of_nat (length l)))%Q.
Proof.
  induction l as [|x l IH]; intros a Ha.
  - simpl. split; [assumption|]. unfold inject_Z. ring.
  - cbn [fold_left length].
    destruct (dbl_add_fin a (Fin 1) Ha I) as [H1 H2].
    destruct (IH _ H1) as [H3 H4]. split; [assumption|].
    rewrite H4, H2. rewrite Nat2Z.inj_succ, <- Z.add_1_l, inject_Z_plus.
    simpl. ring.
Qed.

Lemma pixel_count_val (l : list (vec3 dbl)) :
  is_fin (pixel_count l)
  /\ (dbl_val (pixel_count l) == inject_Z (Z.of_nat (length l)))%Q.
Proof.
  destruct (pixel_count_fold _ l (Fin 0) I) as [H1 H2].
  split; [exact H1|]. unfold pixel_count. simpl r_add. simpl r_one. simpl r_zero.
  rewrite H2. simpl. ring.
Qed.

Lemma pixel_count_nonzero (l : list (vec3 dbl)) :
  l <> [] -> ~ (dbl_val (pixel_count l) == 0)%Q.
Proof.
  intros Hl H. rewrite (proj2 (pixel_count_val l)) in H.
  destruct l as [|x l]; [contradiction|].
  unfold Qeq in H. simpl in H. lia.
Qed.

(** One entry of the covariance: what the code stores is the pixel count
    times the entry of the canonical covariance. *)
Lemma scatter_entry (S si sj n : Q) :
  ~ (n == 0)%Q ->
  dbl_sub (Fin S) (dbl_div (dbl_mul (Fin si) (Fin sj)) (Fin n))
  = dbl_mul (Fin n)
            (dbl_sub (dbl_div (Fin S) (Fin n))
                     (dbl_mul (dbl_div (Fin si) (Fin n)) (dbl_div (Fin sj) (Fin n)))).
Proof.
  intro Hn. unfold dbl_sub, dbl_div, dbl_mul, dbl_add, dbl_opp.
  rewrite (Qeq_bool_false n Hn).
  f_equal. apply Qred_complete. rewrite !Qred_correct. field. exact Hn.
Qed.

Lemma scatter_matrix (S : mat33 dbl) (s : vec3 dbl) (n : dbl) :
  fin_mat S -> fin_vec s -> is_fin n -> ~ (dbl_val n == 0)%Q ->
  msub S (mdiv (outer s s) n)
  = mmap (dbl_mul n) (msub (mdiv S n) (outer (vdiv s n) (vdiv s n))).
Proof.
  destruct S as [[a b c] [d e f] [g h i]], s as [s0 s1 s2].
  unfold fin_mat, fin_vec. cbn [row0 row1 row2 x0 x1 x2].
  intros ((? & ? & ?) & (? & ? & ?) & (? & ? & ?)) (? & ? & ?) ? Hn.
  fin_destruct. cbn [dbl_val] in Hn.
  unfold msub, mdiv, mmap, mmap2, vmap, vmap2, outer, vdiv.
  cbn [row0 row1 row2 x0 x1 x2 r_sub r_div r_mul dbl_Scalar].
  f_equal; (f_equal; now apply scatter_entry).
Qed.

(** In exact arithmetic the covariance stored for a class that owns a
    pixel is the pixel count times the canonical covariance. *)
Lemma scatter_is_count_times_canonical (img : list Vec3b) (classes : list Z)
      (n : t_color_node dbl) :
  class_pixels (R := dbl) img classes (classid n) <> [] ->
  covariance (get_class_mean_cov img classes n)
  = mmap (dbl_mul (pixel_count (class_pixels img classes (classid n))))
         (canonical_covariance (class_pixels img classes (classid n))).
Proof.
  intro Hne. rewrite get_class_mean_cov_eq. cbn [covariance].
  set (px := class_pixels img classes (classid n)) in *.
  assert (Hpx : Forall fin_vec px).
  { unfold px, class_pixels. apply Forall_forall. intros v Hv.
    apply in_map_iff in Hv. destruct Hv as (c & <- & _). apply scaled_color_fin. }
  apply scatter_matrix.
  - apply outer_sum_fold_fin; [assumption|repeat split].
  - apply vsum_fold_fin; [assumption|repeat split].
  - apply pixel_count_val.
  - now apply pixel_count_nonzero.
Qed.

(** *** The assumption on the eigen-solver in exact arithmetic *)

Lemma vsum_channels (l : list (vec3 dbl)) :
  forall v : vec3 dbl,
    x0 (fold_left vadd l v) = fold_left dbl_add (map x0 l) (x0 v)
    /\ x1 (fold_left vadd l v) = fold_left dbl_add (map x1 l) (x1 v)
    /\ x2 (fold_left vadd l v) = fold_left dbl_add (map x2 l) (x2 v).
Proof.
  induction l as [|u l IH]; intro v; [repeat split|].
  cbn [fold_left map]. apply IH.
Qed.

Lemma q_square_nonneg (a : Q) : (0 <= a * a)%Q.
Proof.
  destruct (Qlt_le_dec a 0) as [H|H].
  - setoid_replace (a * a)%Q with ((- a) * (- a))%Q by ring.
    apply Qmult_le_0_compat; lra.
  - now apply Qmult_le_0_compat.
Qed.

Lemma spread_around (y : Q) (l : list Q) :
  (0 <= qsumsq l - 2 * y * qsum l + inject_Z (Z.of_nat (length l)) * (y * y))%Q.
Proof.
  induction l as [|x l IH].
  - cbn [qsumsq qsum fold_right length Z.of_nat]. change (inject_Z 0) with 0%Q. lra.
  - cbn [qsumsq qsum fold_right length].
    fold (qsum l) (qsumsq l).
    rewrite Nat2Z.inj_succ, <- Z.add_1_l, inject_Z_plus.
    change (inject_Z 1) with 1%Q.
    pose proof (q_square_nonneg (x - y)) as H.
    setoid_replace (x * x + qsumsq l - 2 * y * (x + qsum l)
                    + (1 + inject_Z (Z.of_nat (length l))) * (y * y))%Q
      with ((x - y) * (x - y)
            + (qsumsq l - 2 * y * qsum l
               + inject_Z (Z.of_nat (length l)) * (y * y)))%Q
      by ring.
    lra.
Qed.

(** The square of a sum is at most the number of terms times the sum of
    the squares. *)
Lemma variance_nonneg (l : list Q) :
  (qsum l * qsum l <= inject_Z (Z.of_nat (length l)) * qsumsq l)%Q.
Proof.
  induction l as [|x l IH].
  - cbn [qsumsq qsum fold_right length Z.of_nat]. change (inject_Z 0) with 0%Q. lra.
  - pose proof (spread_around x l) as H.
    cbn [qsumsq qsum fold_right length].
    fold (qsum l) (qsumsq l).
    rewrite Nat2Z.inj_succ, <- Z.add_1_l, inject_Z_plus.
    change (inject_Z 1) with 1%Q.
    apply Qle_minus_iff.
    setoid_replace ((1 + inject_Z (Z.of_nat (length l))) * (x * x + qsumsq l)
                    + - ((x + qsum l) * (x + qsum l)))%Q
      with ((inject_Z (Z.of_nat (length l)) * qsumsq l - qsum l * qsum l)
            + (qsumsq l - 2 * x * qsum l
               + inject_Z (Z.of_nat (length l)) * (x * x)))%Q
      by ring.
    lra.
Qed.

Lemma sum_fold_val (l : list dbl) :
  forall a : dbl,
    Forall is_fin l -> is_fin a ->
    is_fin (fold_left dbl_add l a)
    /\ (dbl_val (fold_left dbl_add l a) == dbl_val a + qsum (map dbl_val l))%Q.
Proof.
  induction l as [|x l IH]; intros a Hl Ha.
  - simpl. split; [assumption|ring].
  - inversion Hl as [|? ? Hx Hl']; subst. cbn [fold_left map qsum fold_right].
    destruct (dbl_add_fin a x Ha Hx) as [H1 H2].
    destruct (IH _ Hl' H1) as [H3 H4]. split; [assumption|].
    rewrite H4, H2. fold (qsum (map dbl_val l)). ring.
Qed.

Lemma sumsq_fold_val (l : list dbl) :
  forall a : dbl,
    Forall is_fin l -> is_fin a ->
    is_fin (fold_left (fun acc x => dbl_add acc (dbl_mul x x)) l a)
    /\ (dbl_val (fold_left (fun acc x => dbl_add acc (dbl_mul x x)) l a)
        == dbl_val a + qsumsq (map dbl_val l))%Q.
Proof.
  induction l as [|x l IH]; intros a Hl Ha.
  - simpl. split; [assumption|ring].
  - inversion Hl as [|? ? Hx Hl']; subst. cbn [fold_left map qsumsq fold_right].
    destruct (dbl_mul_fin x x Hx Hx) as [K1 K2].
    destruct (dbl_add_fin a _ Ha K1) as [H1 H2].
    destruct (IH _ Hl' H1) as [H3 H4]. split; [assumption|].
    rewrite H4, H2, K2. fold (qsumsq (map dbl_val l)). ring.
Qed.

Lemma outer_sum_corner (l : list (vec3 dbl)) :
  forall m : mat33 dbl,
    x0 (row0 (fold_left (fun acc x => madd acc (outer x x)) l m))
    = fold_left (fun acc x => dbl_add acc (dbl_mul x x)) (map x0 l) (x0 (row0 m)).
Proof.
  induction l as [|u l IH]; intro m; [reflexivity|].
  cbn [fold_left map]. now rewrite IH.
Qed.

Lemma corner_entry (A : mat33 dbl) (u : vec3 dbl) (n : dbl) :
  x0 (row0 (msub A (mdiv (outer u u) n)))
  = dbl_sub (x0 (row0 A)) (dbl_div (dbl_mul (x0 u) (x0 u)) n).
Proof. destruct A as [[a b c] r1 r2], u as [u0 u1 u2]. reflexivity. Qed.

(** The first diagonal entry of the covariance stored for a list of
    finite vectors is finite and not negative. *)
Lemma scatter_corner (px : list (vec3 dbl)) :
  Forall fin_vec px -> px <> [] ->
  exists v : Q,
    x0 (row0 (msub (outer_sum px) (mdiv (outer (vsum px) (vsum px)) (pixel_count px))))
    = Fin v /\ (0 <= v)%Q.
Proof.
  intros Hpx Hne.
  assert (Hxs : Forall is_fin (map x0 px)).
  { apply Forall_forall. intros x Hx. apply in_map_iff in Hx.
    destruct Hx as (u & <- & Hu). exact (proj1 (proj1 (Forall_forall _ _) Hpx u Hu)). }
  destruct (sumsq_fold_val (map x0 px) (Fin 0) Hxs I) as [HS HSv].
  destruct (sum_fold_val (map x0 px) (Fin 0) Hxs I) as [Hs Hsv].
  destruct (pixel_count_val px) as [Hn Hnv].
  pose proof (pixel_count_nonzero px Hne) as Hnz.
  pose proof (variance_nonneg (map dbl_val (map x0 px))) as Hvar.
  rewrite !length_map in Hvar.
  rewrite corner_entry.
  unfold outer_sum. rewrite outer_sum_corner.
  unfold vsum. rewrite (proj1 (vsum_channels px vzero)).
  cbn [vzero mzero row0 x0 r_zero r_sub r_div r_mul dbl_Scalar].
  set (S := fold_left (fun acc x => dbl_add acc (dbl_mul x x)) (map x0 px) (Fin 0)) in *.
  set (s := fold_left dbl_add (map x0 px) (Fin 0)) in *.
  set (n := pixel_count px) in *.
  rewrite (is_fin_val S HS), (is_fin_val s Hs), (is_fin_val n Hn).
  cbn [dbl_mul dbl_div]. rewrite (Qeq_bool_false _ Hnz).
  cbn [dbl_sub dbl_opp dbl_add].
  eexists. split; [reflexivity|].
  rewrite !Qred_correct, HSv, Hsv.
  cbn [dbl_val].
  assert (Hpos : (0 < dbl_val n)%Q).
  { rewrite Hnv. destruct px; [contradiction|].
    unfold Qlt. simpl. lia. }
  rewrite Hnv in Hpos |- *.
  set (N := inject_Z (Z.of_nat (length px))) in *.
  set (A := qsum (map dbl_val (map x0 px))) in *.
  set (B := qsumsq (map dbl_val (map x0 px))) in *.
  setoid_replace (0 + B + - ((0 + A) * (0 + A) / N))%Q
    with ((N * B - A * A) / N)%Q by (field; lra).
  apply Qle_shift_div_l; [assumption|]. lra.
Qed.

Lemma dbl_sub_fin (a b : dbl) : is_fin a -> is_fin b -> is_fin (dbl_sub a b).
Proof. destruct a, b; simpl; try contradiction; exact (fun _ _ => I). Qed.

Lemma dbl_div_fin (a b : dbl) :
  is_fin a -> is_fin b -> ~ (dbl_val b == 0)%Q -> is_fin (dbl_div a b).
Proof.
  destruct a as [p| | |], b as [q| | |]; cbn [is_fin dbl_val];
    try contradiction.
  intros _ _ Hq. cbn [dbl_div]. now rewrite (Qeq_bool_false q Hq).
Qed.

Lemma scatter_fin (px : list (vec3 dbl)) :
  Forall fin_vec px -> px <> [] ->
  fin_mat (msub (outer_sum px) (mdiv (outer (vsum px) (vsum px)) (pixel_count px))).
Proof.
  intros Hpx Hne.
  pose proof (outer_sum_fold_fin px mzero Hpx ltac:(repeat split))
    as ((H00 & H01 & H02) & (H10 & H11 & H12) & (H20 & H21 & H22)).
  pose proof (vsum_fold_fin px vzero Hpx ltac:(repeat split)) as (Hs0 & Hs1 & Hs2).
  destruct (pixel_count_val px) as [Hn _].
  pose proof (pixel_count_nonzero px Hne) as Hnz.
  repeat split; cbn [msub mmap2 vmap2 mdiv mmap vmap outer row0 row1 row2 x0 x1 x2];
    apply dbl_sub_fin; try assumption;
    apply dbl_div_fin; try assumption; now apply dbl_mul_fin.
Qed.

Lemma class_pixels_nonempty (img : list Vec3b) :
  forall (classes : list Z) (id : Z),
    length classes = length img -> In id classes ->
    class_pixels (R := dbl) img classes id <> [].
Proof.
  unfold class_pixels.
  induction img as [|color img IH]; intros [|c classes] id Hlen Hin;
    try discriminate; try contradiction.
  cbn [combine filter snd]. destruct (Z.eqb_spec c id) as [->|Hne].
  - discriminate.
  - destruct Hin as [E|Hin]; [contradiction|].
    apply IH; [simpl in Hlen; lia|assumption].
Qed.

(** In exact arithmetic an eigen-solver whose top eigenvalue is not below
    the first diagonal entry meets the assumption, whatever the image. *)
Lemma spread_exact (eigen : mat33 dbl -> vec3 dbl * mat33 dbl) (img : list Vec3b) :
  dominates_diagonal eigen -> spread_above_minus_one eigen img.
Proof.
  intros Hdom classes id Hlen Hin.
  unfold top_eigenvalue. rewrite get_class_mean_cov_eq.
  cbn [covariance classid new_node].
  set (px := class_pixels img classes id).
  assert (Hpx : Forall fin_vec px).
  { unfold px, class_pixels. apply Forall_forall. intros v Hv.
    apply in_map_iff in Hv. destruct Hv as (c & <- & _). apply scaled_color_fin. }
  assert (Hne : px <> []) by now apply class_pixels_nonempty.
  destruct (scatter_corner px Hpx Hne) as (v & Hv & Hv0).
  specialize (Hdom _ (scatter_fin px Hpx Hne)). rewrite Hv in Hdom.
  destruct (x0 (fst (eigen _))) as [t| | |]; cbn in Hdom |- *;
    try discriminate; try reflexivity.
  destruct (Qcompare_spec v t) as [E|E|E]; try discriminate;
    destruct (Qcompare_spec t (-1)) as [F|F|F]; try reflexivity; lra.
Qed.

Lemma eigen_diag_dominates : dominates_diagonal eigen_diag.
Proof.
  intros [[a b c] [d e f] [g h i]] ((Ha & _) & (_ & He & _) & (_ & _ & Hi)).
  cbn [row0 row1 row2 x0 x1 x2] in *. fin_destruct.
  unfold eigen_diag. cbn [row0 row1 row2 x0 x1 x2 fst snd dbl_gtb].
  repeat match goal with
         | |- context [(?x ?= ?y)%Q] =>
             destruct (Qcompare_spec x y); cbn [fst snd negb dbl_leb dbl_gtb x0]
         end;
    try reflexivity; lra.
Qed.

(** ** Closed instances *)

(** The estimator on a black and a white pixel: the class has two pixels,
    the covariance stored has 1/2 in every entry, and the covariance in
    the words of the specification has 1/4. *)
Lemma covariance_is_not_canonical :
  pixel_count (class_pixels (R := dbl) img_bw [1; 1] 1) = Fin 2
  /\ covariance (get_class_mean_cov img_bw [1; 1] (new_node (R := dbl) 1))
     <> canonical_covariance (class_pixels img_bw [1; 1] 1).
Proof.
  split; [vm_compute; reflexivity|].
  vm_compute. intro H. discriminate H.
Qed.

(** What the check of the image data in both entry points keeps away.  On
    an image without pixels and a count of 3, after the first split both
    leaves hold NaN statistics, no top eigenvalue exceeds -1, the second
    round splits the root again, and two colours are returned. *)
Lemma empty_image_two_colors :
  1 <= 3 <= 255
  /\ length (find_dominant_colors eigen_diag img_empty 3) <> Z.to_nat 3.
Proof.
  split; [lia|]. vm_compute. intro H. discriminate H.
Qed.

(** [eigen_diag] meets the assumption on the eigen-solver, for the
    four-pixel image as for any other. *)
Lemma spread_img_four : spread_above_minus_one eigen_diag img_four.
Proof. apply spread_exact, eigen_diag_dominates. Qed.

Lemma find_dominant_colors_count_witness :
  img_four <> []
  /\ spread_above_minus_one eigen_diag img_four
  /\ 1 <= 3
  /\ length (find_dominant_colors eigen_diag img_four 3) = Z.to_nat 3.
Proof.
  assert (H1 : img_four <> []) by discriminate.
  assert (H2 : 1 <= 3) by lia.
  split; [exact H1|]. split; [exact spread_img_four|]. split; [exact H2|].
  exact (proj1 (proj2 (proj2 (proj2
           (find_dominant_colors_count eigen_diag img_four 3 H1 spread_img_four H2))))).
Defined.

(** A single pixel and a count of 2: the pixel goes to the left child, and
    the id 3 of the right child is the id of a leaf that no buffer entry
    carries. *)
Lemma leaf_id_absent_from_buffer :
  ~ (forall id : Z,
        In id (st_classes (steps eigen_diag 1 (initial_state img_one)))
        <-> In id (map classid
                       (get_leaves (st_root (steps eigen_diag 1 (initial_state img_one)))))).
Proof.
  intro H. destruct (H 3) as [_ H3].
  assert (Hin : In 3 (map classid
                    (get_leaves (st_root (steps eigen_diag 1 (initial_state img_one))))))
    by (vm_compute; auto).
  specialize (H3 Hin). vm_compute in H3. destruct H3 as [H3|[]]. discriminate H3.
Qed.

Lemma buffer_ids_are_leaf_ids_witness :
  spread_above_minus_one eigen_diag img_four
  /\ In 4 (st_classes (steps eigen_diag 2 (initial_state img_four)))
  /\ exists leaf,
      In leaf (get_leaves (st_root (steps eigen_diag 2 (initial_state img_four))))
      /\ classid leaf = 4.
Proof.
  assert (H2 : In 4 (st_classes (steps eigen_diag 2 (initial_state img_four))))
    by (vm_compute; auto).
  split; [exact spread_img_four|]. split; [exact H2|].
  exact (buffer_ids_are_leaf_ids eigen_diag img_four 2 4 spread_img_four H2).
Defined.

(** C5, at the failing input: a single pixel and a count of 130, which
    [main] accepts.  Before the 129th round the pixel belongs to the leaf of
    class 0, which is the node picked;
    [get_next_classid] answers 256, which the [uchar] parameter turns into
    0; the left child is given the parent's id, and the pixel still carries
    that id after the split. *)
Theorem split_129_keeps_parent_id :
  count_accepted 130 = true
  /\ is_leaf (snd (get_max_eigenvalue_node eigen_diag
                  (st_root (steps eigen_diag 128 (initial_state img_one))))) = true
  /\ classid (snd (get_max_eigenvalue_node eigen_diag
                     (st_root (steps eigen_diag 128 (initial_state img_one))))) = 0
  /\ st_classes (steps eigen_diag 128 (initial_state img_one)) = [0]
  /\ uchar_cast (get_next_classid
                   (st_root (steps eigen_diag 128 (initial_state img_one)))) = 0
  /\ st_classes (split_step eigen_diag (steps eigen_diag 128 (initial_state img_one)))
     = [0]
  /\ fst (run eigen_diag img_one 130) = 129.
Proof. vm_compute. repeat split; reflexivity. Qed.

(** The tree that the image without pixels, which no entry point passes
    on, leaves after one split: the root has two children, and the node
    returned by the search is the root, not a leaf. *)
Lemma search_returns_inner_root :
  left (st_root (steps eigen_diag 1 (initial_state img_empty))) <> None
  /\ ~ In (snd (get_max_eigenvalue_node eigen_diag
                  (st_root (steps eigen_diag 1 (initial_state img_empty)))))
          (get_leaves (st_root (steps eigen_diag 1 (initial_state img_empty)))).
Proof.
  split; [vm_compute; discriminate|].
  vm_compute. intros [H|[H|[]]]; discriminate H.
Qed.

Lemma split_step_frame_witness :
  nth_error (st_classes (steps eigen_diag 1 (initial_state img_four))) 0 = Some 2
  /\ 2 <> classid (snd (get_max_eigenvalue_node eigen_diag
                          (st_root (steps eigen_diag 1 (initial_state img_four)))))
  /\ nth_error (st_classes (split_step eigen_diag
                              (steps eigen_diag 1 (initial_state img_four)))) 0
     = Some 2.
Proof.
  assert (H1 : nth_error (st_classes (steps eigen_diag 1 (initial_state img_four))) 0
               = Some 2) by (vm_compute; reflexivity).
  assert (H2 : 2 <> classid (snd (get_max_eigenvalue_node eigen_diag
                 (st_root (steps eigen_diag 1 (initial_state img_four))))))
    by (vm_compute; discriminate).
  split; [exact H1|]. split; [exact H2|].
  exact (proj1 (proj2 (proj2
           (split_step_frame eigen_diag (steps eigen_diag 1 (initial_state img_four)))))
           0%nat 2 H1 H2).
Defined.

(** ** The palette strip *)

Lemma nth_error_indexed (A : Type) (l : list A) :
  forall (i : Z) (k : nat),
    nth_error (indexed i l) k
    = option_map (fun a => (i + Z.of_nat k, a)) (nth_error l k).
Proof.
  induction l as [|a l IH]; intros i [|k]; try reflexivity.
  - cbn [indexed nth_error option_map]. do 2 f_equal. lia.
  - cbn [indexed nth_error]. rewrite IH.
    destruct (nth_error l k); cbn [option_map]; [|reflexivity].
    do 2 f_equal. lia.
Qed.

Lemma pixel_at_rectangle (img : list (list Vec3b)) (x y width height : Z)
      (color : Vec3b) (r c : nat) :
  pixel_at (rectangle img x y width height color) r c
  = option_map (fun px =>
                  if (x <=? Z.of_nat c) && (Z.of_nat c <? x + width)
                     && (y <=? Z.of_nat r) && (Z.of_nat r <? y + height)
                  then color else px)
               (pixel_at img r c).
Proof.
  unfold pixel_at, rectangle.
  rewrite nth_error_map, nth_error_indexed.
  destruct (nth_error img r) as [row|]; cbn [option_map fst snd]; [|reflexivity].
  rewrite nth_error_map, nth_error_indexed.
  destruct (nth_error row c) as [px|]; cbn [option_map fst snd]; reflexivity.
Qed.

Lemma pixel_at_blank (rows cols : Z) (r c : nat) :
  pixel_at (blank rows cols) r c
  = if ((r <? Z.to_nat rows) && (c <? Z.to_nat cols))%nat
    then Some (mk_Vec3b 0 0 0) else None.
Proof.
  unfold pixel_at, blank.
  destruct (Nat.ltb_spec r (Z.to_nat rows)) as [Hr|Hr].
  - rewrite nth_error_repeat by assumption. cbn [andb].
    destruct (Nat.ltb_spec c (Z.to_nat cols)) as [Hc|Hc].
    + now rewrite nth_error_repeat by assumption.
    + apply nth_error_None. now rewrite repeat_length.
  - cbn [andb].
    rewrite (proj2 (nth_error_None _ _)); [reflexivity|].
    now rewrite repeat_length.
Qed.

Lemma Vec3b_eta (v : Vec3b) : mk_Vec3b (c0 v) (c1 v) (c2 v) = v.
Proof. now destruct v. Qed.

(* the tiles from the [i]th on, drawn over [ret] *)
Lemma pixel_at_tiles (colors : list Vec3b) :
  forall (i : Z) (ret : list (list Vec3b)) (r c : nat),
    pixel_at
      (fold_left (fun ret ic =>
                    rectangle ret (fst ic * tile_size) 0 tile_size tile_size
                              (mk_Vec3b (c0 (snd ic)) (c1 (snd ic)) (c2 (snd ic))))
                 (indexed i colors) ret) r c
    = option_map
        (fun px =>
           if (Z.of_nat r <? 64) && (i <=? Z.of_nat c / 64)
              && (Z.of_nat c / 64 <? i + Z.of_nat (length colors))
           then nth (Z.to_nat (Z.of_nat c / 64 - i)) colors (mk_Vec3b 0 0 0)
           else px)
        (pixel_at ret r c).
Proof.
  induction colors as [|a colors IH]; intros i ret r c.
  - cbn [indexed fold_left length].
    destruct (pixel_at ret r c) as [px|]; cbn [option_map]; [|reflexivity].
    destruct (Z.ltb_spec (Z.of_nat r) 64), (Z.leb_spec i (Z.of_nat c / 64)),
             (Z.ltb_spec (Z.of_nat c / 64) (i + Z.of_nat 0));
      cbn [andb]; try reflexivity; lia.
  - cbn [indexed fold_left fst snd]. rewrite IH, pixel_at_rectangle, Vec3b_eta.
    destruct (pixel_at ret r c) as [px|]; cbn [option_map]; [|reflexivity].
    f_equal. unfold tile_size.
    pose proof (Z.div_mod (Z.of_nat c) 64 ltac:(lia)) as Hdm.
    pose proof (Z.mod_pos_bound (Z.of_nat c) 64 ltac:(lia)) as Hm.
    set (q := Z.of_nat c / 64) in *.
    rewrite length_cons, Nat2Z.inj_succ.
    destruct (Z.ltb_spec (Z.of_nat r) 64), (Z.leb_spec (i + 1) q),
             (Z.ltb_spec q (i + 1 + Z.of_nat (length colors))),
             (Z.leb_spec i q), (Z.ltb_spec q (i + Z.succ (Z.of_nat (length colors)))),
             (Z.leb_spec (i * 64) (Z.of_nat c)),
             (Z.ltb_spec (Z.of_nat c) (i * 64 + 64)),
             (Z.leb_spec 0 (Z.of_nat r)), (Z.ltb_spec (Z.of_nat r) (0 + 64));
      cbn [andb]; try reflexivity; try lia.
    + replace (Z.to_nat (q - i)) with (S (Z.to_nat (q - (i + 1)))) by lia.
      reflexivity.
    + replace (q - i) with 0 by lia. reflexivity.
Qed.

Lemma pixel_at_palette (colors : list Vec3b) (r c : nat) :
  pixel_at (get_dominant_palette colors) r c
  = if (r <? 64)%nat then nth_error colors (c / 64) else None.
Proof.
  unfold get_dominant_palette. rewrite pixel_at_tiles, pixel_at_blank.
  unfold tile_size.
  pose proof (Nat2Z.inj_div c 64) as Hq. cbn [Z.of_nat] in Hq.
  change (Z.pos (Pos.of_succ_nat 63)) with 64 in Hq.
  pose proof (Z.div_mod (Z.of_nat c) 64 ltac:(lia)) as Hdm.
  pose proof (Z.mod_pos_bound (Z.of_nat c) 64 ltac:(lia)) as Hm.
  rewrite <- Hq in *.
  destruct (Nat.ltb_spec r (Z.to_nat 64)) as [Hr|Hr];
    destruct (Nat.ltb_spec r 64) as [Hr'|Hr']; try lia; cbn [andb option_map].
  - destruct (Nat.ltb_spec c (Z.to_nat (64 * Z.of_nat (length colors)))) as [Hc|Hc];
      cbn [option_map].
    + destruct (Z.ltb_spec (Z.of_nat r) 64), (Z.leb_spec 0 (Z.of_nat (c / 64))),
               (Z.ltb_spec (Z.of_nat (c / 64)) (0 + Z.of_nat (length colors)));
        cbn [andb]; try lia.
      rewrite Z.sub_0_r, Nat2Z.id. symmetry. apply nth_error_nth'. lia.
    + symmetry. apply nth_error_None. lia.
  - reflexivity.
Qed.

(** X13: [get_dominant_palette] draws a strip of 64 rows in which the
    pixel of column [c] has the colour number [c / 64] of the list: one
    64 by 64 tile per colour, in the order of the list, and no pixel
    outside these tiles (no strip at all for an empty list). *)
Theorem get_dominant_palette_spec (colors : list Vec3b) (r c : nat) :
  pixel_at (get_dominant_palette colors) r c
  = if (r <? 64)%nat then nth_error colors (c / 64) else None.
Proof. apply pixel_at_palette. Qed.

(** ** Further properties: the traversals, the outputs, the entry points *)

Section Coverage.
Context {R : Type} {SR : Scalar R}.
Variable eigen : mat33 R -> vec3 R * mat33 R.
#[local] Abbreviation node := (t_color_node R).

(** *** The traversals on any tree *)

(** X1: [get_next_classid] answers a positive number above every class id
    of the tree, and the least such: one more than the greatest id, or 1
    when no id is positive. *)
Theorem get_next_classid_above_ids (root : node) :
  1 <= get_next_classid root
  /\ (forall x, In x (ids root) -> x < get_next_classid root)
  /\ (get_next_classid root = 1 \/ In (get_next_classid root - 1) (ids root)).
Proof.
  destruct (get_next_classid_spec root) as (H1 & H2 & H3).
  split; [lia|]. split.
  - intros x Hx. specialize (H2 x Hx). lia.
  - destruct H3 as [H3|H3]; [left; lia|now right].
Qed.

Lemma leaves_dfs_nonempty (n : node) : (1 <= length (leaves_dfs n))%nat.
Proof.
  induction n as [m c i l r Hl Hr] using node_ind.
  destruct l as [a|], r as [b|]; simpl in *; try lia.
  rewrite length_app. lia.
Qed.

(** X2: [get_leaves] returns the nodes that lack a child and are reached
    from the root through nodes with both children: each of them once,
    nothing else, and at least one. *)
Theorem get_leaves_spec (root : node) :
  Permutation (get_leaves root) (leaves_dfs root)
  /\ Forall (fun leaf => is_leaf leaf = true) (get_leaves root)
  /\ Forall (fun leaf => exists p, lookup root p = Some leaf) (get_leaves root)
  /\ (1 <= length (get_leaves root))%nat.
Proof.
  split; [apply get_leaves_perm|]. split; [|split].
  - rewrite <- leaf_ptrs_snd, Forall_map. apply leaf_ptrs_is_leaf.
  - rewrite <- leaf_ptrs_snd, Forall_map.
    eapply Forall_impl; [|apply leaf_ptrs_valid].
    intros [p n] H. exists p. exact H.
  - rewrite (Permutation_length (get_leaves_perm root)).
    apply leaves_dfs_nonempty.
Qed.

(** X3: whatever the eigenvalues, the pointer that
    [get_max_eigenvalue_node] returns points into the tree it was given,
    and the node it points to is the root itself or one of the leaves:
    never an inner node below the root. *)
Theorem get_max_eigenvalue_node_root_or_leaf (root : node) :
  lookup root (fst (get_max_eigenvalue_node eigen root))
  = Some (snd (get_max_eigenvalue_node eigen root))
  /\ (get_max_eigenvalue_node eigen root = ([], root)
      \/ (In (snd (get_max_eigenvalue_node eigen root)) (get_leaves root)
          /\ is_leaf (snd (get_max_eigenvalue_node eigen root)) = true)).
Proof.
  split; [apply get_max_eigenvalue_node_valid|].
  destruct (get_max_eigenvalue_node_cases eigen root) as [H|H]; [now left|].
  right. split.
  - rewrite <- leaf_ptrs_snd. now apply in_map.
  - exact (proj1 (Forall_forall _ _) (leaf_ptrs_is_leaf root) _ H).
Qed.

(** *** The order of the leaves *)

Lemma sorted_app_last (l : list nat) (x : nat) :
  StronglySorted le l -> Forall (fun y => (y <= x)%nat) l ->
  StronglySorted le (l ++ [x]).
Proof.
  induction 1 as [|a l Hs IH Ha]; intro Hl; simpl.
  - repeat constructor.
  - inversion Hl; subst. constructor; [now apply IH|].
    apply Forall_app. split; [assumption|now constructor].
Qed.

(* one level after the other: the queue holds nodes of the depths [d] and
   [d + 1], the shallower ones in front, and the leaves found so far are
   no deeper than [d] *)
Lemma leaf_ptrs_loop_levels (fuel : nat) :
  forall (q acc : list (path * node)) (d : nat),
    StronglySorted le (map (fun pn => length (fst pn)) acc) ->
    Forall (fun pn => (length (fst pn) <= d)%nat) acc ->
    StronglySorted le (map (fun pn => length (fst pn)) q) ->
    Forall (fun pn => (d <= length (fst pn) <= S d)%nat) q ->
    StronglySorted le (map (fun pn => length (fst pn))
                           (leaf_ptrs_loop fuel q acc)).
Proof.
  induction fuel as [|fuel IH]; intros q acc d Hsa Ha Hsq Hq; [assumption|].
  destruct q as [|[p n] rest]; [assumption|].
  cbn [leaf_ptrs_loop].
  inversion Hq as [|? ? Hp Hrest]; subst. cbn [fst] in Hp.
  cbn [map fst] in Hsq. inversion Hsq as [|? ? Hsr Hle]; subst.
  rewrite Forall_map in Hle.
  assert (Hrest' : Forall (fun pn => (length p <= length (fst pn) <= S (length p))%nat)
                          rest).
  { apply Forall_forall. intros x Hx.
    pose proof (proj1 (Forall_forall _ _) Hrest x Hx).
    pose proof (proj1 (Forall_forall _ _) Hle x Hx). cbv beta in *. lia. }
  assert (Ha' : Forall (fun pn => (length (fst pn) <= length p)%nat) acc).
  { eapply Forall_impl; [|exact Ha]. cbv beta. intros; lia. }
  assert (Hleaf : StronglySorted le
                    (map (fun pn => length (fst pn))
                         (leaf_ptrs_loop fuel rest (acc ++ [(p, n)])))).
  { apply (IH rest (acc ++ [(p, n)]) (length p)); try assumption.
    - rewrite map_app. cbn [map fst]. apply sorted_app_last; [assumption|].
      now rewrite Forall_map.
    - apply Forall_app. split; [assumption|]. constructor; [cbn; lia|constructor]. }
  destruct (left n) as [l|], (right n) as [r|]; try exact Hleaf.
  apply (IH _ acc (length p)); try assumption.
  - rewrite map_app. cbn [map fst].
    change [length (p ++ [L]); length (p ++ [R_])]
      with ([length (p ++ [L])] ++ [length (p ++ [R_])]).
    rewrite app_assoc.
    apply sorted_app_last; [apply sorted_app_last; [assumption|]|].
    + rewrite Forall_map. eapply Forall_impl; [|exact Hrest'].
      cbv beta. intros x Hx. rewrite length_app. simpl. lia.
    + apply Forall_app. split.
      * rewrite Forall_map. eapply Forall_impl; [|exact Hrest'].
        cbv beta. intros x Hx. rewrite length_app. simpl. lia.
      * constructor; [|constructor]. rewrite !length_app. simpl. lia.
  - apply Forall_app. split; [assumption|].
    constructor; [cbn [fst]; rewrite length_app; simpl; lia|].
    constructor; [cbn [fst]; rewrite length_app; simpl; lia|constructor].
Qed.

(** X21: [get_leaves] lists the leaves level by level: with each leaf
    taken together with the chain of pointers that leads to it from the
    root, the lengths of these chains never decrease along the list, so a
    leaf nearer the root comes before a deeper one (and so do their
    colours in the list of [get_dominant_colors]). *)
Theorem get_leaves_level_order (root : node) :
  map snd (leaf_ptrs root) = get_leaves root
  /\ Forall (fun pn => lookup root (fst pn) = Some (snd pn)) (leaf_ptrs root)
  /\ StronglySorted le (map (fun pn => length (fst pn)) (leaf_ptrs root)).
Proof.
  split; [apply leaf_ptrs_snd|]. split; [apply leaf_ptrs_valid|].
  unfold leaf_ptrs. apply (leaf_ptrs_loop_levels _ _ _ O).
  - constructor.
  - constructor.
  - cbn [map fst length]. constructor; constructor.
  - constructor; [cbn [fst length]; lia|constructor].
Qed.

(** *** Ties in the search *)

(* the leaf picked beats the bound it started from, and no leaf met
   before it has its top eigenvalue *)
Lemma fold_pick_first
      (gtb_irrefl : forall a : R, r_gtb a a = false)
      (gtb_trans : forall a b c : R,
          r_gtb a b = true -> r_gtb b c = true -> r_gtb a c = true)
      (l : list (path * node)) :
  forall (mx : R) (ret : path * node) (calls : nat),
    let st := fold_left (pick_step eigen) l (mx, ret, calls) in
    (snd (fst st) = ret
     /\ Forall (fun pn => r_gtb (top_eigenvalue eigen (snd pn)) mx = false) l)
    \/ (exists l1 l2,
           l = l1 ++ snd (fst st) :: l2
           /\ r_gtb (top_eigenvalue eigen (snd (snd (fst st)))) mx = true
           /\ Forall (fun pn => top_eigenvalue eigen (snd pn)
                                <> top_eigenvalue eigen (snd (snd (fst st)))) l1).
Proof.
  induction l as [|x l IH]; intros mx ret calls; cbn [fold_left pick_step].
  - left. split; [reflexivity|constructor].
  - destruct (r_gtb (top_eigenvalue eigen (snd x)) mx) eqn:Hx.
    + right.
      destruct (IH (top_eigenvalue eigen (snd x)) x (S calls))
        as [(H1 & H2)|(l1 & l2 & H1 & H2 & H3)].
      * exists [], l. rewrite H1. repeat split; auto.
      * exists (x :: l1), l2. split; [now rewrite H1 at 1|].
        split; [eapply gtb_trans; eauto|].
        constructor; [|assumption].
        intro E. rewrite <- E, gtb_irrefl in H2. discriminate.
    + destruct (IH mx ret (S calls)) as [(H1 & H2)|(l1 & l2 & H1 & H2 & H3)].
      * left. split; [assumption|]. now constructor.
      * right. exists (x :: l1), l2. split; [now rewrite H1 at 1|].
        split; [assumption|]. constructor; [|assumption].
        intro E. rewrite E, H2 in Hx. discriminate.
Qed.

(** X20: ties go to the leaf met first.  When [>] on the scalars is a
    strict order and some leaf has a top eigenvalue above -1, the leaf
    returned by [get_max_eigenvalue_node] stands in the list of
    [get_leaves] after leaves whose top eigenvalues all differ from its
    own: with the comparison being strict, a later leaf of equal
    eigenvalue never replaces it. *)
Theorem get_max_eigenvalue_node_first (root : node) :
  (forall a : R, r_gtb a a = false) ->
  (forall a b c : R, r_gtb a b = true -> r_gtb b c = true -> r_gtb a c = true) ->
  left root <> None \/ right root <> None ->
  Exists (fun leaf => r_gtb (top_eigenvalue eigen leaf) r_minus_one = true)
         (get_leaves root) ->
  exists l1 l2,
    get_leaves root = l1 ++ snd (get_max_eigenvalue_node eigen root) :: l2
    /\ Forall (fun leaf =>
                 top_eigenvalue eigen leaf
                 <> top_eigenvalue eigen (snd (get_max_eigenvalue_node eigen root)))
              l1.
Proof.
  intros Hirr Htrans Hch Hex. unfold get_max_eigenvalue_node.
  rewrite (search_children eigen root Hch). cbn [fst].
  destruct (fold_pick_first Hirr Htrans (leaf_ptrs root) r_minus_one ([], root) O)
    as [(_ & Hall)|(l1 & l2 & H1 & _ & H3)].
  - exfalso. rewrite <- leaf_ptrs_snd in Hex.
    apply Exists_exists in Hex. destruct Hex as (x & Hx & Hgt).
    apply in_map_iff in Hx. destruct Hx as (pn & <- & Hpn).
    rewrite (proj1 (Forall_forall _ _) Hall pn Hpn) in Hgt. discriminate.
  - exists (map snd l1), (map snd l2). split.
    + rewrite <- leaf_ptrs_snd. rewrite H1 at 1. now rewrite map_app.
    + now rewrite Forall_map.
Qed.

(** *** The tree and the colours of any run *)

Lemma size_leaves (n : node) :
  wf n -> (size n + 1 = 2 * length (leaves_dfs n))%nat.
Proof.
  induction n as [m c i l r Hl Hr] using node_ind.
  destruct l as [a|], r as [b|]; simpl in *; try tauto; try lia.
  intros [Ha Hb]. rewrite length_app.
  specialize (Hl Ha). specialize (Hr Hb). lia.
Qed.

(** X4: in the tree of any run, on any image and for any count, no node
    has a single child (partitioning always creates both children), the
    root keeps the class id 1, and the nodes number twice the leaves less
    one. *)
Theorem run_tree_shape (img : list Vec3b) (count : Z) :
  wf (st_root (snd (run eigen img count)))
  /\ classid (st_root (snd (run eigen img count))) = 1
  /\ (size (st_root (snd (run eigen img count))) + 1
      = 2 * length (get_leaves (st_root (snd (run eigen img count)))))%nat.
Proof.
  rewrite run_steps. cbn [snd].
  assert (Hwf : wf (st_root (steps eigen (Z.to_nat (count - 1)) (initial_state img))))
    by (apply wf_steps, wf_initial).
  split; [exact Hwf|]. split; [apply root_classid_steps|].
  rewrite (Permutation_length (get_leaves_perm _)). now apply size_leaves.
Qed.

(* a round splits a leaf, which adds a leaf, or splits the root again,
   which leaves two *)
Lemma leaves_split_step_any (s : state) :
  wf (st_root s) ->
  length (leaves_dfs (st_root (split_step eigen s)))
  = S (length (leaves_dfs (st_root s)))
  \/ length (leaves_dfs (st_root (split_step eigen s))) = 2%nat.
Proof.
  intro Hwf.
  destruct (is_leaf (snd (get_max_eigenvalue_node eigen (st_root s)))) eqn:Hleaf.
  - left. now apply leaves_split_step.
  - right.
    destruct (get_max_eigenvalue_node_cases eigen (st_root s)) as [H|H].
    + rewrite split_step_eq, H. cbn [st_root fst snd update_at leaves_dfs].
      rewrite !(is_leaf_leaves_dfs _ (is_leaf_estimate_new _ _ _)). reflexivity.
    + pose proof (proj1 (Forall_forall _ _) (leaf_ptrs_is_leaf (st_root s)) _ H) as E.
      rewrite E in Hleaf. discriminate.
Qed.

Lemma leaves_steps_any (img : list Vec3b) (k : nat) :
  (Nat.min 2 (S k) <= length (leaves_dfs (st_root (steps eigen k (initial_state img))))
   <= S k)%nat.
Proof.
  induction k as [|k IH].
  - simpl. unfold initial_state. cbn [st_root].
    rewrite (is_leaf_leaves_dfs _ (is_leaf_estimate_new _ _ _)). simpl. lia.
  - rewrite steps_succ.
    destruct (leaves_split_step_any (steps eigen k (initial_state img)))
      as [E|E]; [apply wf_steps, wf_initial| |]; rewrite E; lia.
Qed.

(** X5: whatever the image (an image without pixels included), the
    eigen-solver and the [int] count above INT_MIN (for which [count - 1]
    is defined), [find_dominant_colors] returns at least one colour, at
    least two when the count is two or more, and never more colours than
    the count asks for. *)
Theorem find_dominant_colors_bounds (img : list Vec3b) (count : Z) :
  INT_MIN < count <= INT_MAX ->
  Z.min 2 (Z.max 1 count)
  <= Z.of_nat (length (find_dominant_colors eigen img count))
  <= Z.max 1 count.
Proof.
  intros _.
  unfold find_dominant_colors, get_dominant_colors.
  rewrite length_map, run_steps. cbn [snd].
  rewrite (Permutation_length (get_leaves_perm _)).
  pose proof (leaves_steps_any img (Z.to_nat (count - 1))). lia.
Qed.

Lemma output_lengths (img : list Vec3b) (count : Z) :
  st_img (snd (run eigen img count)) = img
  /\ length (st_classes (snd (run eigen img count))) = length img
  /\ length (quantized_output eigen img count) = length img
  /\ length (viewable_output eigen img count) = length img.
Proof.
  assert (Hlen : length (st_classes (snd (run eigen img count))) = length img).
  { rewrite run_steps. cbn [snd]. rewrite steps_length.
    unfold initial_state. cbn [st_classes]. apply length_map. }
  split; [rewrite run_steps; cbn [snd]; now rewrite steps_img|].
  split; [exact Hlen|]. split.
  - unfold quantized_output, get_quantized_image. now rewrite length_map.
  - unfold viewable_output, get_viewable_image.
    rewrite viewable_fold. cbn [fst app]. now rewrite length_map.
Qed.

(** X6: the run never writes the image, and the class buffer and the two
    images computed from it have one entry per pixel of the image. *)
Theorem outputs_have_image_size (img : list Vec3b) (count : Z) :
  st_img (snd (run eigen img count)) = img
  /\ length (st_classes (snd (run eigen img count))) = length img
  /\ length (quantized_output eigen img count) = length img
  /\ length (viewable_output eigen img count) = length img.
Proof. apply output_lengths. Qed.

(** X7: an [int] count of 1 or less, zero and the negative numbers above
    INT_MIN included (for INT_MIN itself [count - 1] overflows), makes no
    round: the condition of the loop fails at its first test, whatever the
    fuel, the tree is the single root, every pixel keeps class 1, and the
    one colour of a count of 1 is returned. *)
Theorem find_dominant_colors_no_split (img : list Vec3b) (count : Z) :
  INT_MIN < count <= 1 ->
  (0 <? count - 1) = false
  /\ (forall fuel, split_loop eigen fuel 0 count (initial_state img)
                   = (0, initial_state img))
  /\ run eigen img count = (0, initial_state img)
  /\ find_dominant_colors eigen img count = find_dominant_colors eigen img 1
  /\ length (find_dominant_colors eigen img count) = 1%nat.
Proof.
  intro Hc.
  assert (Hcond : (0 <? count - 1) = false) by (apply Z.ltb_ge; lia).
  split; [exact Hcond|].
  split; [intros [|fuel]; cbn [split_loop]; [|rewrite Hcond]; reflexivity|].
  assert (E : run eigen img count = (0, initial_state img)).
  { rewrite run_steps. replace (Z.to_nat (count - 1)) with O by lia.
    simpl. f_equal. lia. }
  split; [exact E|].
  assert (E1 : find_dominant_colors eigen img count = find_dominant_colors eigen img 1).
  { unfold find_dominant_colors. now rewrite E. }
  split; [exact E1|]. now rewrite E1, single_color.
Qed.

(** *** The quantised image *)

Lemma find_app_last (A : Type) (p : A -> bool) (l : list A) (x : A) :
  find p (l ++ [x])
  = match find p l with
    | Some y => Some y
    | None => if p x then Some x else None
    end.
Proof.
  induction l as [|a l IH]; simpl; [reflexivity|].
  destruct (p a); [reflexivity|exact IH].
Qed.

(* the last leaf of the id wins; without one the pixel keeps its value *)
Lemma quantized_pixel_fold (leaves : list node) (c : Z) :
  forall px : Vec3b,
    fold_left (fun px leaf =>
                 if classid leaf =? c then to_Vec3b (mean leaf) else px)
              leaves px
    = match find (fun leaf => classid leaf =? c) (rev leaves) with
      | Some leaf => to_Vec3b (mean leaf)
      | None => px
      end.
Proof.
  induction leaves as [|x l IH]; intro px; [reflexivity|].
  cbn [fold_left rev]. rewrite IH, find_app_last.
  destruct (find _ (rev l)); [reflexivity|].
  now destruct (classid x =? c).
Qed.

(** X8: [get_quantized_image] paints each pixel with the colour of the
    last leaf that carries the pixel's class id, and leaves it black, as
    the image was created, when no leaf carries that id; so every pixel of
    the result is black or one of the colours of [get_dominant_colors]. *)
Theorem get_quantized_image_spec (classes : list Z) (root : node) :
  get_quantized_image classes root
  = map (fun c => match find (fun leaf => classid leaf =? c)
                             (rev (get_leaves root)) with
                  | Some leaf => to_Vec3b (mean leaf)
                  | None => mk_Vec3b 0 0 0
                  end) classes
  /\ Forall (fun px => px = mk_Vec3b 0 0 0 \/ In px (get_dominant_colors root))
            (get_quantized_image classes root).
Proof.
  assert (E : forall c, quantized_pixel (get_leaves root) c
                        = match find (fun leaf => classid leaf =? c)
                                     (rev (get_leaves root)) with
                          | Some leaf => to_Vec3b (mean leaf)
                          | None => mk_Vec3b 0 0 0
                          end).
  { intro c. unfold quantized_pixel. now rewrite quantized_pixel_fold. }
  unfold get_quantized_image. split.
  - apply map_ext. exact E.
  - apply Forall_forall. intros px Hpx.
    apply in_map_iff in Hpx. destruct Hpx as (c & <- & _). rewrite E.
    destruct (find _ (rev (get_leaves root))) as [leaf|] eqn:F; [|now left].
    right. apply find_some in F. destruct F as [F _].
    apply in_rev in F. unfold get_dominant_colors.
    apply in_map_iff. now exists leaf.
Qed.

(** *** The class ids of the tree *)

Lemma NoDup_app_inv (A : Type) (l1 l2 : list A) :
  NoDup (l1 ++ l2) ->
  NoDup l1 /\ NoDup l2 /\ forall a, In a l1 -> ~ In a l2.
Proof.
  intro H. split; [now apply NoDup_app_remove_r in H|].
  split; [now apply NoDup_app_remove_l in H|].
  induction l1 as [|x l1 IH]; intros a Ha; [contradiction|].
  simpl in H. inversion H as [|? ? Hx Hn]; subst. destruct Ha as [<-|Ha].
  - intro Hin. apply Hx. apply in_app_iff. now right.
  - now apply IH.
Qed.

(* a subtree is replaced by one whose ids are ids of the old subtree or
   new to the tree *)
Lemma ids_update_at_NoDup (p : path) (f : node -> node) :
  forall n m : node,
    lookup n p = Some m -> NoDup (ids n) -> NoDup (ids (f m)) ->
    (forall x, In x (ids (f m)) -> In x (ids m) \/ ~ In x (ids n)) ->
    NoDup (ids (update_at n p f)).
Proof.
  induction p as [|d p IH]; intros n m H Hn Hf Hfresh; simpl in H.
  - inversion H; subst. exact Hf.
  - destruct n as [mu c i l r]. destruct d; cbn [child left right] in H.
    + destruct l as [a|]; [|discriminate]. cbn [update_at ids] in *.
      set (rs := match r with Some b => ids b | None => [] end) in *.
      inversion Hn as [|? ? Hi Hrest]; subst.
      apply NoDup_app_inv in Hrest. destruct Hrest as (Ha & Hr & Hdis).
      assert (Hsub : forall x, In x (ids (update_at a p f)) ->
                               In x (ids a) \/ ~ In x (i :: ids a ++ rs)).
      { intros x Hx. destruct (ids_update_at p f a m x H Hx) as [Hx'|Hx']; [now left|].
        destruct (Hfresh x Hx') as [Hm|Hm]; [left|now right].
        exact (lookup_ids p a m H x Hm). }
      constructor.
      * intro Hin. apply in_app_iff in Hin. destruct Hin as [Hin|Hin].
        -- destruct (Hsub i Hin) as [Hin'|Hin'].
           ++ apply Hi. apply in_app_iff. now left.
           ++ apply Hin'. now left.
        -- apply Hi. apply in_app_iff. now right.
      * apply NoDup_app; [|exact Hr|].
        -- apply (IH a m H Ha Hf). intros x Hx.
           destruct (Hfresh x Hx) as [Hm|Hm]; [now left|right].
           intro Hin. apply Hm. right. apply in_app_iff. now left.
        -- intros x Hx Hxr. destruct (Hsub x Hx) as [Hin|Hin].
           ++ exact (Hdis x Hin Hxr).
           ++ apply Hin. right. apply in_app_iff. now right.
    + destruct r as [b|]; [|discriminate]. cbn [update_at ids] in *.
      set (ls := match l with Some a => ids a | None => [] end) in *.
      inversion Hn as [|? ? Hi Hrest]; subst.
      apply NoDup_app_inv in Hrest. destruct Hrest as (Hl & Hb & Hdis).
      assert (Hsub : forall x, In x (ids (update_at b p f)) ->
                               In x (ids b) \/ ~ In x (i :: ls ++ ids b)).
      { intros x Hx. destruct (ids_update_at p f b m x H Hx) as [Hx'|Hx']; [now left|].
        destruct (Hfresh x Hx') as [Hm|Hm]; [left|now right].
        exact (lookup_ids p b m H x Hm). }
      constructor.
      * intro Hin. apply in_app_iff in Hin. destruct Hin as [Hin|Hin].
        -- apply Hi. apply in_app_iff. now left.
        -- destruct (Hsub i Hin) as [Hin'|Hin'].
           ++ apply Hi. apply in_app_iff. now right.
           ++ apply Hin'. now left.
      * apply NoDup_app; [exact Hl| |].
        -- apply (IH b m H Hb Hf). intros x Hx.
           destruct (Hfresh x Hx) as [Hm|Hm]; [now left|right].
           intro Hin. apply Hm. right. apply in_app_iff. now right.
        -- intros x Hxl Hx. destruct (Hsub x Hx) as [Hin|Hin].
           ++ exact (Hdis x Hxl Hin).
           ++ apply Hin. right. apply in_app_iff. now left.
Qed.

Lemma ids_NoDup_split_step (s : state) (M : Z) :
  0 <= M -> M + 2 <= 255 ->
  In M (ids (st_root s)) -> (forall x, In x (ids (st_root s)) -> x <= M) ->
  NoDup (ids (st_root s)) -> NoDup (ids (st_root (split_step eigen s))).
Proof.
  intros H0 H255 Hin Hle Hnd.
  pose proof (get_max_eigenvalue_node_valid eigen (st_root s)) as Hv.
  pose proof (picked_classid_in_ids eigen s) as Hn.
  rewrite split_step_eq. cbn [st_root].
  rewrite (get_next_classid_max _ M H0 Hin Hle).
  rewrite (uchar_cast_small (M + 1)) by lia.
  rewrite (uchar_cast_small (M + 1 + 1)) by lia.
  eapply ids_update_at_NoDup; [exact Hv|exact Hnd| |];
    cbn [ids]; rewrite !ids_estimate_new; cbn [app].
  - pose proof (Hle _ Hn).
    constructor; [intros [E|[E|[]]]; lia|].
    constructor; [intros [E|[]]; lia|]. constructor; [intros []|constructor].
  - intros x [<-|[<-|[<-|[]]]].
    + left. apply classid_in_ids.
    + right. intro Hx. specialize (Hle _ Hx). lia.
    + right. intro Hx. specialize (Hle _ Hx). lia.
Qed.

Lemma ids_NoDup_steps (img : list Vec3b) (k : nat) :
  (k <= 127)%nat -> NoDup (ids (st_root (steps eigen k (initial_state img)))).
Proof.
  induction k as [|k IH]; intro Hk.
  - simpl. unfold initial_state. cbn [st_root]. rewrite ids_estimate_new.
    constructor; [intros []|constructor].
  - rewrite steps_succ. destruct (ids_steps eigen img k ltac:(lia)) as [H1 H2].
    eapply ids_NoDup_split_step; eauto; try lia. apply IH. lia.
Qed.

(** X22: for a count of up to 128, on any image and with any eigen-solver,
    no two nodes of the final tree share a class id, and the greatest id
    handed out is twice the count less one. *)
Theorem class_ids_unique (img : list Vec3b) (count : Z) :
  1 <= count <= 128 ->
  NoDup (ids (st_root (snd (run eigen img count))))
  /\ In (2 * count - 1) (ids (st_root (snd (run eigen img count))))
  /\ Forall (fun x => x <= 2 * count - 1)
            (ids (st_root (snd (run eigen img count)))).
Proof.
  intro Hc. rewrite run_steps. cbn [snd].
  destruct (ids_steps eigen img (Z.to_nat (count - 1)) ltac:(lia)) as [H1 H2].
  replace (2 * Z.of_nat (Z.to_nat (count - 1)) + 1) with (2 * count - 1) in * by lia.
  split; [apply ids_NoDup_steps; lia|]. split; [exact H1|].
  apply Forall_forall. exact H2.
Qed.

(** *** The leaves and the pixels at the end of a run *)

(* what holds at the end of a run of up to 127 rounds on an image with a
   pixel *)
Lemma run_current (img : list Vec3b) (count : Z) :
  img <> [] -> spread_above_minus_one eigen img -> 1 <= count <= 128 ->
  leaf_ids_distinct (snd (run eigen img count))
  /\ leaf_stats_current (snd (run eigen img count))
  /\ buffer_in_leaves (snd (run eigen img count))
  /\ st_img (snd (run eigen img count)) = img.
Proof.
  intros Himg Hspread Hc. rewrite run_steps. cbn [snd].
  destruct (current_steps eigen img (Z.to_nat (count - 1)) Himg Hspread ltac:(lia))
    as [Hnd Hcur].
  split; [exact Hnd|]. split; [exact Hcur|]. split; [|apply steps_img].
  apply buffer_in_leaves_steps;
    auto using wf_initial, initial_length, buffer_in_leaves_initial,
               picks_leaves_spread.
Qed.

(** X9: at the end of a run for a count of up to 128, on an image with a
    pixel, the leaves carry pairwise different class ids, and each leaf
    holds the statistics of the pixels that carry its id in the final
    buffer: their sum divided by their number as the mean, and the
    covariance as the estimator forms it. *)
Theorem leaf_statistics_current (img : list Vec3b) (count : Z) :
  img <> [] -> spread_above_minus_one eigen img -> 1 <= count <= 128 ->
  NoDup (map classid (get_leaves (st_root (snd (run eigen img count)))))
  /\ Forall
       (fun leaf =>
          mean leaf
          = vdiv (vsum (class_pixels img (st_classes (snd (run eigen img count)))
                                     (classid leaf)))
                 (pixel_count (class_pixels img (st_classes (snd (run eigen img count)))
                                            (classid leaf)))
          /\ covariance leaf
             = msub (outer_sum (class_pixels img (st_classes (snd (run eigen img count)))
                                             (classid leaf)))
                    (mdiv (outer (vsum (class_pixels img
                                          (st_classes (snd (run eigen img count)))
                                          (classid leaf)))
                                 (vsum (class_pixels img
                                          (st_classes (snd (run eigen img count)))
                                          (classid leaf))))
                          (pixel_count (class_pixels img
                                          (st_classes (snd (run eigen img count)))
                                          (classid leaf)))))
       (get_leaves (st_root (snd (run eigen img count)))).
Proof.
  intros Himg Hspread Hc.
  destruct (run_current img count Himg Hspread Hc) as (Hnd & Hcur & _ & Hi).
  split.
  - eapply Permutation_NoDup; [|exact Hnd].
    apply Permutation_map. symmetry. apply get_leaves_perm.
  - apply Forall_forall. intros leaf Hin.
    apply (Permutation_in _ (get_leaves_perm _)) in Hin.
    specialize (Hcur leaf Hin). rewrite Hi in Hcur.
    split; rewrite Hcur at 1; now rewrite get_class_mean_cov_eq.
Qed.

(** X10: at the end of such a run every pixel of the quantised image is
    the mean colour of the pixels that share its class in the final
    buffer: in each channel, the sum over these pixels of the channel
    value divided by 255, divided by their number, multiplied by 255 and
    converted to a byte (all in the arithmetic of the code); and it is one
    of the colours returned. *)
Theorem quantized_output_class_means (img : list Vec3b) (count : Z) :
  img <> [] -> spread_above_minus_one eigen img -> 1 <= count <= 128 ->
  quantized_output eigen img count
  = map (fun c =>
           mk_Vec3b
             (r_to_uchar
                (r_mul
                   (r_div
                      (fold_left
                         (fun acc px =>
                            r_add acc (r_div (r_of_uchar (c0 px)) r_255))
                         (class_members img (st_classes (snd (run eigen img count))) c)
                         r_zero)
                      (fold_left
                         (fun acc _ => r_add acc r_one)
                         (class_members img (st_classes (snd (run eigen img count))) c)
                         r_zero))
                   r_255))
             (r_to_uchar
                (r_mul
                   (r_div
                      (fold_left
                         (fun acc px =>
                            r_add acc (r_div (r_of_uchar (c1 px)) r_255))
                         (class_members img (st_classes (snd (run eigen img count))) c)
                         r_zero)
                      (fold_left
                         (fun acc _ => r_add acc r_one)
                         (class_members img (st_classes (snd (run eigen img count))) c)
                         r_zero))
                   r_255))
             (r_to_uchar
                (r_mul
                   (r_div
                      (fold_left
                         (fun acc px =>
                            r_add acc (r_div (r_of_uchar (c2 px)) r_255))
                         (class_members img (st_classes (snd (run eigen img count))) c)
                         r_zero)
                      (fold_left
                         (fun acc _ => r_add acc r_one)
                         (class_members img (st_classes (snd (run eigen img count))) c)
                         r_zero))
                   r_255)))
        (st_classes (snd (run eigen img count)))
  /\ Forall (fun px => In px (find_dominant_colors eigen img count))
            (quantized_output eigen img count).
Proof.
  intros Himg Hspread Hc.
  destruct (run_current img count Himg Hspread Hc) as (_ & Hcur & Hbuf & Hi).
  assert (E : forall c,
             In c (st_classes (snd (run eigen img count))) ->
             exists leaf,
               In leaf (get_leaves (st_root (snd (run eigen img count))))
               /\ classid leaf = c
               /\ quantized_pixel (get_leaves (st_root (snd (run eigen img count)))) c
                  = to_Vec3b (mean leaf)).
  { intros c Hin. destruct (Hbuf c Hin) as (leaf & Hl & Hid).
    unfold quantized_pixel. rewrite quantized_pixel_fold.
    destruct (find _ (rev (get_leaves _))) as [y|] eqn:F.
    - apply find_some in F. destruct F as [Fin Fid].
      apply in_rev in Fin. apply Z.eqb_eq in Fid. now exists y.
    - exfalso.
      pose proof (find_none _ _ F leaf) as N. cbv beta in N.
      rewrite Hid, Z.eqb_refl in N.
      assert (N' : true = false); [|discriminate N'].
      apply N. apply -> in_rev.
      eapply Permutation_in; [symmetry; apply get_leaves_perm|exact Hl]. }
  unfold quantized_output, get_quantized_image. split.
  - apply map_ext_in. intros c Hin.
    destruct (E c Hin) as (leaf & Hl & Hid & ->).
    apply (Permutation_in _ (get_leaves_perm _)) in Hl.
    specialize (Hcur leaf Hl). rewrite Hi in Hcur.
    rewrite Hcur at 1. rewrite get_class_mean_cov_eq.
    cbn [mean classid new_node].
    rewrite Hid, class_pixels_members, mean_colour_eq. reflexivity.
  - apply Forall_forall. intros px Hpx.
    apply in_map_iff in Hpx. destruct Hpx as (c & <- & Hin).
    destruct (E c Hin) as (leaf & Hl & _ & ->).
    unfold find_dominant_colors, get_dominant_colors.
    apply in_map_iff. now exists leaf.
Qed.

Lemma list_sum_cons (a : nat) (l : list nat) :
  list_sum (a :: l) = (a + list_sum l)%nat.
Proof. reflexivity. Qed.

Lemma indicator_sum (c : Z) (l : list Z) :
  NoDup l -> In c l ->
  list_sum (map (fun id => if Z.eq_dec c id then 1%nat else 0%nat) l) = 1%nat.
Proof.
  induction 1 as [|x l Hx Hnd IH]; intro Hin; [contradiction|].
  cbn [map]. rewrite list_sum_cons. destruct (Z.eq_dec c x) as [Heq|Hne].
  - assert (E : list_sum (map (fun id => if Z.eq_dec c id then 1%nat else 0%nat) l)
                = 0%nat).
    { rewrite Heq. clear IH Hin Hnd Heq. induction l as [|y l IH]; [reflexivity|].
      cbn [map]. rewrite list_sum_cons. destruct (Z.eq_dec x y) as [Hxy|_].
      - exfalso. apply Hx. now left.
      - rewrite IH; [reflexivity|]. intro H. apply Hx. now right. }
    now rewrite E.
  - destruct Hin as [E|Hin]; [congruence|]. now rewrite IH.
Qed.

Lemma count_occ_sum (ids : list Z) (l : list Z) :
  NoDup ids -> (forall c, In c l -> In c ids) ->
  list_sum (map (fun id => count_occ Z.eq_dec l id) ids) = length l.
Proof.
  intros Hnd. induction l as [|c l IH]; intro Hin.
  - clear Hnd Hin. induction ids as [|x ids IHi]; [reflexivity|].
    cbn [map]. rewrite list_sum_cons, IHi. reflexivity.
  - assert (E : forall ids',
               list_sum (map (fun id => count_occ Z.eq_dec (c :: l) id) ids')
               = (list_sum (map (fun id => if Z.eq_dec c id then 1%nat else 0%nat) ids')
                  + list_sum (map (fun id => count_occ Z.eq_dec l id) ids'))%nat).
    { induction ids' as [|x ids' IHi]; [reflexivity|].
      cbn [map]. rewrite !list_sum_cons, IHi. cbn [count_occ].
      destruct (Z.eq_dec c x); lia. }
    rewrite E, IH, indicator_sum; auto.
    + apply Hin. now left.
    + intros x Hx. apply Hin. now right.
Qed.

(** X11: at the end of such a run the leaves share out the pixels: the
    numbers of buffer entries that carry the ids of the leaves add up to
    the number of pixels of the image. *)
Theorem leaves_share_out_pixels (img : list Vec3b) (count : Z) :
  img <> [] -> spread_above_minus_one eigen img -> 1 <= count <= 128 ->
  list_sum (map (fun leaf =>
                   count_occ Z.eq_dec (st_classes (snd (run eigen img count)))
                             (classid leaf))
                (get_leaves (st_root (snd (run eigen img count)))))
  = length img.
Proof.
  intros Himg Hspread Hc.
  destruct (run_current img count Himg Hspread Hc) as (Hnd & _ & Hbuf & _).
  assert (Hlen : length (st_classes (snd (run eigen img count))) = length img).
  { rewrite run_steps. cbn [snd]. rewrite steps_length.
    unfold initial_state. cbn [st_classes]. apply length_map. }
  rewrite <- Hlen.
  rewrite <- (count_occ_sum
                (map classid (get_leaves (st_root (snd (run eigen img count)))))
                (st_classes (snd (run eigen img count)))).
  - now rewrite map_map.
  - eapply Permutation_NoDup; [|exact Hnd].
    apply Permutation_map. symmetry. apply get_leaves_perm.
  - intros c Hin. destruct (Hbuf c Hin) as (leaf & Hl & <-).
    apply in_map.
    eapply Permutation_in; [symmetry; apply get_leaves_perm|exact Hl].
Qed.

(** *** A greater count refines the classes of a smaller one *)





(** *** The matrices handed to the eigen-solver *)

Section Symmetry.
Hypothesis mul_comm : forall a b : R, r_mul a b = r_mul b a.

Lemma outer_symmetric (x : vec3 R) : symmetric (outer x x).
Proof. unfold symmetric, outer; cbn. repeat split; apply mul_comm. Qed.

Lemma mmap2_symmetric (f : R -> R -> R) (a b : mat33 R) :
  symmetric a -> symmetric b -> symmetric (mmap2 f a b).
Proof.
  intros (A1 & A2 & A3) (B1 & B2 & B3). unfold symmetric, mmap2, vmap2; cbn.
  now rewrite A1, A2, A3, B1, B2, B3.
Qed.

Lemma mmap_symmetric (f : R -> R) (a : mat33 R) :
  symmetric a -> symmetric (mmap f a).
Proof.
  intros (A1 & A2 & A3). unfold symmetric, mmap, vmap; cbn.
  now rewrite A1, A2, A3.
Qed.

Lemma outer_sum_symmetric (l : list (vec3 R)) :
  forall m, symmetric m ->
            symmetric (fold_left (fun acc x => madd acc (outer x x)) l m).
Proof.
  induction l as [|x l IH]; intros m Hm; [assumption|].
  cbn [fold_left]. apply IH. apply mmap2_symmetric; [assumption|].
  apply outer_symmetric.
Qed.

Lemma estimate_symmetric (img : list Vec3b) (classes : list Z) (n : node) :
  symmetric (covariance (get_class_mean_cov img classes n)).
Proof.
  rewrite get_class_mean_cov_eq. cbn [covariance].
  apply mmap2_symmetric.
  - apply outer_sum_symmetric. repeat split.
  - apply mmap_symmetric, outer_symmetric.
Qed.

Lemma covariance_update_at (p : path) (f : node -> node) :
  forall n m : node,
    lookup n p = Some m -> covariance (f m) = covariance m ->
    covariance (update_at n p f) = covariance n.
Proof.
  destruct p as [|d p]; intros n m H Hf; simpl in H.
  - inversion H; subst. assumption.
  - destruct n as [mu c i [a|] [b|]], d; simpl in *; try discriminate; reflexivity.
Qed.

Lemma symmetric_steps (img : list Vec3b) (k : nat) :
  symmetric (covariance (st_root (steps eigen k (initial_state img))))
  /\ Forall (fun leaf => symmetric (covariance leaf))
            (leaves_dfs (st_root (steps eigen k (initial_state img)))).
Proof.
  induction k as [|k [IHr IHl]].
  - simpl. unfold initial_state. cbn [st_root].
    rewrite is_leaf_leaves_dfs by apply is_leaf_estimate_new.
    split; [|constructor; [|constructor]]; apply estimate_symmetric.
  - rewrite steps_succ. set (s := steps eigen k (initial_state img)) in *.
    pose proof (get_max_eigenvalue_node_valid eigen (st_root s)) as Hv.
    rewrite split_step_eq. cbn [st_root]. split.
    + erewrite covariance_update_at; [exact IHr|exact Hv|reflexivity].
    + apply Forall_forall. intros x Hx.
      match type of Hx with
      | In _ (leaves_dfs (update_at _ _ ?f)) =>
          pose proof (leaves_update_at (fst (get_max_eigenvalue_node eigen (st_root s)))
                        f _ _ (wf_steps eigen k _ (wf_initial img)) Hv) as P
      end.
      pose proof (Permutation_in x P (in_or_app _ _ x (or_introl Hx))) as Hx'.
      cbv beta in Hx'.
      apply in_app_iff in Hx'. destruct Hx' as [Hx'|Hx'].
      * exact (proj1 (Forall_forall _ _) IHl x Hx').
      * cbn [leaves_dfs] in Hx'.
        rewrite !(is_leaf_leaves_dfs _ (is_leaf_estimate_new _ _ _)) in Hx'.
        destruct Hx' as [<-|[<-|[]]]; apply estimate_symmetric.
Qed.

End Symmetry.

(** X25: the eigen-solver is only handed symmetric matrices.  With a
    commutative multiplication of the scalars (as that of [double] is),
    the estimator stores a symmetric covariance, and at every point of
    every run the covariance of each leaf, which the search decomposes,
    and that of the node picked, which [partition_class] decomposes, are
    symmetric. *)
Theorem eigen_inputs_symmetric (img : list Vec3b) (classes : list Z) (n : node)
        (k : nat) :
  (forall a b : R, r_mul a b = r_mul b a) ->
  symmetric (covariance (get_class_mean_cov img classes n))
  /\ Forall (fun leaf => symmetric (covariance leaf))
            (get_leaves (st_root (steps eigen k (initial_state img))))
  /\ symmetric (covariance
                  (snd (get_max_eigenvalue_node eigen
                          (st_root (steps eigen k (initial_state img)))))).
Proof.
  intro Hc. destruct (symmetric_steps Hc img k) as [Hr Hl].
  assert (Hg : Forall (fun leaf => symmetric (covariance leaf))
                      (get_leaves (st_root (steps eigen k (initial_state img))))).
  { apply Forall_forall. intros x Hx.
    apply (Permutation_in _ (get_leaves_perm _)) in Hx.
    exact (proj1 (Forall_forall _ _) Hl x Hx). }
  split; [now apply estimate_symmetric|]. split; [exact Hg|].
  destruct (get_max_eigenvalue_node_cases eigen
              (st_root (steps eigen k (initial_state img)))) as [E|E].
  - rewrite E. exact Hr.
  - apply (proj1 (Forall_forall _ _) Hg). rewrite <- leaf_ptrs_snd. now apply in_map.
Qed.

(** *** The class-id view of a run *)

Lemma classes_steps_lower (img : list Vec3b) (k : nat) :
  (k <= 127)%nat ->
  forall c, In c (st_classes (steps eigen k (initial_state img))) -> 1 <= c.
Proof.
  induction k as [|k IH]; intros Hk c Hc.
  - simpl in Hc. unfold initial_state in Hc. cbn [st_classes] in Hc.
    apply in_map_iff in Hc. destruct Hc as (_ & <- & _). lia.
  - rewrite steps_succ, split_step_eq in Hc. cbn [st_classes] in Hc.
    rewrite next_classid_steps in Hc by lia.
    rewrite (uchar_cast_small (2 * Z.of_nat k + 2)) in Hc by lia.
    rewrite (uchar_cast_small (2 * Z.of_nat k + 2 + 1)) in Hc by lia.
    apply relabel_in in Hc.
    destruct Hc as [[Hc _]|[Hc|[Hc|[Hc _]]]]; try lia;
      apply IH; auto; lia.
Qed.

Lemma palette_NoDup : NoDup palette.
Proof.
  unfold palette.
  repeat (constructor; [simpl; intuition discriminate|]). constructor.
Qed.

(** X12: for a count of 1 to 9 the class-id view never runs out of
    predefined colours, on any image: no message is printed, every pixel
    is painted with the palette entry of its class id, and two pixels of
    different classes get different colours. *)
Theorem viewable_output_small_count (img : list Vec3b) (count : Z) :
  1 <= count <= 9 ->
  snd (get_viewable_image (st_classes (snd (run eigen img count)))) = 0%nat
  /\ viewable_output eigen img count
     = map (fun c => nth (Z.to_nat c) palette (mk_Vec3b 0 0 0))
           (st_classes (snd (run eigen img count)))
  /\ (forall i j ci cj,
         nth_error (st_classes (snd (run eigen img count))) i = Some ci ->
         nth_error (st_classes (snd (run eigen img count))) j = Some cj ->
         nth_error (viewable_output eigen img count) i
         = nth_error (viewable_output eigen img count) j ->
         ci = cj).
Proof.
  intro Hc.
  assert (Hb : forall c, In c (st_classes (snd (run eigen img count))) ->
                         1 <= c <= 17).
  { intros c Hin. rewrite run_steps in Hin. cbn [snd] in Hin. split.
    - eapply classes_steps_lower; [|exact Hin]. lia.
    - pose proof (classes_steps eigen img (Z.to_nat (count - 1)) ltac:(lia) c Hin).
      lia. }
  assert (Hv : viewable_output eigen img count
               = map (fun c => nth (Z.to_nat c) palette (mk_Vec3b 0 0 0))
                     (st_classes (snd (run eigen img count)))).
  { unfold viewable_output, get_viewable_image. rewrite viewable_fold.
    cbn [fst app]. apply map_ext_in. intros c Hin.
    specialize (Hb c Hin). unfold max_color_count.
    destruct (Z.geb_spec c 18); [lia|reflexivity]. }
  split; [|split; [exact Hv|]].
  - unfold get_viewable_image. rewrite viewable_fold. cbn [snd].
    destruct (filter _ _) as [|c l] eqn:F; [reflexivity|exfalso].
    assert (Hin : In c (c :: l)) by now left.
    rewrite <- F in Hin. apply filter_In in Hin. destruct Hin as [Hin Hge].
    specialize (Hb c Hin). unfold max_color_count in Hge.
    destruct (Z.geb_spec c 18); [lia|discriminate].
  - intros i j ci cj Hi Hj E. rewrite Hv in E.
    rewrite !nth_error_map, Hi, Hj in E. cbn [option_map] in E.
    injection E as E.
    pose proof (Hb ci (nth_error_In _ _ Hi)) as Bi.
    pose proof (Hb cj (nth_error_In _ _ Hj)) as Bj.
    apply (proj1 (NoDup_nth palette (mk_Vec3b 0 0 0)) palette_NoDup) in E;
      [lia| |]; change (length palette) with 18%nat; lia.
Qed.

(** *** [partition_class] on a class without pixels or of a single colour *)

Lemma relabel_absent (eig : vec3 R) (thr : R) (cid a b : Z) (img : list Vec3b) :
  forall classes, ~ In cid classes -> relabel eig thr cid a b img classes = classes.
Proof.
  induction img as [|color img IH]; intros [|c classes] Hn; try reflexivity.
  cbn [relabel]. destruct (Z.eqb_spec c cid) as [->|Hne].
  - exfalso. apply Hn. now left.
  - cbn [negb]. rewrite IH; [reflexivity|]. intro H. apply Hn. now right.
Qed.

(** X14: [partition_class] on a node whose class id no buffer entry
    carries writes nothing into the buffer, and still hangs two new
    childless nodes below the node, with the ids [nextid] and
    [nextid + 1] narrowed to a byte. *)
Theorem partition_class_absent_class
        (img : list Vec3b) (classes : list Z) (nextid : Z) (n : node) :
  ~ In (classid n) classes ->
  fst (partition_class eigen img classes nextid n) = classes
  /\ snd (partition_class eigen img classes nextid n)
     = mk_node (mean n) (covariance n) (classid n)
               (Some (new_node nextid))
               (Some (new_node (uchar_cast (nextid + 1)))).
Proof.
  intro Hn. rewrite partition_class_eq. cbn [fst snd].
  split; [now apply relabel_absent|reflexivity].
Qed.


(** *** The entry points *)

(** X16: what the two entry points let through.  [main] writes its files
    exactly when there are at least three arguments, the image read has
    data and the count is between 1 and 255; its exit code is 1 for an
    image without data, 2 for a count out of range (the image is checked
    first) and 0 otherwise, a missing argument included.  The category
    method returns colours, not nil, exactly when the count is in range
    and the image has data. *)
Theorem entry_points_guard (argc : Z) (image : list Vec3b) (count : Z) :
  (snd (main eigen argc image count) <> None
   <-> 3 <= argc /\ image <> [] /\ 1 <= count <= 255)
  /\ (fst (main eigen argc image count) = 1 <-> 3 <= argc /\ image = [])
  /\ (fst (main eigen argc image count) = 2
      <-> 3 <= argc /\ image <> [] /\ (count <= 0 \/ 255 < count))
  /\ (fst (main eigen argc image count) = 0
      <-> argc < 3 \/ (image <> [] /\ 1 <= count <= 255))
  /\ (UIImage.getDominantColors eigen image count <> None
      <-> image <> [] /\ 1 <= count <= 255).
Proof.
  unfold main, UIImage.getDominantColors.
  destruct (Z.ltb_spec argc 3), image as [|px image],
           (Z.leb_spec count 0), (Z.gtb_spec count 255);
    cbn [orb fst snd]; repeat split; intros;
      repeat match goal with
             | H : _ /\ _ |- _ => destruct H
             | H : _ \/ _ |- _ => destruct H
             end;
      try congruence; try lia; try discriminate;
      try (left; lia); try (right; split; [discriminate|lia]);
      try (split; [discriminate|lia]);
      try (right; lia).
Qed.

(** X17: when [main] lets the arguments through (and the eigen-solver
    reports a top eigenvalue above -1 for every class that owns a pixel)
    it exits with 0 having written the three images: the class-id view and
    the quantised image with one pixel per pixel of the image read, and a
    palette strip of exactly [count] tiles, the tile number [k] in the
    colour number [k] that [find_dominant_colors] returns. *)
Theorem main_writes_files (argc : Z) (matImage : list Vec3b) (count : Z) :
  3 <= argc -> matImage <> [] -> 1 <= count <= 255 ->
  spread_above_minus_one eigen matImage ->
  exists f,
    main eigen argc matImage count = (0, Some f)
    /\ length (classification_png f) = length matImage
    /\ length (quantized_png f) = length matImage
    /\ length (find_dominant_colors eigen matImage count) = Z.to_nat count
    /\ forall r c : nat,
        pixel_at (palette_png f) r c
        = if (r <? 64)%nat
          then nth_error (find_dominant_colors eigen matImage count) (c / 64)
          else None.
Proof.
  intros Ha Hi Hc Hs. eexists. split; [|split; [|split; [|split]]].
  - unfold main.
    destruct (Z.ltb_spec argc 3); [lia|].
    destruct matImage as [|px rest]; [contradiction|].
    destruct (Z.leb_spec count 0); [lia|].
    destruct (Z.gtb_spec count 255); [lia|]. reflexivity.
  - cbn [classification_png]. apply output_lengths.
  - cbn [quantized_png]. apply output_lengths.
  - unfold find_dominant_colors, get_dominant_colors. rewrite length_map.
    apply leaves_run; [lia|]. now apply picks_leaves_spread.
  - intros r c. cbn [palette_png]. unfold palette_output.
    apply pixel_at_palette.
Qed.

(** X18: when the category method lets its arguments through it returns
    exactly [numberOfColors] colours (with such an eigen-solver), all of
    alpha 1, and they are the colours of [main.cpp] before
    de-normalisation: scaling their components by 255 and narrowing them
    to bytes gives the list that [find_dominant_colors] of [main.cpp]
    returns for the same image and count. *)
Theorem getDominantColors_colors (cvMat : list Vec3b) (numberOfColors : Z) :
  cvMat <> [] -> 1 <= numberOfColors <= 255 ->
  spread_above_minus_one eigen cvMat ->
  exists colors,
    UIImage.getDominantColors eigen cvMat numberOfColors = Some colors
    /\ length colors = Z.to_nat numberOfColors
    /\ Forall (fun col => UIImage.alpha col = r_one) colors
    /\ map (fun col =>
              to_Vec3b (mk_vec3 (UIImage.red col) (UIImage.green col)
                                (UIImage.blue col)))
           colors
       = find_dominant_colors eigen cvMat numberOfColors.
Proof.
  intros Hi Hc Hs. eexists. split; [|split; [|split]].
  - unfold UIImage.getDominantColors.
    destruct (Z.leb_spec numberOfColors 0); [lia|].
    destruct (Z.gtb_spec numberOfColors 255); [lia|].
    destruct cvMat as [|px rest]; [contradiction|]. reflexivity.
  - unfold UIImage.find_dominant_colors. rewrite length_map.
    apply leaves_run; [lia|]. now apply picks_leaves_spread.
  - unfold UIImage.find_dominant_colors.
    apply Forall_forall. intros col Hin.
    apply in_map_iff in Hin. now destruct Hin as (leaf & <- & _).
  - unfold UIImage.find_dominant_colors, find_dominant_colors, get_dominant_colors.
    rewrite map_map. apply map_ext. intro leaf.
    cbn [UIImage.red UIImage.green UIImage.blue]. reflexivity.
Qed.

End Coverage.

(** ** The estimator on a class without pixels *)

Lemma class_pixels_absent (img : list Vec3b) :
  forall (classes : list Z) (id : Z),
    ~ In id classes -> class_pixels (R := dbl) img classes id = [].
Proof.
  unfold class_pixels.
  induction img as [|color img IH]; intros [|c classes] id Hn; try reflexivity.
  cbn [combine filter snd]. destruct (Z.eqb_spec c id) as [->|Hne].
  - exfalso. apply Hn. now left.
  - apply IH. intro H. apply Hn. now right.
Qed.

(** X19: for a node whose class id no buffer entry carries, the estimator
    divides zero sums by a zero count: with the arithmetic of [double]
    (0/0 is NaN) every entry of the mean and of the covariance it stores
    is NaN. *)
Theorem get_class_mean_cov_absent_class
        (img : list Vec3b) (classes : list Z) (n : t_color_node dbl) :
  ~ In (classid n) classes ->
  mean (get_class_mean_cov img classes n) = mk_vec3 NaN NaN NaN
  /\ covariance (get_class_mean_cov img classes n)
     = mk_mat33 (mk_vec3 NaN NaN NaN) (mk_vec3 NaN NaN NaN) (mk_vec3 NaN NaN NaN).
Proof.
  intro Hn. rewrite get_class_mean_cov_eq. cbn [mean covariance].
  rewrite (class_pixels_absent img classes (classid n) Hn).
  split; reflexivity.
Qed.

(** ** Instances of the further properties *)

Lemma find_dominant_colors_no_split_witness :
  INT_MIN < -3 <= 1
  /\ length (find_dominant_colors eigen_diag img_four (-3)) = 1%nat.
Proof.
  assert (H : INT_MIN < -3 <= 1) by (unfold INT_MIN; lia).
  split; [exact H|].
  exact (proj2 (proj2 (proj2 (proj2
           (find_dominant_colors_no_split eigen_diag img_four (-3) H))))).
Defined.

Lemma find_dominant_colors_bounds_witness :
  INT_MIN < 0 <= INT_MAX
  /\ Z.min 2 (Z.max 1 0)
     <= Z.of_nat (length (find_dominant_colors eigen_diag img_four 0))
     <= Z.max 1 0.
Proof.
  assert (H : INT_MIN < 0 <= INT_MAX) by (unfold INT_MIN, INT_MAX; lia).
  split; [exact H|].
  exact (find_dominant_colors_bounds eigen_diag img_four 0 H).
Defined.

Lemma get_max_eigenvalue_node_in_run_witness :
  (forall a : dbl, r_gtb a a = false)
  /\ (forall a b c : dbl, r_gtb a b = true -> r_gtb b c = true -> r_gtb a c = true)
  /\ img_four <> [] /\ spread_above_minus_one eigen_diag img_four
  /\ left (st_root (initial_state (R := dbl) img_four)) = None
  /\ right (st_root (initial_state (R := dbl) img_four)) = None
  /\ max_eigenvalue_search eigen_diag (st_root (initial_state img_four))
     = (([], st_root (initial_state img_four)), O)
  /\ In (snd (get_max_eigenvalue_node eigen_diag
                (st_root (steps eigen_diag 2 (initial_state img_four)))))
        (get_leaves (st_root (steps eigen_diag 2 (initial_state img_four)))).
Proof.
  assert (H1 : forall a : dbl, r_gtb a a = false) by exact dbl_gtb_irrefl.
  assert (H2 : forall a b c : dbl,
             r_gtb a b = true -> r_gtb b c = true -> r_gtb a c = true)
    by exact dbl_gtb_trans.
  assert (H3 : img_four <> []) by discriminate.
  assert (H5 : left (st_root (initial_state (R := dbl) img_four)) = None)
    by (vm_compute; reflexivity).
  assert (H6 : right (st_root (initial_state (R := dbl) img_four)) = None)
    by (vm_compute; reflexivity).
  split; [exact H1|]. split; [exact H2|]. split; [exact H3|].
  split; [exact spread_img_four|]. split; [exact H5|]. split; [exact H6|].
  split.
  - exact (proj1 (get_max_eigenvalue_node_in_run eigen_diag
                    (st_root (initial_state img_four)) img_four 1
                    H1 H2 H3 spread_img_four) H5 H6).
  - exact (proj1 (proj2 (proj2 (proj2 (proj2
             (get_max_eigenvalue_node_in_run eigen_diag
                (st_root (initial_state img_four)) img_four 1
                H1 H2 H3 spread_img_four)))))).
Defined.

Lemma leaf_statistics_current_witness :
  img_four <> [] /\ spread_above_minus_one eigen_diag img_four /\ 1 <= 3 <= 128
  /\ NoDup (map classid
                (get_leaves (st_root (snd (run eigen_diag img_four 3))))).
Proof.
  assert (H1 : img_four <> []) by discriminate.
  assert (H3 : 1 <= 3 <= 128) by lia.
  split; [exact H1|]. split; [exact spread_img_four|]. split; [exact H3|].
  exact (proj1 (leaf_statistics_current eigen_diag img_four 3 H1 spread_img_four H3)).
Defined.

Lemma quantized_output_class_means_witness :
  img_four <> [] /\ spread_above_minus_one eigen_diag img_four /\ 1 <= 3 <= 128
  /\ Forall (fun px => In px (find_dominant_colors eigen_diag img_four 3))
            (quantized_output eigen_diag img_four 3).
Proof.
  assert (H1 : img_four <> []) by discriminate.
  assert (H3 : 1 <= 3 <= 128) by lia.
  split; [exact H1|]. split; [exact spread_img_four|]. split; [exact H3|].
  exact (proj2 (quantized_output_class_means eigen_diag img_four 3
                  H1 spread_img_four H3)).
Defined.

Lemma leaves_share_out_pixels_witness :
  img_four <> [] /\ spread_above_minus_one eigen_diag img_four /\ 1 <= 3 <= 128
  /\ list_sum (map (fun leaf =>
                      count_occ Z.eq_dec (st_classes (snd (run eigen_diag img_four 3)))
                                (classid leaf))
                   (get_leaves (st_root (snd (run eigen_diag img_four 3)))))
     = length img_four.
Proof.
  assert (H1 : img_four <> []) by discriminate.
  assert (H3 : 1 <= 3 <= 128) by lia.
  split; [exact H1|]. split; [exact spread_img_four|]. split; [exact H3|].
  exact (leaves_share_out_pixels eigen_diag img_four 3 H1 spread_img_four H3).
Defined.

Lemma viewable_output_small_count_witness :
  1 <= 3 <= 9
  /\ snd (get_viewable_image (st_classes (snd (run eigen_diag img_four 3)))) = 0%nat.
Proof.
  assert (H : 1 <= 3 <= 9) by lia.
  split; [exact H|].
  exact (proj1 (viewable_output_small_count eigen_diag img_four 3 H)).
Defined.

Lemma partition_class_absent_class_witness :
  ~ In (classid (new_node (R := dbl) 1)) [2]
  /\ fst (partition_class eigen_diag img_one [2] 4 (new_node 1)) = [2].
Proof.
  assert (H : ~ In (classid (new_node (R := dbl) 1)) [2])
    by (intros [H|[]]; discriminate H).
  split; [exact H|].
  exact (proj1 (partition_class_absent_class eigen_diag img_one [2] 4 (new_node 1) H)).
Defined.


Lemma get_class_mean_cov_absent_class_witness :
  ~ In (classid (new_node (R := dbl) 7)) [1; 1]
  /\ mean (get_class_mean_cov img_bw [1; 1] (new_node (R := dbl) 7))
     = mk_vec3 NaN NaN NaN.
Proof.
  assert (H : ~ In (classid (new_node (R := dbl) 7)) [1; 1])
    by (intros [H|[H|[]]]; discriminate H).
  split; [exact H|].
  exact (proj1 (get_class_mean_cov_absent_class img_bw [1; 1] (new_node 7) H)).
Defined.

Lemma split_step_partitions_witness :
  (1 <= 126)%nat
  /\ ~ In (classid (snd (get_max_eigenvalue_node eigen_diag
                           (st_root (steps eigen_diag 1 (initial_state img_four))))))
          (st_classes (split_step eigen_diag
                         (steps eigen_diag 1 (initial_state img_four)))).
Proof.
  assert (H : (1 <= 126)%nat) by lia.
  split; [exact H|].
  exact (proj1 (proj2 (split_step_partitions eigen_diag img_four 1 H))).
Defined.

Lemma main_writes_files_witness :
  3 <= 3 /\ img_four <> [] /\ 1 <= 3 <= 255
  /\ spread_above_minus_one eigen_diag img_four
  /\ exists f,
      main eigen_diag 3 img_four 3 = (0, Some f)
      /\ length (classification_png f) = length img_four.
Proof.
  assert (H0 : 3 <= 3) by lia.
  assert (H1 : img_four <> []) by discriminate.
  assert (H3 : 1 <= 3 <= 255) by lia.
  split; [exact H0|]. split; [exact H1|]. split; [exact H3|].
  split; [exact spread_img_four|].
  destruct (main_writes_files eigen_diag 3 img_four 3 H0 H1 H3 spread_img_four)
    as (f & Hf & Hl & _).
  exists f. split; [exact Hf|exact Hl].
Defined.

Lemma getDominantColors_colors_witness :
  img_four <> [] /\ 1 <= 3 <= 255
  /\ spread_above_minus_one eigen_diag img_four
  /\ exists colors,
      UIImage.getDominantColors eigen_diag img_four 3 = Some colors
      /\ length colors = Z.to_nat 3.
Proof.
  assert (H1 : img_four <> []) by discriminate.
  assert (H3 : 1 <= 3 <= 255) by lia.
  split; [exact H1|]. split; [exact H3|]. split; [exact spread_img_four|].
  destruct (getDominantColors_colors eigen_diag img_four 3 H1 H3 spread_img_four)
    as (colors & Hc & Hl & _).
  exists colors. split; [exact Hc|exact Hl].
Defined.

Lemma get_max_eigenvalue_node_first_witness :
  (forall a : dbl, r_gtb a a = false)
  /\ (forall a b c : dbl, r_gtb a b = true -> r_gtb b c = true -> r_gtb a c = true)
  /\ (left (st_root (steps eigen_diag 1 (initial_state img_four))) <> None
      \/ right (st_root (steps eigen_diag 1 (initial_state img_four))) <> None)
  /\ Exists (fun leaf => r_gtb (top_eigenvalue eigen_diag leaf) r_minus_one = true)
            (get_leaves (st_root (steps eigen_diag 1 (initial_state img_four))))
  /\ exists l1 l2,
      get_leaves (st_root (steps eigen_diag 1 (initial_state img_four)))
      = l1 ++ snd (get_max_eigenvalue_node eigen_diag
                     (st_root (steps eigen_diag 1 (initial_state img_four)))) :: l2.
Proof.
  assert (H1 : forall a : dbl, r_gtb a a = false) by exact dbl_gtb_irrefl.
  assert (H2 : forall a b c : dbl,
             r_gtb a b = true -> r_gtb b c = true -> r_gtb a c = true)
    by exact dbl_gtb_trans.
  assert (H3 : left (st_root (steps eigen_diag 1 (initial_state img_four))) <> None
               \/ right (st_root (steps eigen_diag 1 (initial_state img_four))) <> None)
    by (left; vm_compute; discriminate).
  assert (H4 : Exists (fun leaf => r_gtb (top_eigenvalue eigen_diag leaf) r_minus_one = true)
                      (get_leaves (st_root (steps eigen_diag 1 (initial_state img_four)))))
    by (apply Exists_exists;
        apply (proj1 (existsb_exists
                        (fun leaf => r_gtb (top_eigenvalue eigen_diag leaf) r_minus_one) _));
        vm_compute; reflexivity).
  split; [exact H1|]. split; [exact H2|]. split; [exact H3|]. split; [exact H4|].
  destruct (get_max_eigenvalue_node_first eigen_diag
              (st_root (steps eigen_diag 1 (initial_state img_four))) H1 H2 H3 H4)
    as (l1 & l2 & H & _).
  exists l1, l2. exact H.
Defined.

Lemma class_ids_unique_witness :
  1 <= 3 <= 128 /\ NoDup (ids (st_root (snd (run eigen_diag img_four 3)))).
Proof.
  assert (H : 1 <= 3 <= 128) by lia.
  split; [exact H|].
  exact (proj1 (class_ids_unique eigen_diag img_four 3 H)).
Defined.

Lemma dbl_mul_comm (a b : dbl) : dbl_mul a b = dbl_mul b a.
Proof.
  destruct a as [p| | |], b as [q| | |]; cbn [dbl_mul dbl_sgn]; try reflexivity;
    try (now rewrite Z.mul_comm).
  f_equal. apply Qred_complete. apply Qmult_comm.
Qed.

Lemma eigen_inputs_symmetric_witness :
  (forall a b : dbl, r_mul a b = r_mul b a)
  /\ symmetric (covariance (get_class_mean_cov img_bw [1; 1] (new_node (R := dbl) 1))).
Proof.
  assert (H : forall a b : dbl, r_mul a b = r_mul b a) by exact dbl_mul_comm.
  split; [exact H|].
  exact (proj1 (eigen_inputs_symmetric eigen_diag img_bw [1; 1] (new_node 1) O H)).
Defined.

